(** * argparse: option registry, tokenizing parser and validation pass

    A shallow embedding of [src/argparser.h] (class [argument_parser] and its
    nested classes) together with the properties of the parser that the
    specification states.

    Conventions of the embedding.

    - C++ [int] is [Z]; the counters of a [Value] only ever grow by one per
      token, so the signed overflow of the source (undefined behaviour) is
      out of reach and is not modelled.  [size_t] indices are [nat].
    - A method that mutates [this] is a function in the state-and-exception
      monad [M S] over the object it mutates; a C++ exception keeps the state
      reached when it was thrown, as in the source.
    - [std::vector<Option>] is a [list]; an [Option*] into [mOptions] is an
      index.  [std::shared_ptr<OptionGroup>] is the key of the group in
      [mGroups] (groups are only ever created by [addGroup], which registers
      them under their own name).
    - The variables of the caller that receive the parsed values are cells of
      a [Store]; a [ConvertedValue] holds the address of its cell, so two
      options declared on one variable share it.
    - [Value] is open to subclasses of the caller; such a value is given by
      what its [doSetValue] makes of its destination and by whether it
      overrides the empty [doReset] of [Value].
    - [convert.h] and the help formatter are not part of the sources: the
      converter of a [ConvertedValue] is a parameter of the value, and
      [generate_help] only writes to the output stream. *)

From Stdlib Require Import ZArith String Ascii List Bool Lia Sorted.
From Stdlib Require Import DecimalString.
From Stdlib Require OrderedTypeEx.
From stdpp Require Import base option list gmap strings.
Import ListNotations.

Local Open Scope string_scope.
Local Open Scope Z_scope.

(** ** Exceptions, outcomes and the state-and-exception monad *)

(** Errors known by the parser ([enum EError]). *)
Inductive EError : Set :=
| UNKNOWN_OPTION
| EXCLUSIVE_OPTION
| MISSING_OPTION
| MISSING_OPTION_GROUP
| MISSING_ARGUMENT
| CONVERSION_ERROR
| INVALID_CHOICE
| FLAG_PARAMETER
| HELP_REQUESTED.

Global Instance EError_eq_dec : EqDecision EError.
Proof. solve_decision. Defined.

(** The exception classes thrown or caught in [argparser.h]. *)
Inductive Exn : Type :=
| std_invalid_argument (what : string)
| std_out_of_range (what : string)
| InvalidChoiceError (value : string)
| MixingGroupTypes (groupName : string)
| RequiredExclusiveOption (groupName optionName : string)
| ParserTerminated (arg : string) (errorCode : EError).

(** [what()] of an exception: the message the constructors of
    [MixingGroupTypes] and [RequiredExclusiveOption] build, the text given
    to a standard exception, and the fixed text of [ParserTerminated]. *)
Definition what (e : Exn) : string :=
  match e with
  | std_invalid_argument what => what
  | std_out_of_range what => what
  | InvalidChoiceError value => value
  | MixingGroupTypes groupName => "Mixing group types in group '" ++ groupName ++ "'"
  | RequiredExclusiveOption groupName optionName =>
      "Option '" ++ optionName ++ "' is required in exclusive group '" ++ groupName ++ "'"
  | ParserTerminated _ _ => "Parsing terminated."
  end.

(** Modelled from the spec: [convert.h] is not among the sources.  A converter
    is the capability "string to typed value, or conversion failure"; it
    reports a failure by one of the two exceptions that [Parser::setValue]
    turns into CONVERSION_ERROR. *)
Inductive ConversionFailure : Type :=
| invalid_argument (what : string)
| out_of_range (what : string).

Definition thrown (f : ConversionFailure) : Exn :=
  match f with
  | invalid_argument what => std_invalid_argument what
  | out_of_range what => std_out_of_range what
  end.

(** How a call ends: it returns, it throws, or it ends the process
    ([exit]). *)
Inductive Outcome (A : Type) : Type :=
| Ok (a : A)
| Raise (e : Exn)
| Exit (code : Z).
Arguments Ok {A} a.
Arguments Raise {A} e.
Arguments Exit {A} code.

Definition M (S A : Type) : Type := S -> Outcome A * S.

Definition ret {S A} (a : A) : M S A := fun s => (Ok a, s).
Definition raise {S A} (e : Exn) : M S A := fun s => (Raise e, s).
Definition exit {S A} (code : Z) : M S A := fun s => (Exit code, s).
Definition bind {S A B} (m : M S A) (k : A -> M S B) : M S B :=
  fun s =>
    match m s with
    | (Ok a, s') => k a s'
    | (Raise e, s') => (Raise e, s')
    | (Exit c, s') => (Exit c, s')
    end.
Definition get {S} : M S S := fun s => (Ok s, s).
Definition put {S} (s : S) : M S unit := fun _ => (Ok tt, s).
Definition modify {S} (f : S -> S) : M S unit := fun s => (Ok tt, f s).

(** Run a computation on a part of the state. *)
Definition zoom {S T A} (proj : S -> T) (upd : T -> S -> S) (m : M T A) : M S A :=
  fun s => let (r, t') := m (proj s) in (r, upd t' s).

Declare Scope m_scope.
Delimit Scope m_scope with M.
Notation "'let*' x := c 'in' k" := (bind c (fun x => k))
  (at level 10, x name, c at level 100, k at level 200) : m_scope.
Notation "c ;;; k" := (bind c (fun _ => k))
  (at level 100, k at level 200, right associativity) : m_scope.
Local Open Scope m_scope.

(** [for ( auto& x : xs ) body( x )] *)
Fixpoint for_each {S A} (xs : list A) (body : A -> M S unit) : M S unit :=
  match xs with
  | [] => ret tt
  | x :: xs' => bind (body x) (fun _ => for_each xs' body)
  end.

(** ** Strings *)

(** [std::string_view::substr( pos )] *)
Definition substr_from (pos : nat) (s : string) : string :=
  substring pos (String.length s - pos) s.

(** [std::string_view::find( "=" )] *)
Definition find_eq (s : string) : option nat := index 0 "=" s.

Definition tolower (c : ascii) : ascii :=
  let n := nat_of_ascii c in
  if ((65 <=? n) && (n <=? 90))%nat then ascii_of_nat (n + 32) else c.

Definition toupper (c : ascii) : ascii :=
  let n := nat_of_ascii c in
  if ((97 <=? n) && (n <=? 122))%nat then ascii_of_nat (n - 32) else c.

Fixpoint transform (f : ascii -> ascii) (s : string) : string :=
  match s with
  | EmptyString => EmptyString
  | String c s' => String (f c) (transform f s')
  end.

(** [std::isspace] in the C locale. *)
Definition isspace (c : ascii) : bool :=
  let n := nat_of_ascii c in
  ((n =? 32) || ((9 <=? n) && (n <=? 13)))%nat.

Fixpoint string_exists (p : ascii -> bool) (s : string) : bool :=
  match s with
  | EmptyString => false
  | String c s' => p c || string_exists p s'
  end.

(** [name[0] == '-'] on a non-empty name. *)
Definition has_dash (name : string) : bool :=
  match name with
  | String "-" _ => true
  | _ => false
  end.

(** [std::string::find_first_not_of( chars )] *)
Fixpoint find_first_not_of (chars : string) (s : string) : option nat :=
  match s with
  | EmptyString => None
  | String c s' =>
      if string_exists (Ascii.eqb c) chars
      then S <$> find_first_not_of chars s'
      else Some 0%nat
  end.

(** [std::to_string( int )] *)
Definition to_string (n : Z) : string := NilZero.string_of_int (Z.to_int n).

(** ** The destinations: variables of the caller *)

Section Destinations.
Context {TValue : Type}.

(** A destination variable is a scalar or a [std::vector]. *)
Inductive Target : Type :=
| Scalar (v : TValue)
| Vector (vs : list TValue).

Definition elements_of (c : option Target) : list TValue :=
  match c with
  | Some (Vector vs) => vs
  | _ => []
  end.
End Destinations.
Arguments Target : clear implicits.

Abbreviation Store TValue := (gmap nat (Target TValue)).

(** ** class Value, VoidValue, ConvertedValue *)

Module Value.
Section Defs.
Context {TValue : Type}.

Definition converter_t : Type := string -> ConversionFailure + TValue.

(** [doSetValue] of a subclass that the caller defines: from the string and
    the present content of the destination it makes the new content, or it
    fails as a converter does, by one of the two exceptions that
    [Parser::setValue] catches. *)
Definition setter_t : Type :=
  string -> option (Target TValue) -> ConversionFailure + Target TValue.

(** The subclasses of [Value].  The library defines [VoidValue] and
    [ConvertedValue]; the latter is split by the overload of [assign] that
    its destination selects, and [empty] is the value-initialised [TValue{}]
    of its [doReset].  [add_argument] also accepts a subclass of the caller
    ([std::is_base_of<Value, TValue>]), as the custom value of the tests: a
    [UserValue] refers to its destination [mValue] and overrides
    [doSetValue], which is pure virtual; [doReset] is the empty method that
    it inherits from [Value] ([None]), unless the subclass overrides it to
    store a fixed content ([Some content]). *)
Inductive kind : Type :=
| VoidValue
| ConvertedValue (mValue : nat) (mConvert : converter_t) (empty : TValue)
| ConvertedVector (mValue : nat) (mConvert : converter_t)
| UserValue (mValue : nat) (set : setter_t) (reset : option (Target TValue)).

Record t : Type := mk {
  mAssignCount : Z;
  mOptionAssignCount : Z;
  mHasErrors : bool;
  impl : kind
}.

(** State of a method of [Value]: the object and the caller's variables. *)
Abbreviation state := (t * Store TValue)%type.

Definition make (k : kind) : t :=
  {| mAssignCount := 0; mOptionAssignCount := 0; mHasErrors := false; impl := k |}.

Definition doSetValue (value : string) : M state unit :=
  fun '(v, st) =>
    match impl v with
    | VoidValue => (Ok tt, (v, st))
    | ConvertedValue r conv _ =>
        match conv value with
        | inr x => (Ok tt, (v, <[r := Scalar x]> st))
        | inl e => (Raise (thrown e), (v, st))
        end
    | ConvertedVector r conv =>
        match conv value with
        | inr x => (Ok tt, (v, <[r := Vector (elements_of (st !! r) ++ [x])]> st))
        | inl e => (Raise (thrown e), (v, st))
        end
    | UserValue r set _ =>
        match set value (st !! r) with
        | inr content => (Ok tt, (v, <[r := content]> st))
        | inl e => (Raise (thrown e), (v, st))
        end
    end.

Definition doReset : M state unit :=
  fun '(v, st) =>
    match impl v with
    | VoidValue => (Ok tt, (v, st))
    | ConvertedValue r _ empty => (Ok tt, (v, <[r := Scalar empty]> st))
    | ConvertedVector r _ => (Ok tt, (v, <[r := Vector []]> st))
    | UserValue _ _ None => (Ok tt, (v, st))
    | UserValue r _ (Some content) => (Ok tt, (v, <[r := content]> st))
    end.

Definition incAssignCount (v : t) : t :=
  {| mAssignCount := mAssignCount v + 1;
     mOptionAssignCount := mOptionAssignCount v;
     mHasErrors := mHasErrors v;
     impl := impl v |}.

Definition incOptionAssignCount (v : t) : t :=
  {| mAssignCount := mAssignCount v;
     mOptionAssignCount := mOptionAssignCount v + 1;
     mHasErrors := mHasErrors v;
     impl := impl v |}.

Definition setHasErrors (b : bool) (v : t) : t :=
  {| mAssignCount := mAssignCount v;
     mOptionAssignCount := mOptionAssignCount v;
     mHasErrors := b;
     impl := impl v |}.

Definition on_this (f : t -> t) : M state unit :=
  fun '(v, st) => (Ok tt, (f v, st)).

Definition setValue (value : string) : M state unit :=
  (on_this incAssignCount ;;;
   on_this incOptionAssignCount ;;;
   doSetValue value)%M.

Definition markBadArgument : M state unit :=
  (on_this incOptionAssignCount ;;;
   on_this (setHasErrors true))%M.

Definition getAssignCount (v : t) : Z := mAssignCount v.
Definition getOptionAssignCount (v : t) : Z := mOptionAssignCount v.

Definition onOptionStarted : M state unit :=
  on_this (fun v =>
    {| mAssignCount := mAssignCount v;
       mOptionAssignCount := 0;
       mHasErrors := mHasErrors v;
       impl := impl v |}).

Definition reset : M state unit :=
  (on_this (fun v => make (impl v)) ;;;
   doReset)%M.
End Defs.
Arguments converter_t : clear implicits.
Arguments setter_t : clear implicits.
Arguments kind : clear implicits.
Arguments t : clear implicits.
Abbreviation state TValue := (t TValue * Store TValue)%type.
End Value.

(** ** class AssignAction *)

(** The assign-action runs before the value is set: it returns the string
    that is set on the target the normal way, or nothing.  The one action the
    library defines returns its argument. *)
Definition AssignAction : Type := string -> option string.

Definition AssignAction_assign : AssignAction := fun value => Some value.

(** ** class OptionGroup *)

Module OptionGroup.
Record t : Type := mk {
  mName : string;
  mIsRequired : bool;
  mIsExclusive : bool
}.

Definition make (name : string) (isExclusive : bool) : t :=
  {| mName := name; mIsRequired := false; mIsExclusive := isExclusive |}.

(** The required flag can be set only when the group is not yet required. *)
Definition setRequired (isRequired : bool) (g : t) : t :=
  if negb (mIsRequired g)
  then {| mName := mName g; mIsRequired := isRequired; mIsExclusive := mIsExclusive g |}
  else g.

Definition getName (g : t) : string := mName g.
Definition isExclusive (g : t) : bool := mIsExclusive g.
Definition isRequired (g : t) : bool := mIsRequired g.
End OptionGroup.

(** ** class Option *)

Module Option.
Section Defs.
Context {TValue : Type}.

Record t : Type := mk {
  mpValue : Value.t TValue;
  mpAssignAction : option AssignAction;
  mShortName : string;
  mLongName : string;
  mMetavar : string;
  mHelp : string;
  mFlagValue : string;
  mChoices : list string;
  mpGroup : option string;
  mMinArgs : Z;
  mMaxArgs : Z;
  mIsRequired : bool;
  mIsVectorValue : bool
}.

Abbreviation state := (t * Store TValue)%type.

(** The two constructors: [Option( TValue& )] and
    [Option( std::vector<TValue>& )]; the second one sets
    [mIsVectorValue]. *)
Definition make (k : Value.kind TValue) : t :=
  {| mpValue := Value.make k;
     mpAssignAction := None;
     mShortName := "";
     mLongName := "";
     mMetavar := "";
     mHelp := "";
     mFlagValue := "1";
     mChoices := [];
     mpGroup := None;
     mMinArgs := 0;
     mMaxArgs := 0;
     mIsRequired := false;
     mIsVectorValue :=
       match k with
       | Value.ConvertedVector _ _ => true
       | _ => false
       end |}.

Definition with_value (v : Value.t TValue) (o : t) : t :=
  mk v (mpAssignAction o) (mShortName o) (mLongName o) (mMetavar o) (mHelp o)
     (mFlagValue o) (mChoices o) (mpGroup o) (mMinArgs o) (mMaxArgs o)
     (mIsRequired o) (mIsVectorValue o).

Definition setShortName (name : string) (o : t) : t :=
  mk (mpValue o) (mpAssignAction o) name (mLongName o) (mMetavar o) (mHelp o)
     (mFlagValue o) (mChoices o) (mpGroup o) (mMinArgs o) (mMaxArgs o)
     (mIsRequired o) (mIsVectorValue o).

Definition setLongName (name : string) (o : t) : t :=
  mk (mpValue o) (mpAssignAction o) (mShortName o) name (mMetavar o) (mHelp o)
     (mFlagValue o) (mChoices o) (mpGroup o) (mMinArgs o) (mMaxArgs o)
     (mIsRequired o) (mIsVectorValue o).

Definition setMetavar (varname : string) (o : t) : t :=
  mk (mpValue o) (mpAssignAction o) (mShortName o) (mLongName o) varname (mHelp o)
     (mFlagValue o) (mChoices o) (mpGroup o) (mMinArgs o) (mMaxArgs o)
     (mIsRequired o) (mIsVectorValue o).

Definition setHelp (help : string) (o : t) : t :=
  mk (mpValue o) (mpAssignAction o) (mShortName o) (mLongName o) (mMetavar o) help
     (mFlagValue o) (mChoices o) (mpGroup o) (mMinArgs o) (mMaxArgs o)
     (mIsRequired o) (mIsVectorValue o).

Definition setCounts (minArgs maxArgs : Z) (o : t) : t :=
  mk (mpValue o) (mpAssignAction o) (mShortName o) (mLongName o) (mMetavar o) (mHelp o)
     (mFlagValue o) (mChoices o) (mpGroup o) minArgs maxArgs
     (mIsRequired o) (mIsVectorValue o).

Definition setNArgs (count : Z) (o : t) : t :=
  setCounts (Z.max 0 count) (Z.max 0 count) o.

Definition setMinArgs (count : Z) (o : t) : t :=
  setCounts (Z.max 0 count) (-1) o.

Definition setMaxArgs (count : Z) (o : t) : t :=
  setCounts 0 (Z.max 0 count) o.

Definition setRequired (isRequired : bool) (o : t) : t :=
  mk (mpValue o) (mpAssignAction o) (mShortName o) (mLongName o) (mMetavar o) (mHelp o)
     (mFlagValue o) (mChoices o) (mpGroup o) (mMinArgs o) (mMaxArgs o)
     isRequired (mIsVectorValue o).

Definition setFlagValue (value : string) (o : t) : t :=
  mk (mpValue o) (mpAssignAction o) (mShortName o) (mLongName o) (mMetavar o) (mHelp o)
     value (mChoices o) (mpGroup o) (mMinArgs o) (mMaxArgs o)
     (mIsRequired o) (mIsVectorValue o).

Definition setChoices (choices : list string) (o : t) : t :=
  mk (mpValue o) (mpAssignAction o) (mShortName o) (mLongName o) (mMetavar o) (mHelp o)
     (mFlagValue o) choices (mpGroup o) (mMinArgs o) (mMaxArgs o)
     (mIsRequired o) (mIsVectorValue o).

Definition setAction (pAction : option AssignAction) (o : t) : t :=
  mk (mpValue o) pAction (mShortName o) (mLongName o) (mMetavar o) (mHelp o)
     (mFlagValue o) (mChoices o) (mpGroup o) (mMinArgs o) (mMaxArgs o)
     (mIsRequired o) (mIsVectorValue o).

Definition setGroup (pGroup : option string) (o : t) : t :=
  mk (mpValue o) (mpAssignAction o) (mShortName o) (mLongName o) (mMetavar o) (mHelp o)
     (mFlagValue o) (mChoices o) pGroup (mMinArgs o) (mMaxArgs o)
     (mIsRequired o) (mIsVectorValue o).

Definition isRequired (o : t) : bool := mIsRequired o.

Definition getName (o : t) : string :=
  if String.eqb (mLongName o) "" then mShortName o else mLongName o.

Definition getShortName (o : t) : string := mShortName o.
Definition getLongName (o : t) : string := mLongName o.

Definition hasName (name : string) (o : t) : bool :=
  String.eqb name (mShortName o) || String.eqb name (mLongName o).

(** Run a method of [Value] on [*mpValue]. *)
Definition on_value {A} (m : M (Value.state TValue) A) : M state A :=
  zoom (fun '(o, st) => (mpValue o, st))
       (fun '(v, st') '(o, _) => (with_value v o, st'))
       m.

Definition setValue (value : string) : M state unit :=
  fun '(o, st) =>
    (if negb (bool_decide (mChoices o = []))
        && forallb (fun v => negb (String.eqb v value)) (mChoices o)
     then
       on_value Value.markBadArgument ;;;
       raise (InvalidChoiceError value)
     else
       match mpAssignAction o with
       | Some pAction =>
           match pAction value with
           | Some newValue => on_value (Value.setValue newValue)
           | None => ret tt
           end
       | None => on_value (Value.setValue value)
       end)%M (o, st).

Definition resetValue : M state unit := on_value Value.reset.

Definition onOptionStarted : M state unit := on_value Value.onOptionStarted.

Definition acceptsAnyArguments (o : t) : bool :=
  (0 <? mMinArgs o) || negb (mMaxArgs o =? 0).

Definition willAcceptArgument (o : t) : bool :=
  (mMaxArgs o <? 0) || (Value.getOptionAssignCount (mpValue o) <? mMaxArgs o).

Definition needsMoreArguments (o : t) : bool :=
  Value.getOptionAssignCount (mpValue o) <? mMinArgs o.

Definition hasVectorValue (o : t) : bool := mIsVectorValue o.

Definition wasAssigned (o : t) : bool :=
  0 <? Value.getAssignCount (mpValue o).

Definition wasAssignedThroughThisOption (o : t) : bool :=
  0 <? Value.getOptionAssignCount (mpValue o).

Definition getFlagValue (o : t) : string := mFlagValue o.

Definition getArgumentCounts (o : t) : Z * Z := (mMinArgs o, mMaxArgs o).

Definition getRawHelp (o : t) : string := mHelp o.

(** The metavar that was set, or else the name without its leading dashes,
    in upper case.  [substr( pos )] throws [std::out_of_range] when the name
    has nothing but dashes ([pos] is then [npos]); the text of the exception
    is the standard library's. *)
Definition getMetavar (o : t) : Outcome string :=
  if negb (String.eqb (mMetavar o) "") then Ok (mMetavar o)
  else
    match find_first_not_of "-" (getName o) with
    | Some pos => Ok (transform toupper (substr_from pos (getName o)))
    | None => Raise (std_out_of_range "basic_string::substr")
    end.

Definition getGroup (o : t) : option string := mpGroup o.
End Defs.
Arguments t : clear implicits.
Abbreviation state TValue := (t TValue * Store TValue)%type.
End Option.

(** ** ParserConfig, ParseError, ParseResult *)

Inductive EExitMode : Set := EXIT_TERMINATE | EXIT_THROW | EXIT_RETURN.

Module ParserConfig.
(** [ParserConfig::Data]; the output stream it points to is not modelled. *)
Record Data : Type := mk {
  program : string;
  usage : string;
  description : string;
  epilog : string;
  exitMode : EExitMode
}.

Definition make : Data :=
  {| program := ""; usage := ""; description := ""; epilog := "";
     exitMode := EXIT_TERMINATE |}.

Definition set_exitMode (m : EExitMode) (d : Data) : Data :=
  {| program := program d; usage := usage d; description := description d;
     epilog := epilog d; exitMode := m |}.

Definition on_exit_terminate : Data -> Data := set_exitMode EXIT_TERMINATE.
Definition on_exit_throw : Data -> Data := set_exitMode EXIT_THROW.
Definition on_exit_return : Data -> Data := set_exitMode EXIT_RETURN.
End ParserConfig.

Record ParseError : Type := mkParseError {
  option_name : string;
  errorCode : EError
}.

Global Instance ParseError_eq_dec : EqDecision ParseError.
Proof. solve_decision. Defined.

Module ParseResult.
Record t : Type := mk {
  ignoredArguments : list string;
  errors : list ParseError
}.

Definition empty : t := {| ignoredArguments := []; errors := [] |}.

Definition clear (_ : t) : t := empty.

Definition add_error (e : ParseError) (r : t) : t :=
  {| ignoredArguments := ignoredArguments r; errors := errors r ++ [e] |}.

Definition add_ignored (arg : string) (r : t) : t :=
  {| ignoredArguments := ignoredArguments r ++ [arg]; errors := errors r |}.
End ParseResult.

(** ** ArgumentHelpResult *)

(** Modelled from the spec: [helpformatter_i.h] is not among the sources.
    The descriptor of an argument has the fields that [describeOption] fills
    in: the two names, the help text, the required flag, the summary of the
    arguments (empty until it is assigned) and, when the option has a group,
    the name and the two flags of the group. *)
Module ArgumentHelpResult.
Record group_t : Type := mk_group {
  name : string;
  isExclusive : bool;
  isRequired : bool
}.

Record t : Type := mk {
  short_name : string;
  long_name : string;
  help : string;
  required : bool;
  arguments : string;
  group : option group_t
}.
End ArgumentHelpResult.

(** ** std::map with string keys, iterated in key order *)

Section StdMap.
Context {V : Type}.

(** [m[key] = f( m[key] )], where a key that is not in the map is first
    inserted with the value [init]. *)
Fixpoint map_update (key : string) (init : V) (f : V -> V)
    (m : list (string * V)) : list (string * V) :=
  match m with
  | [] => [(key, f init)]
  | (k, v) :: m' =>
      match String.compare key k with
      | Lt => (key, f init) :: m
      | Eq => (k, f v) :: m'
      | Gt => (k, v) :: map_update key init f m'
      end
  end.
End StdMap.

(** ** class argument_parser: the registry *)

Module argument_parser.
Section Registry.
Context {TValue : Type}.

Record t : Type := mk {
  mConfig : ParserConfig.Data;
  mOptions : list (Option.t TValue);
  mPositional : list (Option.t TValue);
  mHelpOptionNames : gset string;
  mGroups : gmap string OptionGroup.t;
  mpActiveGroup : option string
}.

(** A freshly constructed [argument_parser]. *)
Definition make : t :=
  {| mConfig := ParserConfig.make; mOptions := []; mPositional := [];
     mHelpOptionNames := ∅; mGroups := ∅; mpActiveGroup := None |}.

(** State of a method of [argument_parser]: the object and the caller's
    variables. *)
Abbreviation state := (t * Store TValue)%type.

Definition set_mConfig (c : ParserConfig.Data) (ap : t) : t :=
  mk c (mOptions ap) (mPositional ap) (mHelpOptionNames ap) (mGroups ap)
     (mpActiveGroup ap).

Definition set_mOptions (os : list (Option.t TValue)) (ap : t) : t :=
  mk (mConfig ap) os (mPositional ap) (mHelpOptionNames ap) (mGroups ap)
     (mpActiveGroup ap).

Definition set_mPositional (os : list (Option.t TValue)) (ap : t) : t :=
  mk (mConfig ap) (mOptions ap) os (mHelpOptionNames ap) (mGroups ap)
     (mpActiveGroup ap).

Definition set_mHelpOptionNames (ns : gset string) (ap : t) : t :=
  mk (mConfig ap) (mOptions ap) (mPositional ap) ns (mGroups ap)
     (mpActiveGroup ap).

Definition set_mGroups (gs : gmap string OptionGroup.t) (ap : t) : t :=
  mk (mConfig ap) (mOptions ap) (mPositional ap) (mHelpOptionNames ap) gs
     (mpActiveGroup ap).

Definition set_mpActiveGroup (g : option string) (ap : t) : t :=
  mk (mConfig ap) (mOptions ap) (mPositional ap) (mHelpOptionNames ap)
     (mGroups ap) g.

(** References.  An [Option&] names an element of one of the two
    vectors; a [shared_ptr<OptionGroup>] is dereferenced through
    [mGroups]. *)
Inductive option_ref : Set :=
| in_mOptions (i : nat)
| in_mPositional (i : nat).

Global Instance Option_inhabited : Inhabited (Option.t TValue) :=
  populate (Option.make Value.VoidValue).

Definition deref (r : option_ref) (ap : t) : Option.t TValue :=
  match r with
  | in_mOptions i => mOptions ap !!! i
  | in_mPositional i => mPositional ap !!! i
  end.

Definition assign (r : option_ref) (o : Option.t TValue) (ap : t) : t :=
  match r with
  | in_mOptions i => set_mOptions (<[i := o]> (mOptions ap)) ap
  | in_mPositional i => set_mPositional (<[i := o]> (mPositional ap)) ap
  end.

(** Run a method of [Option] on the referenced option. *)
Definition on_option {A} (r : option_ref) (m : M (Option.state TValue) A) : M state A :=
  zoom (fun '(ap, st) => (deref r ap, st))
       (fun '(o, st') '(ap, _) => (assign r o ap, st'))
       m.

Definition group_of (pGroup : option string) (ap : t) : option OptionGroup.t :=
  match pGroup with
  | Some key => mGroups ap !! key
  | None => None
  end.

(** [pGroup && pGroup->isExclusive()] *)
Definition group_isExclusive (pGroup : option string) (ap : t) : bool :=
  match group_of pGroup ap with
  | Some g => OptionGroup.isExclusive g
  | None => false
  end.

(** [pGroup && pGroup->isRequired()] *)
Definition group_isRequired (pGroup : option string) (ap : t) : bool :=
  match group_of pGroup ap with
  | Some g => OptionGroup.isRequired g
  | None => false
  end.

(** [pGroup->getName()] *)
Definition group_getName (pGroup : option string) (ap : t) : string :=
  match group_of pGroup ap with
  | Some g => OptionGroup.getName g
  | None => ""
  end.
End Registry.
Arguments t : clear implicits.
Abbreviation state TValue := (t TValue * Store TValue)%type.

(** *** class Parser: the tokenizing parser *)

Module Parser.
Section Defs.
Context {TValue : Type}.

Record t : Type := mk {
  mIgnoreOptions : bool;
  mPosition : nat;
  mpActiveOption : option nat;
  mResult : ParseResult.t
}.

(** [Parser parser( *this )] *)
Definition make : t :=
  {| mIgnoreOptions := false; mPosition := 0%nat; mpActiveOption := None;
     mResult := ParseResult.empty |}.

(** State of a method of [Parser]: the parser, and the registry
    [mArgParser] it refers to with the caller's variables. *)
Abbreviation state := (t * argument_parser.state TValue)%type.

Definition set_mIgnoreOptions (b : bool) (p : t) : t :=
  mk b (mPosition p) (mpActiveOption p) (mResult p).
Definition set_mPosition (n : nat) (p : t) : t :=
  mk (mIgnoreOptions p) n (mpActiveOption p) (mResult p).
Definition set_mpActiveOption (a : option nat) (p : t) : t :=
  mk (mIgnoreOptions p) (mPosition p) a (mResult p).
Definition set_mResult (r : ParseResult.t) (p : t) : t :=
  mk (mIgnoreOptions p) (mPosition p) (mpActiveOption p) r.

Definition on_this (f : t -> t) : M state unit :=
  fun '(p, w) => (Ok tt, (f p, w)).

Definition on_mArgParser {A} (m : M (argument_parser.state TValue) A) : M state A :=
  zoom snd (fun w' '(p, _) => (p, w')) m.

(** Read the referenced option. *)
Definition option_at (r : option_ref) : M state (Option.t TValue) :=
  fun '(p, (ap, st)) => (Ok (deref r ap), (p, (ap, st))).

Definition addError (optionName : string) (errorCode : EError) : M state unit :=
  on_this (fun p =>
    set_mResult (ParseResult.add_error (mkParseError optionName errorCode) (mResult p)) p).

Definition findOption (optionName : string) (ap : argument_parser.t TValue) : option nat :=
  fst <$> list_find (Option.hasName optionName) (mOptions ap).

Definition setValue (r : option_ref) (value : string) : M state unit :=
  fun s =>
    match on_mArgParser (on_option r (Option.setValue value)) s with
    | (Raise (InvalidChoiceError _), s') =>
        (let* option := option_at r in addError (Option.getName option) INVALID_CHOICE)%M s'
    | (Raise (std_invalid_argument _), s') =>
        (let* option := option_at r in addError (Option.getName option) CONVERSION_ERROR)%M s'
    | (Raise (std_out_of_range _), s') =>
        (let* option := option_at r in addError (Option.getName option) CONVERSION_ERROR)%M s'
    | other => other
    end.

Definition haveActiveOption (p : t) : bool :=
  bool_decide (mpActiveOption p ≠ None).

Definition closeOption : M state unit :=
  (fun '(p, w) =>
    match mpActiveOption p with
    | Some i =>
        (let* option := option_at (in_mOptions i) in
         if Option.needsMoreArguments option then
           addError (Option.getName option) MISSING_ARGUMENT
         else if Option.willAcceptArgument option
                 && negb (Option.wasAssignedThroughThisOption option) then
           on_mArgParser
             (on_option (in_mOptions i) (Option.setValue (Option.getFlagValue option)))
         else ret tt)%M (p, w)
    | None => (Ok tt, (p, w))
    end) ;;;
  on_this (set_mpActiveOption None).

(** The name and the [=value] suffix of an option token, as [startOption]
    splits it. *)
Definition split_argument (name : string) : string * string :=
  match find_eq name with
  | Some eqpos => (substring 0 eqpos name, substr_from (eqpos + 1) name)
  | None => (name, "")
  end.

Definition startOption (name : string) : M state unit :=
  (fun '(p, w) =>
     (if haveActiveOption p then closeOption else ret tt) (p, w)) ;;;
  let '(name, arg) := split_argument name in
  fun '(p, (ap, st)) =>
    match findOption name ap with
    | Some i =>
        let r := in_mOptions i in
        (on_mArgParser (on_option r Option.onOptionStarted) ;;;
         let* option := option_at r in
         (if Option.willAcceptArgument option then
            on_this (set_mpActiveOption (Some i))
          else
            setValue r (Option.getFlagValue option)) ;;;
         if negb (String.eqb arg "") then
           let* option := option_at r in
           if Option.willAcceptArgument option then
             setValue r arg
           else
             addError name FLAG_PARAMETER
         else ret tt)%M (p, (ap, st))
    | None => addError name UNKNOWN_OPTION (p, (ap, st))
    end.

(** The [while] loop of [addFreeArgument]: the first position from
    [pos] on whose positional will accept an argument, if there is
    one; otherwise the size of [mPositional]. *)
Fixpoint next_accepting (rest : list (Option.t TValue)) (pos : nat) : nat * bool :=
  match rest with
  | [] => (pos, false)
  | option :: rest' =>
      if Option.willAcceptArgument option then (pos, true)
      else next_accepting rest' (S pos)
  end.

Definition push_ignored (arg : string) : M state unit :=
  on_this (fun p => set_mResult (ParseResult.add_ignored arg (mResult p)) p).

Definition addFreeArgument (arg : string) : M state unit :=
  fun '(p, (ap, st)) =>
    match mPositional ap !! mPosition p with
    | Some option =>
        if Option.willAcceptArgument option then
          setValue (in_mPositional (mPosition p)) arg (p, (ap, st))
        else
          let '(pos, found) :=
            next_accepting (drop (S (mPosition p)) (mPositional ap)) (S (mPosition p)) in
          (on_this (set_mPosition pos) ;;;
           if found then setValue (in_mPositional pos) arg
           else push_ignored arg) (p, (ap, st))
    | None => push_ignored arg (p, (ap, st))
    end.

(** The body of the loop of [parse]. *)
Definition parse_arg (arg : string) : M state unit :=
  fun '(p, w) =>
    (if String.eqb arg "--" then
       on_this (set_mIgnoreOptions true)
     else if mIgnoreOptions p then
       addFreeArgument arg
     else if String.eqb (substring 0 2 arg) "--" then
       startOption arg
     else if String.eqb (substring 0 1 arg) "-" then
       if (String.length arg =? 2)%nat then
         startOption arg
       else
         for_each (list_ascii_of_string (substr_from 1 arg))
                  (fun c => startOption (String "-" (String c "")))
     else
       match mpActiveOption p with
       | Some i =>
           let* option := option_at (in_mOptions i) in
           if Option.willAcceptArgument option then
             setValue (in_mOptions i) arg ;;;
             let* option := option_at (in_mOptions i) in
             if negb (Option.willAcceptArgument option) then closeOption
             else ret tt
           else ret tt
       | None => addFreeArgument arg
       end) (p, w).

Definition parse (args : list string) : M state ParseResult.t :=
  on_this (fun p => set_mResult (ParseResult.clear (mResult p)) p) ;;;
  for_each args parse_arg ;;;
  (fun '(p, w) => (if haveActiveOption p then closeOption else ret tt) (p, w)) ;;;
  fun '(p, w) => (Ok (mResult p), (p, w)).
End Defs.
Arguments t : clear implicits.
Abbreviation state TValue := (t * argument_parser.state TValue)%type.
End Parser.

(** *** OptionConfig and GroupConfig: the handles the builder returns *)

Module OptionConfig.
Section Defs.
Context {TValue : Type}.

(** [mOptions] is a reference to one of the two vectors of the
    registry; [mIndex] is the index of the option in it. *)
Record t : Type := mk {
  mOptions : nat -> option_ref;
  mIndex : nat;
  mCountWasSet : bool
}.

Abbreviation state := (t * argument_parser.t TValue)%type.

Definition ensureCountWasNotSet : M state unit :=
  fun '(c, ap) =>
    if mCountWasSet c
    then (Raise (std_invalid_argument "Only one of nargs, minargs and maxargs can be used."),
          (c, ap))
    else (Ok tt, (c, ap)).

(** [mOptions[mIndex].f( ... )] *)
Definition on_option (f : Option.t TValue -> Option.t TValue) : M state unit :=
  fun '(c, ap) =>
    let r := mOptions c (mIndex c) in
    (Ok tt, (c, assign r (f (deref r ap)) ap)).

Definition set_mCountWasSet : M state unit :=
  fun '(c, ap) => (Ok tt, (mk (mOptions c) (mIndex c) true, ap)).

Definition setShortName (name : string) : M state unit := on_option (Option.setShortName name).
Definition setLongName (name : string) : M state unit := on_option (Option.setLongName name).
Definition metavar (varname : string) : M state unit := on_option (Option.setMetavar varname).
Definition help (text : string) : M state unit := on_option (Option.setHelp text).

Definition nargs (count : Z) : M state unit :=
  ensureCountWasNotSet ;;;
  on_option (Option.setNArgs count) ;;;
  set_mCountWasSet.

Definition minargs (count : Z) : M state unit :=
  ensureCountWasNotSet ;;;
  on_option (Option.setMinArgs count) ;;;
  set_mCountWasSet.

Definition maxargs (count : Z) : M state unit :=
  ensureCountWasNotSet ;;;
  on_option (Option.setMaxArgs count) ;;;
  set_mCountWasSet.

Definition required (isRequired : bool) : M state unit :=
  on_option (Option.setRequired isRequired).
Definition flagValue (value : string) : M state unit :=
  on_option (Option.setFlagValue value).
Definition choices (cs : list string) : M state unit :=
  on_option (Option.setChoices cs).
Definition action (pAction : option AssignAction) : M state unit :=
  on_option (Option.setAction pAction).
End Defs.
Arguments t : clear implicits.
Abbreviation state TValue := (t * argument_parser.t TValue)%type.
End OptionConfig.

Module GroupConfig.
Section Defs.
Context {TValue : Type}.

(** [mpGroup->setRequired( isRequired )] on the group the handle
    points to. *)
Definition required (mpGroup : option string) (isRequired : bool)
    (ap : argument_parser.t TValue) : argument_parser.t TValue :=
  match mpGroup with
  | Some key =>
      set_mGroups (alter (OptionGroup.setRequired isRequired) key (mGroups ap)) ap
  | None => ap
  end.
End Defs.
End GroupConfig.

(** *** The builder *)

Section Builder.
Context {TValue : Type}.
Abbreviation t := (argument_parser.t TValue).

(** Chain a call on the [OptionConfig] that a builder call returned. *)
Definition configure (c : OptionConfig.t) (m : M (OptionConfig.state TValue) unit)
    : M t OptionConfig.t :=
  fun ap =>
    match m (c, ap) with
    | (Ok _, (c', ap')) => (Ok c', ap')
    | (Raise e, (_, ap')) => (Raise e, ap')
    | (Exit n, (_, ap')) => (Exit n, ap')
    end.

Definition trySetNames (names : list string) : M (Option.t TValue) unit :=
  for_each names (fun name =>
    if String.eqb name "" || String.eqb name "-" || String.eqb name "--"
       || negb (has_dash name)
    then ret tt
    else if String.eqb (substring 0 2 name) "--" then
      modify (Option.setLongName name)
    else if String.eqb (substring 0 1 name) "-" then
      if (2 <? String.length name)%nat then
        raise (std_invalid_argument "Short option name has too many characters.")
      else modify (Option.setShortName name)
    else ret tt) ;;;
  (fun option =>
     if String.eqb (Option.getName option) ""
     then raise (std_invalid_argument "An option must have a name.") option
     else ret tt option).

Definition isOption (names : list string) : bool := forallb has_dash names.

Definition isPositional (names : list string) : bool :=
  forallb (fun name => negb (has_dash name)) names.

Definition tryAddArgument (newOption : Option.t TValue) (names : list string)
    : M t OptionConfig.t :=
  (* Remove empty names *)
  let names := List.filter (fun name => negb (String.eqb name "")) names in
  if bool_decide (names = []) then
    raise (std_invalid_argument "An argument must have a name.")
  else if existsb (string_exists isspace) names then
    raise (std_invalid_argument "Argument names must not contain spaces.")
  else if isPositional names then
    fun ap =>
      let ap := set_mPositional (mPositional ap ++ [newOption]) ap in
      let back := (length (mPositional ap) - 1)%nat in
      let option := deref (in_mPositional back) ap in
      let option :=
        Option.setLongName (match names with [] => "arg" | name :: _ => name end) option in
      let option :=
        if Option.hasVectorValue option then Option.setMinArgs 0 option
        else Option.setNArgs 1 option in
      (* Positional parameters are required so they can't be in an
         exclusive group.  We simply ignore them. *)
      let option :=
        match mpActiveGroup ap with
        | Some _ =>
            if negb (group_isExclusive (mpActiveGroup ap) ap)
            then Option.setGroup (mpActiveGroup ap) option
            else option
        | None => option
        end in
      (Ok (OptionConfig.mk in_mPositional back false),
       assign (in_mPositional back) option ap)
  else if isOption names then
    fun ap =>
      let ap := set_mOptions (mOptions ap ++ [newOption]) ap in
      let back := (length (mOptions ap) - 1)%nat in
      match trySetNames names (deref (in_mOptions back) ap) with
      | (Ok _, option) =>
          let option :=
            match mpActiveGroup ap with
            | Some _ => Option.setGroup (mpActiveGroup ap) option
            | None => option
            end in
          (Ok (OptionConfig.mk in_mOptions back false),
           assign (in_mOptions back) option ap)
      | (Raise e, option) => (Raise e, assign (in_mOptions back) option ap)
      | (Exit n, option) => (Exit n, assign (in_mOptions back) option ap)
      end
  else
    raise (std_invalid_argument "The argument must be either positional or an option.").

(** [add_argument( value, name, altName )], for a destination variable
    as for a [Value]: both build the [Option] and try to add it. *)
Definition add_argument (value : Value.kind TValue) (name altName : string)
    : M t OptionConfig.t :=
  tryAddArgument (Option.make value) [name; altName].

Definition add_help_option (name altName : string) : M t OptionConfig.t :=
  if negb (String.eqb name "") && negb (has_dash name)
     || negb (String.eqb altName "") && negb (has_dash altName)
  then raise (std_invalid_argument "A help argument must be an option.")
  else
    let* optionConfig := tryAddArgument (Option.make Value.VoidValue) [name; altName] in
    let* optionConfig :=
      configure optionConfig (OptionConfig.help "Print this help message and exit.") in
    (if negb (String.eqb name "")
     then modify (fun ap => set_mHelpOptionNames (mHelpOptionNames ap ∪ {[name]}) ap)
     else ret tt) ;;;
    (if negb (String.eqb altName "")
     then modify (fun ap => set_mHelpOptionNames (mHelpOptionNames ap ∪ {[altName]}) ap)
     else ret tt) ;;;
    ret optionConfig.

Definition findGroup (name : string) (ap : t) : option string :=
  let name := transform tolower name in
  match mGroups ap !! name with
  | Some _ => Some name
  | None => None
  end.

Definition addGroup (name : string) (isExclusive : bool) : M t (option string) :=
  let name := transform tolower name in
  modify (fun ap => set_mGroups (<[name := OptionGroup.make name isExclusive]> (mGroups ap)) ap) ;;;
  ret (Some name).

(** [add_group] and [add_exclusive_group] return the [GroupConfig] of the
    group that became the active one. *)
Definition add_group (name : string) : M t (option string) :=
  fun ap =>
    match findGroup name ap with
    | Some key =>
        if group_isExclusive (Some key) ap then (Raise (MixingGroupTypes name), ap)
        else (Ok (Some key), set_mpActiveGroup (Some key) ap)
    | None =>
        (let* pGroup := addGroup name false in
         modify (set_mpActiveGroup pGroup) ;;;
         ret pGroup) ap
    end.

Definition add_exclusive_group (name : string) : M t (option string) :=
  fun ap =>
    match findGroup name ap with
    | Some key =>
        if negb (group_isExclusive (Some key) ap) then (Raise (MixingGroupTypes name), ap)
        else (Ok (Some key), set_mpActiveGroup (Some key) ap)
    | None =>
        (let* pGroup := addGroup name true in
         modify (set_mpActiveGroup pGroup) ;;;
         ret pGroup) ap
    end.

Definition end_group : M t unit := modify (set_mpActiveGroup None).
End Builder.

(** *** parse_args and the validation pass *)

Section Parsing.
Context {TValue : Type}.
Abbreviation t := (argument_parser.t TValue).
Abbreviation state := (argument_parser.state TValue).

(** Run a method that only touches the registry. *)
Definition on_registry {A} (m : M t A) : M state A :=
  zoom fst (fun ap' '(_, st) => (ap', st)) m.

(** A required option can not be in an exclusive group.  (The source
    passes the option name first and the group name second.) *)
Definition verifyDefinedOptions : M t unit :=
  fun ap =>
    for_each (mOptions ap) (fun opt =>
      if Option.isRequired opt then
        let pGroup := Option.getGroup opt in
        if group_isExclusive pGroup ap then
          raise (RequiredExclusiveOption (Option.getName opt) (group_getName pGroup ap))
        else ret tt
      else ret tt) ap.

Definition reportMissingOptions (ap : t) (result : ParseResult.t) : ParseResult.t :=
  let result :=
    fold_left (fun result option =>
      if Option.isRequired option && negb (Option.wasAssigned option)
      then ParseResult.add_error (mkParseError (Option.getName option) MISSING_OPTION) result
      else result) (mOptions ap) result in
  fold_left (fun result option =>
    if Option.needsMoreArguments option
    then ParseResult.add_error (mkParseError (Option.getName option) MISSING_ARGUMENT) result
    else result) (mPositional ap) result.

(** The map [counts] that the first loop of [reportExclusiveViolations]
    builds. *)
Definition exclusive_counts (ap : t) : list (string * list string) :=
  fold_left (fun counts option =>
    let pGroup := Option.getGroup option in
    if group_isExclusive pGroup ap && Option.wasAssigned option
    then map_update (group_getName pGroup ap) []
           (fun names => (names ++ [Option.getName option])%list) counts
    else counts) (mOptions ap) [].

Definition reportExclusiveViolations (ap : t) (result : ParseResult.t) : ParseResult.t :=
  let counts := exclusive_counts ap in
  fold_left (fun result c =>
    if (1 <? length (snd c))%nat
    then ParseResult.add_error (mkParseError (hd "" (snd c)) EXCLUSIVE_OPTION) result
    else result) counts result.

Definition required_counts (ap : t) : list (string * Z) :=
  fold_left (fun counts option =>
    let pGroup := Option.getGroup option in
    if group_isRequired pGroup ap
    then map_update (group_getName pGroup ap) 0
           (fun n => n + (if Option.wasAssigned option then 1 else 0)) counts
    else counts) (mOptions ap) [].

Definition reportMissingGroups (ap : t) (result : ParseResult.t) : ParseResult.t :=
  let counts := required_counts ap in
  fold_left (fun result c =>
    if snd c <? 1
    then ParseResult.add_error (mkParseError (fst c) MISSING_OPTION_GROUP) result
    else result) counts result.

(** Modelled from the spec: [HelpFormatter::format] ([helpformatter.h] is
    not among the sources) consumes the descriptive metadata of the
    registry only and writes the help text to the output stream, which
    is not part of the state. *)
Definition generate_help : M state unit := ret tt.

Definition exit_parser (arg : string) (errorCode : EError) : M state ParseResult.t :=
  fun '(ap, st) =>
    match ParserConfig.exitMode (mConfig ap) with
    | EXIT_TERMINATE => (Exit 0, (ap, st))
    | EXIT_THROW => (Raise (ParserTerminated arg errorCode), (ap, st))
    | EXIT_RETURN =>
        (Ok {| ParseResult.ignoredArguments := [];
               ParseResult.errors := [mkParseError arg errorCode] |}, (ap, st))
    end.

(** [for ( auto& option : mOptions ) option.resetValue();] and the same
    loop over [mPositional]. *)
Definition resetValues : M state unit :=
  (fun '(ap, st) =>
     for_each (seq 0 (length (mOptions ap)))
              (fun i => on_option (in_mOptions i) Option.resetValue) (ap, st)) ;;;
  (fun '(ap, st) =>
     for_each (seq 0 (length (mPositional ap)))
              (fun i => on_option (in_mPositional i) Option.resetValue) (ap, st)).

(** The first argument that is the name of a help option. *)
Definition find_help_request (args : list string) (ap : t) : option string :=
  snd <$> list_find (fun arg => arg ∈ mHelpOptionNames ap) args.

(** [if ( mHelpOptionNames.empty() ) add_help_option();] *)
Definition install_default_help : M state unit :=
  fun '(ap, st) =>
    (if bool_decide (mHelpOptionNames ap = ∅)
     then on_registry (add_help_option "--help" "-h") ;;; ret tt
     else ret tt) (ap, st).

(** The part of [parse_args] that follows the reset loops: the scan for a
    help option, then the parser and the validation pass. *)
Definition parse_prepared (args : list string) : M state ParseResult.t :=
  fun '(ap, st) =>
    match find_help_request args ap with
    | Some arg =>
        (generate_help ;;;
         exit_parser arg HELP_REQUESTED) (ap, st)
    | None =>
        match Parser.parse args (Parser.make, (ap, st)) with
        | (Ok result, (_, (ap', st'))) =>
            let result := reportMissingOptions ap' result in
            let result := reportExclusiveViolations ap' result in
            let result := reportMissingGroups ap' result in
            (Ok result, (ap', st'))
        | (Raise e, (_, w)) => (Raise e, w)
        | (Exit n, (_, w)) => (Exit n, w)
        end
    end.

Definition parse_args (args : list string) : M state ParseResult.t :=
  install_default_help ;;;
  on_registry verifyDefinedOptions ;;;
  resetValues ;;;
  parse_prepared args.
(** *** describe_argument, describe_arguments *)

(** The summary of the arguments that [describeOption] builds for an option
    that accepts arguments: the metavar once for every required argument,
    then the optional part. *)
Definition describeOption (option : Option.t TValue) : M t ArgumentHelpResult.t :=
  let* arguments :=
    (if Option.acceptsAnyArguments option then
       fun ap =>
         match Option.getMetavar option with
         | Ok metavar =>
             let '(mmin, mmax) := Option.getArgumentCounts option in
             let res :=
               if 0 <? mmin
               then Nat.iter (Z.to_nat (mmin - 1))
                             (fun res => res ++ " " ++ metavar) metavar
               else "" in
             let res :=
               if mmax <? mmin then
                 res ++ ((if String.eqb res "" then "[" else " [") ++ metavar ++ " ...]")
               else if mmax - mmin =? 1 then
                 res ++ ("[" ++ metavar ++ "]")
               else if mmin <? mmax then
                 res ++ ((if String.eqb res "" then "[" else " [") ++ metavar ++ " {0.."
                         ++ to_string (mmax - mmin) ++ "}]")
               else res in
             (Ok res, ap)
         | Raise e => (Raise e, ap)
         | Exit n => (Exit n, ap)
         end
     else ret "") in
  fun ap =>
    (Ok {| ArgumentHelpResult.short_name := Option.getShortName option;
           ArgumentHelpResult.long_name := Option.getLongName option;
           ArgumentHelpResult.help := Option.getRawHelp option;
           ArgumentHelpResult.required := Option.isRequired option;
           ArgumentHelpResult.arguments := arguments;
           ArgumentHelpResult.group :=
             match group_of (Option.getGroup option) ap with
             | Some g =>
                 Some {| ArgumentHelpResult.name := OptionGroup.getName g;
                         ArgumentHelpResult.isExclusive := OptionGroup.isExclusive g;
                         ArgumentHelpResult.isRequired := OptionGroup.isRequired g |}
             | None => None
             end |}, ap).

Definition describe_argument (name : string) : M t ArgumentHelpResult.t :=
  fun ap =>
    let args :=
      if String.eqb (substring 0 1 name) "-" then mOptions ap else mPositional ap in
    match List.find (Option.hasName name) args with
    | Some opt => describeOption opt ap
    | None => raise (std_invalid_argument "Unknown option") ap
    end.

(** [for ( auto& opt : opts ) descriptions.push_back( describeOption( opt ) );] *)
Fixpoint push_descriptions (opts : list (Option.t TValue))
    (descriptions : list ArgumentHelpResult.t) : M t (list ArgumentHelpResult.t) :=
  match opts with
  | [] => ret descriptions
  | opt :: opts' =>
      let* d := describeOption opt in
      push_descriptions opts' (descriptions ++ [d])%list
  end.

Definition describe_arguments : M t (list ArgumentHelpResult.t) :=
  fun ap =>
    (let* descriptions := push_descriptions (mOptions ap) [] in
     push_descriptions (mPositional ap) descriptions) ap.
End Parsing.
End argument_parser.

(** ** Vocabulary of the statements *)

(** The value stored under [key] in a [std::map]. *)
Fixpoint map_find {V : Type} (key : string) (m : list (string * V)) : option V :=
  match m with
  | [] => None
  | (k, v) :: m' => if String.eqb key k then Some v else map_find key m'
  end.

(** The keys of a [std::map] are strictly increasing. *)
Definition keys_increasing {V : Type} (m : list (string * V)) : Prop :=
  StronglySorted (fun a b => String.compare a b = Lt) (List.map fst m).

(** What the second loop of [reportExclusiveViolations] emits for one entry
    of [counts]. *)
Definition exclusive_violation (c : string * list string) : list ParseError :=
  if (1 <? length (snd c))%nat
  then [mkParseError (hd "" (snd c)) EXCLUSIVE_OPTION]
  else [].

(** The options of the exclusive group named [g] that were assigned, in the
    order of their declaration. *)
Definition assigned_in_exclusive_group {TValue : Type}
    (ap : argument_parser.t TValue) (g : string) : list (Option.t TValue) :=
  List.filter (fun option =>
      argument_parser.group_isExclusive (Option.getGroup option) ap
      && Option.wasAssigned option
      && String.eqb (argument_parser.group_getName (Option.getGroup option) ap) g)
    (argument_parser.mOptions ap).

(** What [Option::resetValue] makes of an option: the counters and the error
    flag of its value are cleared. *)
Definition reset_option {TValue : Type} (o : Option.t TValue) : Option.t TValue :=
  Option.with_value (Value.make (Value.impl (Option.mpValue o))) o.

(** The destination variable of an option, if its value has one. *)
Definition cell_of {TValue : Type} (o : Option.t TValue) : option nat :=
  match Value.impl (Option.mpValue o) with
  | Value.VoidValue => None
  | Value.ConvertedValue cell _ _ => Some cell
  | Value.ConvertedVector cell _ => Some cell
  | Value.UserValue cell _ _ => Some cell
  end.

(** What [Option::resetValue] makes of the destination variable. *)
Definition reset_cell {TValue : Type} (o : Option.t TValue) (st : Store TValue)
    : Store TValue :=
  match Value.impl (Option.mpValue o) with
  | Value.VoidValue => st
  | Value.ConvertedValue cell _ empty => <[cell := Scalar empty]> st
  | Value.ConvertedVector cell _ => <[cell := Vector []]> st
  | Value.UserValue _ _ None => st
  | Value.UserValue cell _ (Some content) => <[cell := content]> st
  end.

(** The value of the option has a [doReset] of its own: it is not a subclass
    of the caller that inherits the empty [doReset] of [Value]. *)
Definition overrides_doReset {TValue : Type} (o : Option.t TValue) : bool :=
  match Value.impl (Option.mpValue o) with
  | Value.UserValue _ _ None => false
  | _ => true
  end.

(** Every option and every positional of the registry has a value with a
    [doReset] of its own. *)
Definition restoring {TValue : Type} (ap : argument_parser.t TValue) : Prop :=
  Forall (fun o => overrides_doReset o = true)
         (argument_parser.mOptions ap ++ argument_parser.mPositional ap).

(** The registry and the variables after the two reset loops of
    [parse_args]. *)
Definition reset_registry {TValue : Type} (ap : argument_parser.t TValue)
    : argument_parser.t TValue :=
  argument_parser.set_mPositional
    (List.map reset_option (argument_parser.mPositional ap))
    (argument_parser.set_mOptions
       (List.map reset_option (argument_parser.mOptions ap)) ap).

Definition reset_store {TValue : Type} (ap : argument_parser.t TValue)
    (st : Store TValue) : Store TValue :=
  fold_left (fun st o => reset_cell o st)
            (argument_parser.mOptions ap ++ argument_parser.mPositional ap)%list st.

Definition reset_state {TValue : Type} (w : argument_parser.state TValue)
    : argument_parser.state TValue :=
  (reset_registry (fst w), reset_store (fst w) (snd w)).

(** The help option that [add_help_option()] declares, in the group [g]. *)
Definition default_help_option {TValue : Type} (g : option string) : Option.t TValue :=
  Option.setHelp "Print this help message and exit."
    (Option.setGroup g
       (Option.setShortName "-h"
          (Option.setLongName "--help" (Option.make Value.VoidValue)))).

(** The registry once [parse_args] has made sure that there is a help
    option. *)
Definition with_default_help {TValue : Type} (ap : argument_parser.t TValue)
    : argument_parser.t TValue :=
  if bool_decide (argument_parser.mHelpOptionNames ap = ∅)
  then
    argument_parser.set_mHelpOptionNames
      (argument_parser.mHelpOptionNames ap ∪ {["--help"]} ∪ {["-h"]})
      (argument_parser.set_mOptions
         (argument_parser.mOptions ap
            ++ [default_help_option (argument_parser.mpActiveGroup ap)])%list ap)
  else ap.

(** No required option is in an exclusive group: the declarations pass
    [verifyDefinedOptions]. *)
Definition declarations_verified {TValue : Type} (ap : argument_parser.t TValue) : Prop :=
  Forall (fun opt =>
      Option.isRequired opt
      && argument_parser.group_isExclusive (Option.getGroup opt) ap = false)
    (argument_parser.mOptions ap).

(** How [Option::setValue] ends: normally, with [InvalidChoiceError], or with
    the exception of a failed conversion. *)
Inductive setValue_outcome : Outcome unit -> Prop :=
| assigned : setValue_outcome (Ok tt)
| bad_choice (value : string) : setValue_outcome (Raise (InvalidChoiceError value))
| bad_conversion (f : ConversionFailure) : setValue_outcome (Raise (thrown f)).

(** Between [w] and [w'] the option keeps everything but the counters and the
    error flag of its value, and only its own destination variable can have
    changed. *)
Definition touches {TValue : Type} (w w' : Option.state TValue) : Prop :=
  reset_option (fst w') = reset_option (fst w)
  /\ (snd w' = snd w
      \/ exists cell x, cell_of (fst w) = Some cell /\ snd w' = <[cell := x]> (snd w)).

(** The parser with the errors [errs] appended to its result. *)
Definition with_errors (errs : list ParseError) (p : argument_parser.Parser.t)
    : argument_parser.Parser.t :=
  argument_parser.Parser.set_mResult
    {| ParseResult.ignoredArguments :=
         ParseResult.ignoredArguments (argument_parser.Parser.mResult p);
       ParseResult.errors :=
         (ParseResult.errors (argument_parser.Parser.mResult p) ++ errs)%list |} p.

(** The errors that [Parser::setValue] can record: none, or one error of the
    option [name] for a rejected value. *)
Definition rejection (name : string) (errs : list ParseError) : Prop :=
  errs = []
  \/ errs = [mkParseError name INVALID_CHOICE]
  \/ errs = [mkParseError name CONVERSION_ERROR].

(** The number of errors of kind [code] in a list of errors. *)
Definition count_errors (code : EError) (errs : list ParseError) : nat :=
  length (List.filter (fun e => bool_decide (errorCode e = code)) errs).

(** What [Option::onOptionStarted] makes of an option: a new sequence of
    arguments begins. *)
Definition started {TValue : Type} (o : Option.t TValue) : Option.t TValue :=
  Option.with_value
    {| Value.mAssignCount := Value.mAssignCount (Option.mpValue o);
       Value.mOptionAssignCount := 0;
       Value.mHasErrors := Value.mHasErrors (Option.mpValue o);
       Value.impl := Value.impl (Option.mpValue o) |} o.

(** The option after one more successful assignment. *)
Definition assigned_once {TValue : Type} (o : Option.t TValue) : Option.t TValue :=
  Option.with_value
    {| Value.mAssignCount := Value.mAssignCount (Option.mpValue o) + 1;
       Value.mOptionAssignCount := Value.mOptionAssignCount (Option.mpValue o) + 1;
       Value.mHasErrors := Value.mHasErrors (Option.mpValue o);
       Value.impl := Value.impl (Option.mpValue o) |} o.

(** Between [w] and [w'] the definitions are kept: the options differ at most
    in the counters and the error flag of their values and, when every value
    has a [doReset] of its own, the reset loops take the variables of both to
    the same contents. *)
Definition same_definitions {TValue : Type} (w w' : argument_parser.state TValue) : Prop :=
  reset_registry (fst w') = reset_registry (fst w)
  /\ (restoring (fst w) -> reset_state w' = reset_state w).


(** The option after [Value::markBadArgument]. *)
Definition marked_bad {TValue : Type} (o : Option.t TValue) : Option.t TValue :=
  Option.with_value
    {| Value.mAssignCount := Value.mAssignCount (Option.mpValue o);
       Value.mOptionAssignCount := Value.mOptionAssignCount (Option.mpValue o) + 1;
       Value.mHasErrors := true;
       Value.impl := Value.impl (Option.mpValue o) |} o.

(** The three methods of [OptionConfig] that set the counts of an option,
    and the methods of [Option] that they call. *)
Definition count_setters {TValue : Type}
    : list (Z -> M (argument_parser.OptionConfig.state TValue) unit) :=
  [argument_parser.OptionConfig.nargs; argument_parser.OptionConfig.minargs;
   argument_parser.OptionConfig.maxargs].

Definition count_methods {TValue : Type}
    : list (Z -> Option.t TValue -> Option.t TValue) :=
  [Option.setNArgs; Option.setMinArgs; Option.setMaxArgs].

(** [add_exclusive_group] or [add_group]. *)
Definition declare_group {TValue : Type} (exclusive : bool)
    : string -> M (argument_parser.t TValue) (option string) :=
  if exclusive then argument_parser.add_exclusive_group else argument_parser.add_group.

(** The options that belong to the required group named [g]. *)
Definition members_of_required_group {TValue : Type}
    (ap : argument_parser.t TValue) (g : string) : list (Option.t TValue) :=
  List.filter (fun option =>
      argument_parser.group_isRequired (Option.getGroup option) ap
      && String.eqb (argument_parser.group_getName (Option.getGroup option) ap) g)
    (argument_parser.mOptions ap).

(** The summary of the arguments in the description of an option, when
    [describeOption] returns one. *)
Definition described_arguments {TValue : Type} (o : Option.t TValue)
    (ap : argument_parser.t TValue) : option string :=
  match fst (argument_parser.describeOption o ap) with
  | Ok d => Some (ArgumentHelpResult.arguments d)
  | _ => None
  end.

(** [n] dashes in front of [s]. *)
Definition dashes (n : nat) (s : string) : string := Nat.iter n (String "-") s.

(** The parser [p'] has the errors and the free arguments of [p], possibly
    followed by more, and its cursor is not before that of [p]. *)
Definition extends (p p' : argument_parser.Parser.t) : Prop :=
  ParseResult.errors (argument_parser.Parser.mResult p)
    `prefix_of` ParseResult.errors (argument_parser.Parser.mResult p')
  /\ ParseResult.ignoredArguments (argument_parser.Parser.mResult p)
       `prefix_of` ParseResult.ignoredArguments (argument_parser.Parser.mResult p')
  /\ (argument_parser.Parser.mPosition p <= argument_parser.Parser.mPosition p')%nat.

(** A step of the parser only adds to the result. *)
Definition grows {TValue A : Type} (m : M (argument_parser.Parser.state TValue) A) : Prop :=
  forall s, extends (fst s) (fst (snd (m s))).

(** A step of the parser that does not switch between option parsing and
    the mode after [--]. *)
Definition keeps_mode {TValue A : Type} (m : M (argument_parser.Parser.state TValue) A)
    : Prop :=
  forall s, argument_parser.Parser.mIgnoreOptions (fst (snd (m s)))
            = argument_parser.Parser.mIgnoreOptions (fst s).

(** The positional that takes a free argument: the first one, from the
    cursor on, that will accept an argument. *)
Definition taking_positional {TValue : Type} (p : argument_parser.Parser.t)
    (ap : argument_parser.t TValue) : option nat :=
  (fun found => (argument_parser.Parser.mPosition p + fst found)%nat)
    <$> list_find (fun o => Option.willAcceptArgument o = true)
                  (drop (argument_parser.Parser.mPosition p)
                        (argument_parser.mPositional ap)).

(** Where a token goes that is not read as an option: the cursor moves onto
    the positional that takes it, and [Parser::setValue] sets the token on
    that positional; when no positional takes it, the token is appended to
    the ignored arguments, and the cursor is at the end of the positionals
    if it was not already beyond. *)
Definition routed {TValue : Type} (arg : string)
    : M (argument_parser.Parser.state TValue) unit :=
  fun '(p, (ap, st)) =>
    match taking_positional p ap with
    | Some pos =>
        argument_parser.Parser.setValue (argument_parser.in_mPositional pos) arg
          (argument_parser.Parser.set_mPosition pos p, (ap, st))
    | None =>
        (Ok tt,
         (argument_parser.Parser.set_mResult
            (ParseResult.add_ignored arg (argument_parser.Parser.mResult p))
            (argument_parser.Parser.set_mPosition
               (Nat.max (argument_parser.Parser.mPosition p)
                        (length (argument_parser.mPositional ap))) p),
          (ap, st)))
    end.

(** ** Concrete values and registries

    The typed values of the examples are the [long] and [std::string]
    destinations of the tests of the library; [convert_long] stands for
    [from_string<long>::convert] on unsigned decimal numerals and throws
    [std::invalid_argument] on anything else. *)

Module Examples.
Inductive Val : Type :=
| VLong (n : Z)
| VString (s : string).

Definition digit_of (c : ascii) : option Z :=
  let n := nat_of_ascii c in
  if ((48 <=? n) && (n <=? 57))%nat then Some (Z.of_nat (n - 48)) else None.

Fixpoint digits_value (acc : Z) (s : string) : option Z :=
  match s with
  | EmptyString => Some acc
  | String c s' =>
      match digit_of c with
      | Some d => digits_value (10 * acc + d) s'
      | None => None
      end
  end.

Definition convert_long (s : string) : ConversionFailure + Val :=
  match s with
  | EmptyString => inl (invalid_argument "stol")
  | _ =>
      match digits_value 0 s with
      | Some n => inr (VLong n)
      | None => inl (invalid_argument "stol")
      end
  end.

Definition convert_string (s : string) : ConversionFailure + Val := inr (VString s).

(** Three options [-a], [-b] and [-d] with their flag values, bound to the
    variables 0, 1 and 2; [-d] takes exactly one argument when
    [d_takes_one] is set. *)
Definition declare_flags {TValue : Type}
    (conv_a conv_b conv_d : Value.converter_t TValue) (ea eb ed : TValue)
    (fa fb fd : string) (d_takes_one : bool)
    : M (argument_parser.t TValue) unit :=
  let* a := argument_parser.add_argument (Value.ConvertedValue 0 conv_a ea) "-a" "" in
  argument_parser.configure a (argument_parser.OptionConfig.flagValue fa) ;;;
  let* b := argument_parser.add_argument (Value.ConvertedValue 1 conv_b eb) "-b" "" in
  argument_parser.configure b (argument_parser.OptionConfig.flagValue fb) ;;;
  let* d := argument_parser.add_argument (Value.ConvertedValue 2 conv_d ed) "-d" "" in
  let* d := argument_parser.configure d (argument_parser.OptionConfig.flagValue fd) in
  if d_takes_one
  then argument_parser.configure d (argument_parser.OptionConfig.nargs 1) ;;; ret tt
  else ret tt.

(** The registry that a builder leaves, starting from a new parser. *)
Definition built {TValue A : Type} (builder : M (argument_parser.t TValue) A)
    : argument_parser.t TValue :=
  snd (builder argument_parser.make).

(** [long v = 0;] bound to a [ConvertedValue<long>]. *)
Definition long_at (cell : nat) : Value.kind Val :=
  Value.ConvertedValue cell convert_long (VLong 0).

Definition string_at (cell : nat) : Value.kind Val :=
  Value.ConvertedValue cell convert_string (VString "").

Definition longs_at (cell : nat) : Value.kind Val :=
  Value.ConvertedVector cell convert_long.

(** [--value] (or [-v]) takes one [long]; [--skipped] is a flag. *)
Definition value_and_flag : argument_parser.t Val :=
  built (let* value := argument_parser.add_argument (long_at 0) "--value" "-v" in
         argument_parser.configure value (argument_parser.OptionConfig.nargs 1) ;;;
         argument_parser.add_argument (string_at 1) "--skipped" "").

(** [--value] takes one [long]; there is one positional, [file]. *)
Definition value_and_file : argument_parser.t Val :=
  built (let* value := argument_parser.add_argument (long_at 0) "--value" "" in
         argument_parser.configure value (argument_parser.OptionConfig.nargs 1) ;;;
         argument_parser.add_argument (string_at 1) "file" "").

(** Two flags [--on] and [--off] in the exclusive group [mode], both
    assigned, as after parsing [--on --off]. *)
Definition both_switches : argument_parser.t Val :=
  let ap :=
    built (argument_parser.add_exclusive_group "mode" ;;;
           argument_parser.add_argument (string_at 0) "--on" "" ;;;
           argument_parser.add_argument (string_at 1) "--off" "") in
  argument_parser.set_mOptions
    (List.map assigned_once (argument_parser.mOptions ap)) ap.

(** A parser that returns on a help request, with one option. *)
Definition returning : argument_parser.t Val :=
  built (modify (fun ap =>
           argument_parser.set_mConfig
             (ParserConfig.on_exit_return (argument_parser.mConfig ap)) ap) ;;;
         argument_parser.add_argument (long_at 0) "--count" "-c").

Definition strings_at (cell : nat) : Value.kind Val :=
  Value.ConvertedVector cell convert_string.

(** [--level] takes one of three words, [--name] (or [-n]) any number of
    arguments into a vector, and [-v] is a flag that is counted in a vector
    of numbers. *)
Definition choices_and_vectors : argument_parser.t Val :=
  built (let* level := argument_parser.add_argument (string_at 0) "--level" "" in
         let* level := argument_parser.configure level (argument_parser.OptionConfig.nargs 1) in
         argument_parser.configure level
           (argument_parser.OptionConfig.choices ["low"; "mid"; "high"]) ;;;
         let* names := argument_parser.add_argument (strings_at 1) "--name" "-n" in
         argument_parser.configure names (argument_parser.OptionConfig.minargs 0) ;;;
         argument_parser.add_argument (longs_at 2) "-v" "").

(** A required [--count] with one argument and a positional [file]. *)
Definition needs_input : argument_parser.t Val :=
  built (let* count := argument_parser.add_argument (long_at 0) "--count" "-c" in
         let* count := argument_parser.configure count (argument_parser.OptionConfig.nargs 1) in
         argument_parser.configure count (argument_parser.OptionConfig.required true) ;;;
         argument_parser.add_argument (string_at 1) "file" "").

(** A required option in the exclusive group [mode]. *)
Definition required_switch : argument_parser.t Val :=
  built (argument_parser.add_exclusive_group "mode" ;;;
         let* on := argument_parser.add_argument (string_at 0) "--on" "" in
         argument_parser.configure on (argument_parser.OptionConfig.required true)).

(** [--size] takes up to two numbers; its flag value is not a number. *)
Definition bad_flag : argument_parser.t Val :=
  built (let* size := argument_parser.add_argument (long_at 0) "--size" "" in
         let* size := argument_parser.configure size (argument_parser.OptionConfig.maxargs 2) in
         argument_parser.configure size (argument_parser.OptionConfig.flagValue "big")).



End Examples.

(* ===================================================================== *)
(** * Properties *)
(* ===================================================================== *)

Import argument_parser.

Local Open Scope list_scope.
Local Open Scope Z_scope.

(** ** Value::setValue *)

Section ValueFacts.
Context {TValue : Type}.
Implicit Types (st : Store TValue) (raw : string).

(** C1 (as amended).  [setValue] increments [assignCount] and
    [optionAssignCount] before it converts.  When the conversion of [raw]
    fails, the exception of the converter leaves [setValue] with both
    counters already incremented, [hasErrors] as it was and the destination
    untouched.  When it succeeds, both counters are incremented by one, a
    scalar destination is overwritten and a vector destination gets the
    converted value appended. *)
Theorem C1_setValue_counts_then_converts :
  forall (a o : Z) (h : bool) st raw,
    (forall cell conv empty,
        Value.setValue raw (Value.mk a o h (Value.ConvertedValue cell conv empty), st)
        = match conv raw with
        | inl e =>
            (Raise (thrown e),
             (Value.mk (a + 1) (o + 1) h (Value.ConvertedValue cell conv empty), st))
          | inr x =>
              (Ok tt, (Value.mk (a + 1) (o + 1) h (Value.ConvertedValue cell conv empty),
                       <[cell := Scalar x]> st))
          end)
    /\ (forall cell conv,
        Value.setValue raw (Value.mk a o h (Value.ConvertedVector cell conv), st)
        = match conv raw with
        | inl e =>
            (Raise (thrown e),
             (Value.mk (a + 1) (o + 1) h (Value.ConvertedVector cell conv), st))
          | inr x =>
              (Ok tt, (Value.mk (a + 1) (o + 1) h (Value.ConvertedVector cell conv),
                       <[cell := Vector (elements_of (st !! cell) ++ [x])]> st))
          end)
    /\ Value.setValue raw (Value.mk a o h Value.VoidValue, st)
       = (Ok tt, (Value.mk (a + 1) (o + 1) h Value.VoidValue, st)).
Proof.
  intros a o h st raw. split; [| split].
  - intros cell conv empty. unfold Value.setValue, bind. cbn.
    destruct (conv raw); reflexivity.
  - intros cell conv. unfold Value.setValue, bind. cbn.
    destruct (conv raw); reflexivity.
  - reflexivity.
Qed.
End ValueFacts.

(** C1, as the specification states it, fails: on the numeral ["wrong"] the
    conversion to [long] fails, and [setValue] has by then incremented both
    counters and does not mark [hasErrors]. *)
Lemma C1_setValue_failure_counterexample :
  ~ (forall (v : Value.t Examples.Val) (st : Store Examples.Val) (raw : string)
            cell conv empty e,
        Value.impl v = Value.ConvertedValue cell conv empty ->
        conv raw = inl e ->
        let '(outcome, (v', _)) := Value.setValue raw (v, st) in
    outcome = Raise (thrown e)
    /\ Value.mAssignCount v' = Value.mAssignCount v
        /\ Value.mOptionAssignCount v' = Value.mOptionAssignCount v
        /\ Value.mHasErrors v' = true).
Proof.
  intros H.
  specialize (H (Value.make (Examples.long_at 0)) ∅ "wrong"
                0%nat Examples.convert_long (Examples.VLong 0)
                (invalid_argument "stol") eq_refl eq_refl).
  cbn in H. destruct H as (_ & H & _). discriminate H.
Qed.

(** ** The builder *)

Section BuilderFacts.
Context {TValue : Type}.
Implicit Types (ap : argument_parser.t TValue) (o : Option.t TValue).

Lemma back_of_push {A} (l : list A) (x : A) :
  (length (l ++ [x]) - 1)%nat = length l.
Proof. rewrite length_app. cbn. lia. Qed.

Lemma push_then_store_back {A} (l : list A) (x y : A) :
  <[length l := y]> (l ++ [x]) = l ++ [y].
Proof.
  replace (length l) with (length l + 0)%nat by lia.
  rewrite insert_app_r. reflexivity.
Qed.

(** C9.  A positional argument gets exactly one required argument, unless
    its destination is a vector, in which case it gets zero or more; and
    when it is declared while an exclusive group is active, [tryAddArgument]
    returns normally and leaves the option outside the group. *)
Theorem C9_positional_defaults :
  forall ap (newOption : Option.t TValue) (names : list string),
    let names' := List.filter (fun name => negb (String.eqb name "")) names in
    names' <> [] ->
    existsb (string_exists isspace) names' = false ->
    isPositional names' = true ->
    exists option,
      tryAddArgument newOption names ap
      = (Ok (OptionConfig.mk in_mPositional (length (mPositional ap)) false),
         set_mPositional (mPositional ap ++ [option]) ap)
      /\ (Option.hasVectorValue newOption = false ->
          Option.mMinArgs option = 1 /\ Option.mMaxArgs option = 1)
      /\ (Option.hasVectorValue newOption = true ->
          Option.mMinArgs option = 0 /\ Option.mMaxArgs option = -1
          /\ forall v, Option.willAcceptArgument (Option.with_value v option) = true)
      /\ (group_isExclusive (mpActiveGroup ap) ap = true ->
          Option.mpGroup option = Option.mpGroup newOption)
      /\ (mpActiveGroup ap <> None ->
          group_isExclusive (mpActiveGroup ap) ap = false ->
          Option.mpGroup option = mpActiveGroup ap).
Proof.
  intros ap newOption names names' Hnames Hspace Hpos.
  unfold tryAddArgument. fold names'.
  rewrite bool_decide_eq_false_2 by exact Hnames.
  rewrite Hspace, Hpos.
  cbn [mPositional set_mPositional mpActiveGroup deref assign].
  rewrite back_of_push, list_lookup_total_middle by reflexivity.
  rewrite push_then_store_back.
  change (group_isExclusive (mpActiveGroup ap)
            (set_mPositional (mPositional ap ++ [newOption]) ap))
    with (group_isExclusive (mpActiveGroup ap) ap).
  eexists. split; [reflexivity |].
  destruct newOption as [v act sn ln mv hp fv ch grp mn mx rq vec].
  unfold Option.hasVectorValue. cbn [Option.mIsVectorValue Option.setLongName].
  split; [| split; [| split]].
  - intros ->. destruct (mpActiveGroup ap); [destruct (group_isExclusive _ _) |];
      split; reflexivity.
  - intros ->. destruct (mpActiveGroup ap); [destruct (group_isExclusive _ _) |];
      (split; [| split]); try reflexivity; intros w; reflexivity.
  - intros Hex. destruct (mpActiveGroup ap) as [g |].
    + rewrite Hex. destruct vec; reflexivity.
    + destruct vec; reflexivity.
  - intros Hact Hex. destruct (mpActiveGroup ap) as [g |]; [| congruence].
    rewrite Hex. destruct vec; reflexivity.
Qed.
End BuilderFacts.

(** ** std::map as a list with increasing keys *)

Section StdMapFacts.
Context {V : Type}.
Implicit Types (m : list (string * V)) (key : string).

Lemma compare_lt_trans (a b c : string) :
  String.compare a b = Lt -> String.compare b c = Lt -> String.compare a c = Lt.
Proof.
  intros Hab Hbc.
  apply OrderedTypeEx.String_as_OT.cmp_lt.
  apply OrderedTypeEx.String_as_OT.lt_trans with b;
    apply OrderedTypeEx.String_as_OT.cmp_lt; assumption.
Qed.

Lemma compare_lt_neq (a b : string) : String.compare a b = Lt -> a <> b.
Proof.
  intros Hlt ->. assert (String.compare b b = Eq) as E
    by (apply OrderedTypeEx.String_as_OT.cmp_eq; reflexivity).
  congruence.
Qed.

Lemma compare_gt_lt (a b : string) : String.compare a b = Gt -> String.compare b a = Lt.
Proof. intros H. rewrite String.compare_antisym, H. reflexivity. Qed.

Lemma keys_increasing_cons_inv k (v : V) m :
  keys_increasing ((k, v) :: m) ->
  keys_increasing m /\ Forall (fun b => String.compare k b = Lt) (List.map fst m).
Proof.
  unfold keys_increasing. cbn. intros H.
  apply StronglySorted_inv in H. destruct H as [H1 H2].
  split; [exact H1 |]. apply List.Forall_forall. intros x Hx.
  eapply (proj1 (List.Forall_forall _ _)) in H2; eauto.
Qed.

Lemma keys_increasing_cons k (v : V) m :
  keys_increasing m ->
  Forall (fun b => String.compare k b = Lt) (List.map fst m) ->
  keys_increasing ((k, v) :: m).
Proof.
  unfold keys_increasing. cbn. intros H1 H2.
  constructor; [exact H1 |].
  apply List.Forall_forall. intros x Hx.
  eapply (proj1 (Forall_forall _ _)) in H2; [exact H2 |].
  apply list_elem_of_In. exact Hx.
Qed.

Lemma map_find_above key m :
  Forall (fun b => String.compare key b = Lt) (List.map fst m) ->
  map_find key m = None.
Proof.
  induction m as [| [k v] m IH]; cbn; [reflexivity |].
  intros H. apply Forall_cons in H. destruct H as [Hk Hm].
  destruct (String.eqb_spec key k) as [-> | _].
  - exfalso. eapply compare_lt_neq; eauto.
  - apply IH. exact Hm.
Qed.

Lemma keys_of_map_update key init f m :
  forall b, b ∈ List.map fst (map_update key init f m) ->
            b = key \/ b ∈ List.map fst m.
Proof.
  induction m as [| [k v] m IH]; cbn; intros b Hb.
  - apply list_elem_of_singleton in Hb. left. exact Hb.
  - destruct (String.compare key k) eqn:E; cbn in Hb.
    + right. exact Hb.
    + apply elem_of_cons in Hb. destruct Hb as [-> | Hb]; [left; reflexivity | right; exact Hb].
    + apply elem_of_cons in Hb. destruct Hb as [-> | Hb].
      * right. left.
      * destruct (IH b Hb) as [-> | Hin]; [left; reflexivity | right; right; exact Hin].
Qed.

Lemma map_update_increasing key init f m :
  keys_increasing m -> keys_increasing (map_update key init f m).
Proof.
  induction m as [| [k v] m IH]; cbn; intros Hs.
  - apply keys_increasing_cons; [exact Hs | constructor].
  - destruct (keys_increasing_cons_inv _ _ _ Hs) as [Hm Hk].
    destruct (String.compare key k) eqn:E.
    + apply keys_increasing_cons; assumption.
    + apply keys_increasing_cons; [exact Hs |].
      cbn. constructor; [exact E |].
      eapply Forall_impl; [exact Hk |]. cbn. intros b Hb.
      eapply compare_lt_trans; eauto.
    + apply keys_increasing_cons; [apply IH; exact Hm |].
      apply Forall_forall. intros b Hb.
      destruct (keys_of_map_update _ _ _ _ _ Hb) as [-> | Hin].
      * apply compare_gt_lt. exact E.
      * eapply (proj1 (Forall_forall _ _)) in Hk; eauto.
Qed.

Lemma map_find_update key init f m key' :
  keys_increasing m ->
  map_find key' (map_update key init f m)
  = if String.eqb key' key then Some (f (default init (map_find key m)))
    else map_find key' m.
Proof.
  induction m as [| [k v] m IH]; cbn; intros Hs.
  - destruct (String.eqb key' key); reflexivity.
  - destruct (keys_increasing_cons_inv _ _ _ Hs) as [Hm Hk].
    destruct (String.compare key k) eqn:E; cbn.
    + apply String.compare_eq_iff in E. subst k.
      rewrite String.eqb_refl. cbn.
      destruct (String.eqb key' key); reflexivity.
    + assert (key <> k) as Hne by (eapply compare_lt_neq; eauto).
      destruct (String.eqb_spec key k) as [? | _]; [contradiction |].
      rewrite (map_find_above key m).
      * destruct (String.eqb key' key); reflexivity.
      * eapply Forall_impl; [exact Hk |]. cbn. intros b Hb.
        eapply compare_lt_trans; eauto.
    + assert (k <> key) as Hne by (eapply compare_lt_neq, compare_gt_lt; eauto).
      rewrite IH by exact Hm.
      destruct (String.eqb_spec key k) as [? | _]; [congruence |].
      destruct (String.eqb_spec key' k) as [-> | Hk'].
      * destruct (String.eqb_spec k key) as [? | _]; [contradiction |]. reflexivity.
      * reflexivity.
Qed.

Lemma map_find_split key m v :
  keys_increasing m ->
  map_find key m = Some v ->
  exists before after,
    m = before ++ (key, v) :: after
    /\ (key ∉ List.map fst before)
    /\ (key ∉ List.map fst after).
Proof.
  induction m as [| [k w] m IH]; cbn; intros Hs Hfind; [discriminate |].
  destruct (keys_increasing_cons_inv _ _ _ Hs) as [Hm Hk].
  destruct (String.eqb_spec key k) as [-> | Hne].
  - injection Hfind as ->. exists [], m. split; [reflexivity |].
    split; [apply not_elem_of_nil |].
    intros Hin. eapply (proj1 (Forall_forall _ _)) in Hk; [| exact Hin].
    eapply compare_lt_neq; eauto.
  - destruct (IH Hm Hfind) as (before & after & -> & Hb & Ha).
    exists ((k, w) :: before), after. split; [reflexivity |].
    split; [| exact Ha]. cbn. intros Hin.
    apply elem_of_cons in Hin. destruct Hin as [-> | Hin]; [congruence | contradiction].
Qed.
End StdMapFacts.

(** ** The validation pass *)

Section ValidationFacts.
Context {TValue : Type}.
Implicit Types (ap : argument_parser.t TValue) (result : ParseResult.t).

(** The first loop of [reportExclusiveViolations], from any intermediate
    map: the entry of a group collects the names of its assigned members in
    the order of the options. *)
Lemma exclusive_counts_fold ap (l : list (Option.t TValue)) :
  forall counts,
    keys_increasing counts ->
    let counts' :=
      fold_left (fun counts option =>
        let pGroup := Option.getGroup option in
        if group_isExclusive pGroup ap && Option.wasAssigned option
        then map_update (group_getName pGroup ap) []
               (fun names => names ++ [Option.getName option]) counts
        else counts) l counts in
    keys_increasing counts'
    /\ forall g,
        map_find g counts'
        = match List.map Option.getName
                  (List.filter (fun option =>
                     group_isExclusive (Option.getGroup option) ap
                     && Option.wasAssigned option
                     && String.eqb (group_getName (Option.getGroup option) ap) g) l) with
          | [] => map_find g counts
          | ns => Some (default [] (map_find g counts) ++ ns)
          end.
Proof.
  induction l as [| option l IH]; intros counts Hs; cbn.
  - split; [exact Hs | reflexivity].
  - destruct (group_isExclusive (Option.getGroup option) ap && Option.wasAssigned option)
      eqn:Hcond; cbn.
    + specialize (IH _ (map_update_increasing
                          (group_getName (Option.getGroup option) ap) []
                          (fun names => names ++ [Option.getName option]) counts Hs)).
      cbn in IH. destruct IH as [IHs IHf]. split; [exact IHs |].
      intros g. rewrite IHf. rewrite map_find_update by exact Hs.
      rewrite (String.eqb_sym g).
      destruct (String.eqb (group_getName (Option.getGroup option) ap) g) eqn:Hg; cbn.
      * apply String.eqb_eq in Hg. subst g.
        destruct (List.map Option.getName _) as [| n ns]; [reflexivity |].
        cbn. rewrite <- app_assoc. reflexivity.
      * reflexivity.
    + specialize (IH _ Hs). cbn in IH. exact IH.
Qed.

Lemma exclusive_counts_increasing ap : keys_increasing (exclusive_counts ap).
Proof.
  unfold exclusive_counts.
  apply (exclusive_counts_fold ap (mOptions ap) []). constructor.
Qed.

Lemma exclusive_counts_find ap g :
  map_find g (exclusive_counts ap)
  = match List.map Option.getName (assigned_in_exclusive_group ap g) with
    | [] => None
    | ns => Some ns
    end.
Proof.
  unfold exclusive_counts, assigned_in_exclusive_group.
  destruct (exclusive_counts_fold ap (mOptions ap) []) as [_ H]; [constructor |].
  rewrite H. reflexivity.
Qed.

(** The second loop of [reportExclusiveViolations] appends what each entry
    emits, in the order of the map. *)
Lemma exclusive_violations_fold (counts : list (string * list string)) :
  forall result,
    fold_left (fun result c =>
      if (1 <? length (snd c))%nat
      then ParseResult.add_error (mkParseError (hd "" (snd c)) EXCLUSIVE_OPTION) result
      else result) counts result
    = {| ParseResult.ignoredArguments := ParseResult.ignoredArguments result;
         ParseResult.errors :=
           ParseResult.errors result ++ concat (List.map exclusive_violation counts) |}.
Proof.
  induction counts as [| c counts IH]; intros result; cbn [fold_left List.map concat].
  - rewrite app_nil_r. destruct result; reflexivity.
  - unfold exclusive_violation at 1.
    destruct (1 <? length (snd c))%nat; rewrite IH.
    + unfold ParseResult.add_error.
      cbn [ParseResult.errors ParseResult.ignoredArguments].
      rewrite <- app_assoc. reflexivity.
    + reflexivity.
Qed.

(** C6.  When two or more options of the exclusive group [g] were assigned,
    [reportExclusiveViolations] appends exactly one error for the entry of
    [g] in [counts]: an EXCLUSIVE_OPTION error that names the first-declared
    assigned member.  The errors around it come from the entries of the
    other groups. *)
Theorem C6_exclusive_group_reported_once :
  forall ap result (g : string),
    (2 <= length (assigned_in_exclusive_group ap g))%nat ->
    exists first before after,
      head (assigned_in_exclusive_group ap g) = Some first
      /\ exclusive_counts ap
         = before
           ++ (g, List.map Option.getName (assigned_in_exclusive_group ap g)) :: after
    /\ (g ∉ List.map fst before)
    /\ (g ∉ List.map fst after)
      /\ ParseResult.errors (reportExclusiveViolations ap result)
         = ParseResult.errors result
           ++ concat (List.map exclusive_violation before)
           ++ [mkParseError (Option.getName first) EXCLUSIVE_OPTION]
           ++ concat (List.map exclusive_violation after)
      /\ ParseResult.ignoredArguments (reportExclusiveViolations ap result)
         = ParseResult.ignoredArguments result.
Proof.
  intros ap result g Hlen.
  pose proof (exclusive_counts_find ap g) as Hfind.
  destruct (assigned_in_exclusive_group ap g) as [| first [| second rest]] eqn:Hmem;
    cbn in Hlen; try lia.
  cbn [List.map] in Hfind.
  destruct (map_find_split _ _ _ (exclusive_counts_increasing ap) Hfind)
    as (before & after & Hcounts & Hb & Ha).
  exists first, before, after.
  split; [reflexivity |]. split; [exact Hcounts |].
  split; [exact Hb |]. split; [exact Ha |].
  unfold reportExclusiveViolations.
  rewrite exclusive_violations_fold.
  cbn [ParseResult.errors ParseResult.ignoredArguments].
  split; [| reflexivity].
  rewrite Hcounts, map_app, concat_app. reflexivity.
Qed.
End ValidationFacts.

(** ** parse_args: the steps before the tokens are parsed *)

Section PrepareFacts.
Context {TValue : Type}.
Implicit Types (ap : argument_parser.t TValue) (st : Store TValue)
  (o : Option.t TValue).

Lemma tryAddArgument_option ap (newOption : Option.t TValue) (names : list string) :
  let names' := List.filter (fun name => negb (String.eqb name "")) names in
  names' <> [] ->
  existsb (string_exists isspace) names' = false ->
  isPositional names' = false ->
  isOption names' = true ->
  tryAddArgument newOption names ap
  = match trySetNames names' newOption with
    | (Ok _, option) =>
        (Ok (OptionConfig.mk in_mOptions (length (mOptions ap)) false),
         set_mOptions
           (mOptions ap
              ++ [match mpActiveGroup ap with
                  | Some _ => Option.setGroup (mpActiveGroup ap) option
                  | None => option
                  end]) ap)
    | (Raise e, option) => (Raise e, set_mOptions (mOptions ap ++ [option]) ap)
    | (Exit n, option) => (Exit n, set_mOptions (mOptions ap ++ [option]) ap)
    end.
Proof.
  intros names' Hnames Hspace Hpos Hopt.
  unfold tryAddArgument. fold names'.
  rewrite bool_decide_eq_false_2 by exact Hnames.
  rewrite Hspace, Hpos, Hopt.
  cbn [mOptions set_mOptions mpActiveGroup deref assign].
  rewrite back_of_push, list_lookup_total_middle by reflexivity.
  destruct (trySetNames names' newOption) as [[[] | e | n] option];
    rewrite push_then_store_back; reflexivity.
Qed.

Lemma add_default_help_option ap :
  exists c,
    add_help_option "--help" "-h" ap
    = (Ok c,
       set_mHelpOptionNames (mHelpOptionNames ap ∪ {["--help"]} ∪ {["-h"]})
         (set_mOptions (mOptions ap ++ [default_help_option (mpActiveGroup ap)]) ap)).
Proof.
  eexists. unfold add_help_option.
  change (negb ("--help" =? "")%string && negb (has_dash "--help")
          || negb ("-h" =? "")%string && negb (has_dash "-h")) with false.
  cbv iota. unfold bind at 1.
  rewrite tryAddArgument_option by (vm_compute; congruence).
  change (List.filter _ ["--help"; "-h"]) with ["--help"; "-h"].
  change (trySetNames ["--help"; "-h"] (Option.make Value.VoidValue))
    with (Ok tt, Option.setShortName "-h"
                   (Option.setLongName "--help" (Option.make (TValue := TValue) Value.VoidValue))).
  cbv iota beta.
  unfold bind, configure, OptionConfig.help, OptionConfig.on_option, modify, ret.
  cbn [OptionConfig.mOptions OptionConfig.mIndex deref assign mOptions set_mOptions
       negb String.eqb Ascii.eqb Bool.eqb mHelpOptionNames set_mHelpOptionNames].
  rewrite list_lookup_total_middle by reflexivity.
  rewrite push_then_store_back.
  destruct (mpActiveGroup ap); reflexivity.
Qed.

Lemma install_default_help_spec ap st :
  install_default_help (ap, st) = (Ok tt, (with_default_help ap, st)).
Proof.
  unfold install_default_help, with_default_help.
  destruct (bool_decide (mHelpOptionNames ap = ∅)); [| reflexivity].
  destruct (add_default_help_option ap) as [c Hc].
  unfold bind, on_registry, zoom. cbn [fst]. rewrite Hc. reflexivity.
Qed.



(** One iteration of a reset loop. *)
Lemma resetValue_at ap st (r : option_ref) :
  on_option r Option.resetValue (ap, st)
  = (Ok tt, (assign r (reset_option (deref r ap)) ap, reset_cell (deref r ap) st)).
Proof.
  unfold on_option, zoom, Option.resetValue, Option.on_value, zoom, Value.reset, bind,
    Value.on_this, Value.doReset, reset_option, reset_cell.
  cbn [Value.impl Value.make Option.mpValue].
  destruct (Value.impl (Option.mpValue (deref r ap))) as [| | | cell set [content |]];
    reflexivity.
Qed.

Lemma reset_loop_mOptions (suf : list (Option.t TValue)) :
  forall pre ap st,
    mOptions ap = pre ++ suf ->
    for_each (seq (length pre) (length suf))
             (fun i => on_option (in_mOptions i) Option.resetValue) (ap, st)
    = (Ok tt, (set_mOptions (pre ++ List.map reset_option suf) ap,
               fold_left (fun st o => reset_cell o st) suf st)).
Proof.
  induction suf as [| o suf IH]; intros pre ap st Hap.
  - cbn. rewrite <- Hap. destruct ap; reflexivity.
  - cbn [length seq for_each fold_left List.map]. unfold bind.
    rewrite resetValue_at. cbn [deref assign].
    rewrite Hap, list_lookup_total_middle by reflexivity.
    replace (<[length pre := reset_option o]> (pre ++ o :: suf))
      with ((pre ++ [reset_option o]) ++ suf).
    2:{ rewrite <- app_assoc. cbn.
        replace (length pre) with (length pre + 0)%nat at 1 by lia.
        rewrite insert_app_r. reflexivity. }
    replace (S (length pre)) with (length (pre ++ [reset_option o]))
      by (rewrite length_app; cbn; lia).
    rewrite IH by reflexivity.
    rewrite <- app_assoc. reflexivity.
Qed.

Lemma reset_loop_mPositional (suf : list (Option.t TValue)) :
  forall pre ap st,
    mPositional ap = pre ++ suf ->
    for_each (seq (length pre) (length suf))
             (fun i => on_option (in_mPositional i) Option.resetValue) (ap, st)
    = (Ok tt, (set_mPositional (pre ++ List.map reset_option suf) ap,
               fold_left (fun st o => reset_cell o st) suf st)).
Proof.
  induction suf as [| o suf IH]; intros pre ap st Hap.
  - cbn. rewrite <- Hap. destruct ap; reflexivity.
  - cbn [length seq for_each fold_left List.map]. unfold bind.
    rewrite resetValue_at. cbn [deref assign].
    rewrite Hap, list_lookup_total_middle by reflexivity.
    replace (<[length pre := reset_option o]> (pre ++ o :: suf))
      with ((pre ++ [reset_option o]) ++ suf).
    2:{ rewrite <- app_assoc. cbn.
        replace (length pre) with (length pre + 0)%nat at 1 by lia.
        rewrite insert_app_r. reflexivity. }
    replace (S (length pre)) with (length (pre ++ [reset_option o]))
      by (rewrite length_app; cbn; lia).
    rewrite IH by reflexivity.
    rewrite <- app_assoc. reflexivity.
Qed.

Lemma resetValues_spec ap st :
  resetValues (ap, st) = (Ok tt, reset_state (ap, st)).
Proof.
  unfold resetValues, bind, reset_state, reset_registry, reset_store.
  pose proof (reset_loop_mOptions (mOptions ap) [] ap st eq_refl) as Hopts.
  change (length []) with 0%nat in Hopts. rewrite Hopts. clear Hopts.
  cbn [app mPositional set_mOptions fst snd].
  pose proof (reset_loop_mPositional (mPositional ap) []
                (set_mOptions (List.map reset_option (mOptions ap)) ap)
                (fold_left (fun st o => reset_cell o st) (mOptions ap) st) eq_refl) as Hpos.
  change (length []) with 0%nat in Hpos.
  cbn [app mPositional set_mOptions] in Hpos. rewrite Hpos.
  rewrite fold_left_app. reflexivity.
Qed.

Lemma verifyDefinedOptions_state ap : snd (verifyDefinedOptions ap) = ap.
Proof.
  unfold verifyDefinedOptions.
  induction (mOptions ap) as [| opt l IH]; [reflexivity |].
  cbn [for_each]. unfold bind.
  destruct (Option.isRequired opt); [destruct (group_isExclusive _ _) |];
    try reflexivity; exact IH.
Qed.

Lemma verifyDefinedOptions_ok ap :
  declarations_verified ap -> verifyDefinedOptions ap = (Ok tt, ap).
Proof.
  unfold declarations_verified, verifyDefinedOptions.
  induction (mOptions ap) as [| opt l IH]; intros H; [reflexivity |].
  apply Forall_cons in H. destruct H as [Hopt Hl].
  cbn [for_each]. unfold bind.
  destruct (Option.isRequired opt); cbn in Hopt.
  - rewrite Hopt. cbn. apply IH. exact Hl.
  - cbn. apply IH. exact Hl.
Qed.

Lemma with_default_help_verified ap :
  declarations_verified ap -> declarations_verified (with_default_help ap).
Proof.
  unfold declarations_verified, with_default_help. intros H.
  case_bool_decide; [| exact H].
  cbn [mOptions set_mOptions set_mHelpOptionNames].
  apply Forall_app. split; [exact H |].
  constructor; [reflexivity | constructor].
Qed.
Lemma prepare_spec {A} (k : M (argument_parser.state TValue) A) ap st :
  declarations_verified ap ->
  (install_default_help ;;; on_registry verifyDefinedOptions ;;; resetValues ;;; k) (ap, st)
  = k (reset_state (with_default_help ap, st)).
Proof.
  intros Hok. unfold bind. rewrite install_default_help_spec.
  unfold on_registry, zoom. cbn [fst].
  rewrite verifyDefinedOptions_ok by (apply with_default_help_verified; exact Hok).
  rewrite resetValues_spec. reflexivity.
Qed.

Lemma reset_option_unassigned o :
  Option.wasAssigned (reset_option o) = false
  /\ Option.wasAssignedThroughThisOption (reset_option o) = false.
Proof. split; reflexivity. Qed.

(** C7.  When an argument is, verbatim, one of the recognized help-option
    names (those declared, or [--help] and [-h] when none was declared) and
    the declarations are consistent, [parse_args] ends in [exit_parser] at the
    first such argument, in the state that the reset loops left: the parser
    is never run and no validation takes place, so no option or positional
    was assigned.  Under the return exit policy the result has no free
    arguments and HELP_REQUESTED as its only error. *)
Theorem C7_help_short_circuits :
  forall ap st (args : list string) (a : string),
    a ∈ args ->
    a ∈ mHelpOptionNames (with_default_help ap) ->
    declarations_verified ap ->
    exists (i : nat) (arg : string),
      args !! i = Some arg
      /\ arg ∈ mHelpOptionNames (with_default_help ap)
      /\ (forall j y, args !! j = Some y -> (j < i)%nat ->
                      y ∉ mHelpOptionNames (with_default_help ap))
      /\ parse_args args (ap, st)
         = exit_parser arg HELP_REQUESTED (reset_state (with_default_help ap, st))
      /\ Forall (fun o => Option.wasAssigned o = false
                          /\ Option.wasAssignedThroughThisOption o = false)
                (mOptions (fst (reset_state (with_default_help ap, st)))
                 ++ mPositional (fst (reset_state (with_default_help ap, st))))
      /\ (ParserConfig.exitMode (mConfig ap) = EXIT_RETURN ->
          parse_args args (ap, st)
          = (Ok {| ParseResult.ignoredArguments := [];
                   ParseResult.errors := [mkParseError arg HELP_REQUESTED] |},
             reset_state (with_default_help ap, st))).
Proof.
  intros ap st args a Hin Hhelp Hok.
  set (ap1 := with_default_help ap) in *.
  assert (mHelpOptionNames (reset_registry ap1) = mHelpOptionNames ap1) as Hnames
    by reflexivity.
  destruct (list_find_elem_of (fun arg => arg ∈ mHelpOptionNames ap1) args a Hin Hhelp)
    as [[i arg] Hfind].
  pose proof Hfind as Hspec. apply list_find_Some in Hspec.
  destruct Hspec as (Hi & Harg & Hfirst).
  assert (parse_args args (ap, st)
          = exit_parser arg HELP_REQUESTED (reset_state (ap1, st))) as Hrun.
  { unfold parse_args. rewrite prepare_spec by exact Hok. fold ap1.
    unfold parse_prepared, reset_state. cbn [fst snd].
    unfold find_help_request. rewrite Hnames, Hfind. cbn [fmap option_fmap option_map snd].
    unfold generate_help, bind, ret. reflexivity. }
  exists i, arg. split; [exact Hi |]. split; [exact Harg |].
  split; [exact Hfirst |]. split; [exact Hrun |]. split.
  - unfold reset_state, reset_registry. cbn [fst mOptions mPositional set_mOptions set_mPositional].
    apply Forall_app. split; apply Forall_fmap, Forall_true; intros o;
      apply reset_option_unassigned.
  - intros Hmode. rewrite Hrun. unfold exit_parser, reset_state. cbn [fst snd].
    assert (mConfig (reset_registry ap1) = mConfig ap) as ->.
    { unfold ap1, with_default_help. case_bool_decide; reflexivity. }
    rewrite Hmode. reflexivity.
Qed.
End PrepareFacts.

(** ** The tokenizing parser *)

Section ParserFacts.
Context {TValue : Type}.
Implicit Types (p : Parser.t) (ap : argument_parser.t TValue) (st : Store TValue)
  (o : Option.t TValue) (s : Parser.state TValue) (r : option_ref).

(** *** What a call of [Option::setValue] can do *)

Lemma Value_setValue_cases (value : string) (v : Value.t TValue) st :
  exists res v' st',
    Value.setValue value (v, st) = (res, (v', st'))
    /\ setValue_outcome res
    /\ Value.impl v' = Value.impl v
    /\ Value.mOptionAssignCount v' = Value.mOptionAssignCount v + 1
    /\ Value.mAssignCount v' = Value.mAssignCount v + 1
    /\ (st' = st
        \/ exists cell x,
             match Value.impl v with
             | Value.VoidValue => None
             | Value.ConvertedValue c _ _ => Some c
             | Value.ConvertedVector c _ => Some c
             | Value.UserValue c _ _ => Some c
             end = Some cell
             /\ st' = <[cell := x]> st).
Proof.
  destruct v as [a c h k].
  unfold Value.setValue, bind, Value.on_this, Value.doSetValue.
  cbn [Value.impl Value.incAssignCount Value.incOptionAssignCount
       Value.mAssignCount Value.mOptionAssignCount Value.mHasErrors].
  destruct k as [| cell conv empty | cell conv | cell set reset].
  - do 3 eexists. split; [reflexivity |]. split; [constructor |].
    do 3 (split; [reflexivity |]). left; reflexivity.
  - destruct (conv value) as [f | x]; do 3 eexists; (split; [reflexivity |]);
      (split; [constructor |]); do 3 (split; [reflexivity |]).
    + left; reflexivity.
    + right. eauto.
  - destruct (conv value) as [f | x]; do 3 eexists; (split; [reflexivity |]);
      (split; [constructor |]); do 3 (split; [reflexivity |]).
    + left; reflexivity.
    + right. eauto.
  - destruct (set value (st !! cell)) as [f | x]; do 3 eexists; (split; [reflexivity |]);
      (split; [constructor |]); do 3 (split; [reflexivity |]).
    + left; reflexivity.
    + right. eauto.
Qed.

Lemma Option_setValue_cases (value : string) o st :
  exists res o' st',
    Option.setValue value (o, st) = (res, (o', st'))
    /\ setValue_outcome res
    /\ touches (o, st) (o', st')
    /\ Value.mOptionAssignCount (Option.mpValue o)
       <= Value.mOptionAssignCount (Option.mpValue o').
Proof.
  unfold Option.setValue.
  destruct (negb (bool_decide (Option.mChoices o = []))
            && forallb (fun v => negb (String.eqb v value)) (Option.mChoices o)).
  - do 3 eexists. split; [reflexivity |]. split; [constructor |].
    split; [split; [reflexivity | left; reflexivity] |].
    cbn. lia.
  - assert (forall newValue,
               exists res o' st',
                 Option.on_value (Value.setValue newValue) (o, st) = (res, (o', st'))
                 /\ setValue_outcome res /\ touches (o, st) (o', st')
                 /\ Value.mOptionAssignCount (Option.mpValue o)
                    <= Value.mOptionAssignCount (Option.mpValue o')) as Hset.
    { intros newValue.
      destruct (Value_setValue_cases newValue (Option.mpValue o) st)
        as (res & v' & st' & Hrun & Hres & Himpl & Hcount & _ & Hst).
      exists res, (Option.with_value v' o), st'.
      unfold Option.on_value, zoom. rewrite Hrun.
      split; [reflexivity |]. split; [exact Hres |]. split; [split |].
      - unfold reset_option. cbn [fst Option.with_value Option.mpValue]. rewrite Himpl.
        destruct o; reflexivity.
      - exact Hst.
      - cbn [Option.with_value Option.mpValue]. lia. }
    destruct (Option.mpAssignAction o) as [pAction |]; [| apply Hset].
    destruct (pAction value) as [newValue |]; [apply Hset |].
    do 3 eexists. split; [reflexivity |]. split; [constructor |].
    split; [split; [reflexivity | left; reflexivity] |]. lia.
Qed.

(** *** Resetting absorbs what the parser does *)

Lemma reset_cell_of_reset_option o o' :
  reset_option o' = reset_option o -> reset_cell o' = reset_cell o.
Proof.
  intros H. assert (Value.impl (Option.mpValue o') = Value.impl (Option.mpValue o)) as Himpl.
  { change (Value.impl (Option.mpValue (reset_option o'))
            = Value.impl (Option.mpValue (reset_option o))).
    rewrite H. reflexivity. }
  unfold reset_cell. rewrite Himpl. reflexivity.
Qed.

Lemma reset_cells_fmap (l : list (Option.t TValue)) :
  forall st,
    fold_left (fun st o => reset_cell o st) (List.map reset_option l) st
    = fold_left (fun st o => reset_cell o st) l st.
Proof.
  induction l as [| o l IH]; intros st; [reflexivity |].
  cbn [List.map fold_left]. rewrite IH. reflexivity.
Qed.

Lemma reset_cells_absorb (l : list (Option.t TValue)) :
  forall st cell x o,
    o ∈ l -> cell_of o = Some cell -> overrides_doReset o = true ->
    fold_left (fun st o => reset_cell o st) l (<[cell := x]> st)
    = fold_left (fun st o => reset_cell o st) l st.
Proof.
  induction l as [| o0 l IH]; intros st cell x o Hin Hcell Hown.
  - apply elem_of_nil in Hin. contradiction.
  - cbn [fold_left].
    destruct (decide (cell_of o0 = Some cell /\ overrides_doReset o0 = true))
      as [[Hsame Hown0] | Hother].
    + f_equal. unfold reset_cell, cell_of, overrides_doReset in *.
      destruct (Value.impl (Option.mpValue o0)) as [| c ? ? | c ? | c ? [content |]];
        try discriminate; injection Hsame as ->; apply insert_insert_eq.
    + apply elem_of_cons in Hin. destruct Hin as [-> | Hin]; [tauto |].
      rewrite <- (IH (reset_cell o0 st) cell x o Hin Hcell Hown). f_equal.
      unfold reset_cell, cell_of, overrides_doReset in *.
      destruct (Value.impl (Option.mpValue o0)) as [| c ? ? | c ? | c ? [content |]];
        try reflexivity;
        (apply insert_insert_ne; intros ->; apply Hother; split; reflexivity).
Qed.

Lemma reset_registry_assign r o' ap :
  reset_option o' = reset_option (deref r ap) ->
  reset_registry (assign r o' ap) = reset_registry ap.
Proof.
  intros Hsame.
  assert (forall (l : list (Option.t TValue)) i,
             reset_option o' = reset_option (l !!! i) ->
             List.map reset_option (<[i := o']> l) = List.map reset_option l) as Hmap.
  { intros l i H.
    change (reset_option <$> <[i := o']> l = reset_option <$> l).
    rewrite list_fmap_insert.
    destruct (l !! i) as [x |] eqn:Hi.
    - apply list_insert_id. rewrite list_lookup_fmap, Hi. cbn.
      rewrite H. rewrite (list_lookup_total_correct _ _ _ Hi). reflexivity.
    - apply list_insert_ge. rewrite length_fmap. apply lookup_ge_None. exact Hi. }
  unfold reset_registry. destruct r as [i | i]; cbn [assign deref] in *;
    cbn [mOptions mPositional set_mOptions set_mPositional];
    rewrite Hmap by exact Hsame; reflexivity.
Qed.

Lemma deref_elem_of r ap cell :
  cell_of (deref r ap) = Some cell -> deref r ap ∈ mOptions ap ++ mPositional ap.
Proof.
  assert (forall (l : list (Option.t TValue)) i,
             cell_of (l !!! i) = Some cell -> l !!! i ∈ l) as Hin.
  { intros l i H. destruct (l !! i) as [x |] eqn:Hi.
    - rewrite (list_lookup_total_correct _ _ _ Hi).
      eapply list_elem_of_lookup_2; eauto.
    - rewrite list_lookup_total_alt, Hi in H. discriminate H. }
  intros H. apply elem_of_app. destruct r as [i | i]; cbn [deref] in *; auto.
Qed.

Lemma restoring_same ap ap' :
  reset_registry ap' = reset_registry ap -> restoring ap -> restoring ap'.
Proof.
  unfold restoring. intros H Hap.
  assert (List.map reset_option (mOptions ap' ++ mPositional ap')
          = List.map reset_option (mOptions ap ++ mPositional ap)) as Hlists.
  { unfold reset_registry in H. rewrite !map_app.
    apply (f_equal mOptions) in H as H1. apply (f_equal mPositional) in H as H2.
    cbn [mOptions mPositional set_mOptions set_mPositional] in H1, H2.
    rewrite H1, H2. reflexivity. }
  assert (forall l : list (Option.t TValue),
             Forall (fun o => overrides_doReset o = true) l
             <-> Forall (fun o => overrides_doReset o = true) (List.map reset_option l))
    as Hmap.
  { intros l. change (List.map reset_option l) with (reset_option <$> l).
    rewrite Forall_fmap. reflexivity. }
  apply Hmap. rewrite Hlists. apply (proj1 (Hmap _)). exact Hap.
Qed.

Lemma same_definitions_refl (w : argument_parser.state TValue) : same_definitions w w.
Proof. split; reflexivity. Qed.

Lemma same_definitions_trans (w1 w2 w3 : argument_parser.state TValue) :
  same_definitions w1 w2 -> same_definitions w2 w3 -> same_definitions w1 w3.
Proof.
  intros [Hreg Hst] [Hreg' Hst']. split; [congruence |].
  intros Hown. rewrite Hst' by (eapply restoring_same; eauto). apply Hst. exact Hown.
Qed.

(** Whatever [Option::setValue] and its like do to the option behind a
    reference is undone by the reset loops, when the values have a [doReset]
    of their own. *)
Lemma same_definitions_assign r o' st' ap st :
  touches (deref r ap, st) (o', st') ->
  same_definitions (ap, st) (assign r o' ap, st').
Proof.
  intros [Hopt Hst]. cbn [fst snd] in Hopt, Hst.
  split; [exact (reset_registry_assign r o' ap Hopt) |].
  cbn [fst]. intros Hown.
  unfold reset_state. cbn [fst snd].
  rewrite (reset_registry_assign r o' ap Hopt). f_equal.
  unfold reset_store.
  assert (List.map reset_option (mOptions (assign r o' ap) ++ mPositional (assign r o' ap))
          = List.map reset_option (mOptions ap ++ mPositional ap)) as Hlists.
  { pose proof (reset_registry_assign r o' ap Hopt) as H.
    unfold reset_registry in H. rewrite !map_app.
    apply (f_equal mOptions) in H as H1. apply (f_equal mPositional) in H as H2.
    cbn [mOptions mPositional set_mOptions set_mPositional] in H1, H2.
    rewrite H1, H2. reflexivity. }
  rewrite <- (reset_cells_fmap (mOptions (assign r o' ap) ++ _)), Hlists, reset_cells_fmap.
  destruct Hst as [-> | (cell & x & Hcell & ->)]; [reflexivity |].
  assert (deref r ap ∈ mOptions ap ++ mPositional ap) as Hin
    by (eapply deref_elem_of; eauto).
  eapply reset_cells_absorb; [exact Hin | exact Hcell |].
  unfold restoring in Hown. rewrite Forall_forall in Hown. apply Hown. exact Hin.
Qed.

Lemma touches_refl (w : Option.state TValue) : touches w w.
Proof. split; [reflexivity | left; reflexivity]. Qed.


(** *** Parser::setValue and addFreeArgument *)

Lemma with_errors_nil p : with_errors [] p = p.
Proof.
  unfold with_errors. rewrite app_nil_r. destruct p as [ig pos act [ign errs]]. reflexivity.
Qed.

Lemma with_errors_app errs errs' p :
  with_errors errs' (with_errors errs p) = with_errors (errs ++ errs') p.
Proof.
  unfold with_errors. destruct p as [ig pos act [ign es]]. cbn. rewrite app_assoc. reflexivity.
Qed.

Lemma addError_spec name code p (w : argument_parser.state TValue) :
  Parser.addError name code (p, w) = (Ok tt, (with_errors [mkParseError name code] p, w)).
Proof. reflexivity. Qed.

(** [Parser::setValue] never throws: it runs [Option::setValue] on the
    option and records at most one error. *)
Lemma Parser_setValue_spec r (value : string) p ap st :
  exists o' st' errs,
    Parser.setValue r value (p, (ap, st))
    = (Ok tt, (with_errors errs p, (assign r o' ap, st')))
    /\ Option.setValue value (deref r ap, st) = (fst (Option.setValue value (deref r ap, st)), (o', st'))
    /\ touches (deref r ap, st) (o', st')
    /\ rejection (Option.getName (deref r (assign r o' ap))) errs
    /\ Value.mOptionAssignCount (Option.mpValue (deref r ap))
       <= Value.mOptionAssignCount (Option.mpValue o').
Proof.
  destruct (Option_setValue_cases value (deref r ap) st)
    as (res & o' & st' & Hrun & Hres & Htouch & Hcount).
  exists o', st'.
  unfold Parser.setValue, Parser.on_mArgParser, on_option, zoom. cbn [snd fst].
  rewrite Hrun. cbn [fst].
  destruct Hres as [| bad | [what | what]].
  - exists []. rewrite with_errors_nil.
    split; [reflexivity |]. split; [reflexivity |]. split; [exact Htouch |].
    split; [left; reflexivity | exact Hcount].
  - eexists. split; [reflexivity |]. split; [reflexivity |]. split; [exact Htouch |].
    split; [right; left; reflexivity | exact Hcount].
  - eexists. split; [reflexivity |]. split; [reflexivity |]. split; [exact Htouch |].
    split; [right; right; reflexivity | exact Hcount].
  - eexists. split; [reflexivity |]. split; [reflexivity |]. split; [exact Htouch |].
    split; [right; right; reflexivity | exact Hcount].
Qed.

Lemma next_accepting_bound (rest : list (Option.t TValue)) :
  forall pos, (pos <= fst (Parser.next_accepting rest pos))%nat.
Proof.
  induction rest as [| o rest IH]; intros pos; cbn; [lia |].
  destruct (Option.willAcceptArgument o); cbn; [lia |].
  specialize (IH (S pos)). lia.
Qed.

(** [addFreeArgument] returns normally; it can change a positional, the
    position and the result, and nothing else. *)
Lemma addFreeArgument_spec (arg : string) p ap st :
  exists p' ap' st',
    Parser.addFreeArgument arg (p, (ap, st)) = (Ok tt, (p', (ap', st')))
    /\ mOptions ap' = mOptions ap
    /\ Parser.mpActiveOption p' = Parser.mpActiveOption p
    /\ Parser.mIgnoreOptions p' = Parser.mIgnoreOptions p
    /\ (Parser.mPosition p <= Parser.mPosition p')%nat
    /\ same_definitions (ap, st) (ap', st').
Proof.
  assert (forall pos q,
             Parser.mpActiveOption q = Parser.mpActiveOption p ->
             Parser.mIgnoreOptions q = Parser.mIgnoreOptions p ->
             (Parser.mPosition p <= Parser.mPosition q)%nat ->
             exists p' ap' st',
               Parser.setValue (in_mPositional pos) arg (q, (ap, st))
               = (Ok tt, (p', (ap', st')))
               /\ mOptions ap' = mOptions ap
               /\ Parser.mpActiveOption p' = Parser.mpActiveOption p
               /\ Parser.mIgnoreOptions p' = Parser.mIgnoreOptions p
               /\ (Parser.mPosition p <= Parser.mPosition p')%nat
               /\ same_definitions (ap, st) (ap', st')) as Hset.
  { intros pos q Hact Hign Hpos.
    destruct (Parser_setValue_spec (in_mPositional pos) arg q ap st)
      as (o' & st' & errs & Hrun & _ & Htouch & _).
    do 3 eexists. split; [exact Hrun |].
    split; [reflexivity |]. split; [exact Hact |]. split; [exact Hign |].
    split; [exact Hpos |]. apply same_definitions_assign. exact Htouch. }
  unfold Parser.addFreeArgument.
  destruct (mPositional ap !! Parser.mPosition p) as [option |].
  - destruct (Option.willAcceptArgument option).
    + apply Hset; reflexivity || lia.
    + pose proof (next_accepting_bound (drop (S (Parser.mPosition p)) (mPositional ap))
                    (S (Parser.mPosition p))) as Hbound.
      destruct (Parser.next_accepting _ _) as [pos found]. cbn [fst] in Hbound.
      unfold bind, Parser.on_this.
      destruct found.
      * apply Hset; cbn; reflexivity || lia.
      * do 3 eexists. split; [reflexivity |]. cbn.
        repeat split; try lia; apply same_definitions_refl.
  - do 3 eexists. split; [reflexivity |]. cbn.
    repeat split; try lia; apply same_definitions_refl.
Qed.

Lemma next_accepting_none (rest : list (Option.t TValue)) :
  forall pos,
    Forall (fun o => Option.willAcceptArgument o = false) rest ->
    Parser.next_accepting rest pos = ((pos + length rest)%nat, false).
Proof.
  induction rest as [| o rest IH]; intros pos Hall; cbn.
  - rewrite Nat.add_0_r. reflexivity.
  - apply Forall_cons in Hall as [Ho Hall]. rewrite Ho, (IH _ Hall).
    f_equal. lia.
Qed.

Lemma addFreeArgument_overflow (arg : string) p ap st :
  Forall (fun o => Option.willAcceptArgument o = false)
         (drop (Parser.mPosition p) (mPositional ap)) ->
  exists pos,
    Parser.addFreeArgument arg (p, (ap, st))
    = (Ok tt,
       (Parser.mk (Parser.mIgnoreOptions p) pos (Parser.mpActiveOption p)
          (ParseResult.add_ignored arg (Parser.mResult p)), (ap, st)))
    /\ Forall (fun o => Option.willAcceptArgument o = false) (drop pos (mPositional ap)).
Proof.
  intros Hall. unfold Parser.addFreeArgument.
  destruct (mPositional ap !! Parser.mPosition p) as [option |] eqn:Hat.
  - rewrite (drop_S _ _ _ Hat) in Hall. apply Forall_cons in Hall as [Hno Hall].
    rewrite Hno, (next_accepting_none _ _ Hall).
    eexists. split; [reflexivity |].
    rewrite drop_ge; [constructor |].
    rewrite length_drop. apply lookup_lt_Some in Hat.
    cbn [Parser.mPosition Parser.set_mPosition]. lia.
  - exists (Parser.mPosition p). split; [| exact Hall].
    destruct p; reflexivity.
Qed.

(** In ignore-options mode a token is dropped when it is [--] and is a free
    argument otherwise. *)
Lemma parse_arg_ignoring (arg : string) p (w : argument_parser.state TValue) :
  Parser.mIgnoreOptions p = true ->
  Parser.parse_arg arg (p, w)
  = if String.eqb arg "--" then (Ok tt, (p, w)) else Parser.addFreeArgument arg (p, w).
Proof.
  intros Hign. unfold Parser.parse_arg. rewrite Hign.
  destruct (String.eqb arg "--"); [| reflexivity].
  destruct p as [ig pos act res]. cbn in Hign. subst ig. reflexivity.
Qed.

Lemma parse_ignoring (rest : list string) :
  forall p ap st,
    Parser.mIgnoreOptions p = true ->
    exists p' ap' st',
      for_each rest Parser.parse_arg (p, (ap, st)) = (Ok tt, (p', (ap', st')))
      /\ for_each rest Parser.parse_arg (p, (ap, st))
         = for_each (List.filter (fun arg => negb (String.eqb arg "--")) rest)
                    Parser.addFreeArgument (p, (ap, st))
      /\ mOptions ap' = mOptions ap
      /\ Parser.mpActiveOption p' = Parser.mpActiveOption p
      /\ Parser.mIgnoreOptions p' = true
      /\ same_definitions (ap, st) (ap', st').
Proof.
  induction rest as [| arg rest IH]; intros p ap st Hign.
  - do 3 eexists. split; [reflexivity |]. split; [reflexivity |].
    split; [reflexivity |]. split; [reflexivity |]. split; [exact Hign |].
    apply same_definitions_refl.
  - assert (for_each (arg :: rest) Parser.parse_arg (p, (ap, st))
            = match (if String.eqb arg "--" then (Ok tt, (p, (ap, st)))
                     else Parser.addFreeArgument arg (p, (ap, st))) with
              | (Ok _, s') => for_each rest Parser.parse_arg s'
              | (Raise e, s') => (Raise e, s')
              | (Exit c, s') => (Exit c, s')
              end) as Hstep.
    { cbn [for_each]. unfold bind. rewrite parse_arg_ignoring by exact Hign. reflexivity. }
    rewrite Hstep. cbn [List.filter].
    destruct (String.eqb arg "--"); cbn [negb].
    + apply IH. exact Hign.
    + destruct (addFreeArgument_spec arg p ap st)
        as (p1 & ap1 & st1 & Hrun & Hopts & Hact & Hign1 & _ & Hreset).
      cbn [for_each]. unfold bind. rewrite Hrun.
      destruct (IH p1 ap1 st1) as (p' & ap' & st' & Hrest & Heq & Hopts' & Hact' & Hign' & Hreset');
        [congruence |].
      exists p', ap', st'. split; [exact Hrest |]. split; [exact Heq |].
      split; [congruence |]. split; [congruence |]. split; [exact Hign' |].
      eapply same_definitions_trans; eauto.
Qed.

(** *** Closing the active option *)

Lemma closeOption_spec p ap st i option :
  Parser.mpActiveOption p = Some i ->
  mOptions ap !! i = Some option ->
  Parser.closeOption (p, (ap, st))
  = if Option.needsMoreArguments option then
      (Ok tt,
       (Parser.set_mpActiveOption None
          (with_errors [mkParseError (Option.getName option) MISSING_ARGUMENT] p),
        (ap, st)))
    else if Option.willAcceptArgument option
            && negb (Option.wasAssignedThroughThisOption option) then
      (Parser.on_mArgParser
         (on_option (in_mOptions i) (Option.setValue (Option.getFlagValue option))) ;;;
       Parser.on_this (Parser.set_mpActiveOption None)) (p, (ap, st))
    else (Ok tt, (Parser.set_mpActiveOption None p, (ap, st))).
Proof.
  intros Hact Hopt. unfold Parser.closeOption. unfold bind at 1. rewrite Hact.
  unfold bind at 1. unfold Parser.option_at at 1. cbn [deref].
  rewrite (list_lookup_total_correct _ _ _ Hopt).
  destruct (Option.needsMoreArguments option); [reflexivity |].
  destruct (Option.willAcceptArgument option && negb (Option.wasAssignedThroughThisOption option));
    reflexivity.
Qed.

(** What [closeOption] can do, whatever the active option: it leaves the
    definitions alone, records at most a MISSING_ARGUMENT error, and leaves
    no option active when it returns. *)
Lemma closeOption_frame p ap st :
  exists res p' ap' st',
    Parser.closeOption (p, (ap, st)) = (res, (p', (ap', st')))
    /\ same_definitions (ap, st) (ap', st')
    /\ Parser.mIgnoreOptions p' = Parser.mIgnoreOptions p
    /\ Parser.mPosition p' = Parser.mPosition p
    /\ (res = Ok tt -> Parser.mpActiveOption p' = None)
    /\ ParseResult.ignoredArguments (Parser.mResult p')
       = ParseResult.ignoredArguments (Parser.mResult p)
    /\ (ParseResult.errors (Parser.mResult p') = ParseResult.errors (Parser.mResult p)
        \/ exists name,
             ParseResult.errors (Parser.mResult p')
             = ParseResult.errors (Parser.mResult p) ++ [mkParseError name MISSING_ARGUMENT]).
Proof.
  unfold Parser.closeOption. unfold bind at 1.
  destruct (Parser.mpActiveOption p) as [i |] eqn:Hact.
  2:{ do 4 eexists. split; [reflexivity |]. split; [apply same_definitions_refl |]. cbn.
      repeat split; try reflexivity. left; reflexivity. }
  unfold bind at 1. unfold Parser.option_at at 1.
  set (option := deref (in_mOptions i) ap).
  destruct (Option.needsMoreArguments option).
  { do 4 eexists. split; [reflexivity |]. split; [apply same_definitions_refl |]. cbn.
    repeat split; try reflexivity. right. eexists. reflexivity. }
  destruct (Option.willAcceptArgument option && negb (Option.wasAssignedThroughThisOption option)).
  2:{ do 4 eexists. split; [reflexivity |]. split; [apply same_definitions_refl |]. cbn.
      repeat split; try reflexivity. left; reflexivity. }
  destruct (Option_setValue_cases (Option.getFlagValue option) option st)
    as (res & o' & st' & Hrun & Hres & Htouch & _).
  unfold Parser.on_mArgParser, on_option, zoom. cbn [snd fst]. fold option. rewrite Hrun.
  assert (same_definitions (ap, st) (assign (in_mOptions i) o' ap, st')) as Hreset
    by (apply same_definitions_assign; exact Htouch).
  destruct Hres; do 4 eexists; (split; [reflexivity |]); cbn [Parser.on_this];
    (split; [exact Hreset |]); cbn;
    repeat split; try reflexivity; try discriminate; left; reflexivity.
Qed.

Lemma findOption_reset (name : string) ap :
  Parser.findOption name (reset_registry ap) = Parser.findOption name ap.
Proof.
  unfold Parser.findOption, reset_registry. cbn [mOptions set_mOptions set_mPositional].
  induction (mOptions ap) as [| x l IH]; [reflexivity |].
  cbn [List.map list_find].
  change (Option.hasName name (reset_option x)) with (Option.hasName name x).
  destruct (decide (Option.hasName name x)); [reflexivity |].
  destruct (list_find (Option.hasName name) (List.map reset_option l)) as [[i o] |],
           (list_find (Option.hasName name) l) as [[j o'] |];
    cbn in *; congruence.
Qed.

Lemma findOption_same_definitions (name : string) ap ap' st st' :
  same_definitions (ap, st) (ap', st') ->
  Parser.findOption name ap' = Parser.findOption name ap.
Proof.
  intros [H _]. cbn [fst] in H.
  rewrite <- (findOption_reset name ap'), H. apply findOption_reset.
Qed.

(** *** Tokens *)

Lemma no_dash_token (arg : string) :
  substring 0 1 arg <> "-" ->
  String.eqb arg "--" = false
  /\ String.eqb (substring 0 2 arg) "--" = false
  /\ String.eqb (substring 0 1 arg) "-" = false.
Proof.
  intros H. destruct arg as [| c [| c' arg]]; cbn in *; try (repeat split; reflexivity).
  - destruct (Ascii.eqb_spec c "-") as [-> | _]; [congruence |]. repeat split; reflexivity.
  - assert (substring 0 0 arg = "") as E by (destruct arg; reflexivity).
    rewrite E in *.
    destruct (Ascii.eqb_spec c "-") as [-> | _]; [congruence |]. repeat split; reflexivity.
Qed.

Lemma two_character_token (arg : string) :
  String.length arg = 2%nat -> substring 0 2 arg = arg.
Proof.
  destruct arg as [| c [| c' [| c'' arg]]]; cbn; intros H; try discriminate. reflexivity.
Qed.

(** A token that is not [--] and has the form of a long option, or of a
    single short option, starts an option. *)
Lemma parse_arg_option_token (tok : string) p (w : argument_parser.state TValue) :
  Parser.mIgnoreOptions p = false ->
  tok <> "--" ->
  substring 0 2 tok = "--" \/ (substring 0 1 tok = "-" /\ String.length tok = 2%nat) ->
  Parser.parse_arg tok (p, w) = Parser.startOption tok (p, w).
Proof.
  intros Hign Hne Hform. unfold Parser.parse_arg. rewrite Hign.
  apply String.eqb_neq in Hne. rewrite Hne.
  destruct Hform as [-> | [H1 H2]]; [reflexivity |].
  rewrite H1, H2. cbn. destruct (String.eqb (substring 0 2 tok) "--"); reflexivity.
Qed.

Lemma count_errors_app code (l l' : list ParseError) :
  count_errors code (l ++ l') = (count_errors code l + count_errors code l')%nat.
Proof. unfold count_errors. rewrite List.filter_app, length_app. reflexivity. Qed.

(** *** Starting an unknown option *)

Lemma startOption_unknown (tok : string) p ap st :
  Parser.findOption (fst (Parser.split_argument tok)) ap = None ->
  Parser.startOption tok (p, (ap, st))
  = ((fun '(p, w) => (if Parser.haveActiveOption p then Parser.closeOption else ret tt) (p, w)) ;;;
     Parser.addError (fst (Parser.split_argument tok)) UNKNOWN_OPTION) (p, (ap, st)).
Proof.
  intros Hfind. unfold Parser.startOption, bind.
  destruct (Parser.split_argument tok) as [name arg]. cbn [fst] in Hfind.
  destruct (Parser.haveActiveOption p); cbv beta iota.
  - destruct (closeOption_frame p ap st) as (res & p' & ap' & st' & Hrun & Hreset & _).
    rewrite Hrun. destruct res; try reflexivity.
    rewrite (findOption_same_definitions name ap ap' st st' Hreset), Hfind. reflexivity.
  - cbn. rewrite Hfind. reflexivity.
Qed.

(** C5.  A token that names an option which is not in the registry first
    closes the option that was active, as every option token does; past that
    the start step only records one UNKNOWN_OPTION error for the name: when
    no option was active nothing else changes at all.  No option is active
    afterwards, so a following token without a dash is a free argument and
    not a value of the unknown option. *)
Theorem C5_unknown_option :
  forall p ap st (tok : string),
    Parser.mIgnoreOptions p = false ->
    tok <> "--" ->
    (substring 0 2 tok = "--" \/ (substring 0 1 tok = "-" /\ String.length tok = 2%nat)) ->
    Parser.findOption (fst (Parser.split_argument tok)) ap = None ->
    Parser.parse_arg tok (p, (ap, st))
    = ((fun '(p, w) => (if Parser.haveActiveOption p then Parser.closeOption else ret tt) (p, w)) ;;;
       Parser.addError (fst (Parser.split_argument tok)) UNKNOWN_OPTION) (p, (ap, st))
    /\ (Parser.mpActiveOption p = None ->
        Parser.parse_arg tok (p, (ap, st))
        = (Ok tt,
           (with_errors [mkParseError (fst (Parser.split_argument tok)) UNKNOWN_OPTION] p,
            (ap, st))))
    /\ (forall p' ap' st',
          Parser.parse_arg tok (p, (ap, st)) = (Ok tt, (p', (ap', st'))) ->
          Parser.mpActiveOption p' = None
          /\ count_errors UNKNOWN_OPTION (ParseResult.errors (Parser.mResult p'))
             = S (count_errors UNKNOWN_OPTION (ParseResult.errors (Parser.mResult p)))
          /\ forall next : string,
               substring 0 1 next <> "-" ->
               Parser.parse_arg next (p', (ap', st'))
               = Parser.addFreeArgument next (p', (ap', st'))).
Proof.
  intros p ap st tok Hign Hne Hform Hfind.
  rewrite (parse_arg_option_token tok p (ap, st) Hign Hne Hform).
  rewrite (startOption_unknown tok p ap st Hfind).
  set (name := fst (Parser.split_argument tok)).
  split; [reflexivity |]. split.
  - intros Hact. unfold bind, Parser.haveActiveOption. rewrite Hact.
    rewrite bool_decide_eq_false_2 by (intros H; apply H; reflexivity). reflexivity.
  - intros p' ap' st' Hrun. unfold bind in Hrun.
    assert (exists p1,
               Parser.mpActiveOption p1 = None
               /\ Parser.mIgnoreOptions p1 = false
               /\ (ParseResult.errors (Parser.mResult p1) = ParseResult.errors (Parser.mResult p)
                   \/ exists n,
                        ParseResult.errors (Parser.mResult p1)
                        = ParseResult.errors (Parser.mResult p) ++ [mkParseError n MISSING_ARGUMENT])
               /\ p' = with_errors [mkParseError name UNKNOWN_OPTION] p1) as (p1 & Hact & Hign1 & Herr & ->).
    { unfold Parser.haveActiveOption in Hrun.
      destruct (Parser.mpActiveOption p) as [i |] eqn:Hact.
      - rewrite bool_decide_eq_true_2 in Hrun by discriminate.
        destruct (closeOption_frame p ap st)
          as (res & p1 & ap1 & st1 & Hclose & _ & Hign1 & _ & Hnone & _ & Herr).
        rewrite Hclose in Hrun. destruct res; try discriminate Hrun.
        rewrite addError_spec in Hrun. injection Hrun as <- _ _.
        exists p1. split; [apply Hnone; destruct a; reflexivity |].
        split; [congruence |]. split; [exact Herr | reflexivity].
      - rewrite bool_decide_eq_false_2 in Hrun by (intros H; apply H; reflexivity).
        cbn in Hrun. injection Hrun as <- _ _.
        exists p. split; [exact Hact |]. split; [exact Hign |].
        split; [left; reflexivity | reflexivity]. }
    split; [exact Hact |]. split.
    + cbn [with_errors Parser.mResult Parser.set_mResult ParseResult.errors].
      rewrite count_errors_app.
      change (count_errors UNKNOWN_OPTION [mkParseError name UNKNOWN_OPTION]) with 1%nat.
      destruct Herr as [-> | [n ->]]; [lia |].
      rewrite count_errors_app.
      change (count_errors UNKNOWN_OPTION [mkParseError n MISSING_ARGUMENT]) with 0%nat.
      lia.
    + intros next Hnext. destruct (no_dash_token next Hnext) as (E1 & E2 & E3).
      unfold Parser.parse_arg. rewrite E1, E2, E3.
      cbn [with_errors Parser.mIgnoreOptions Parser.mpActiveOption Parser.set_mResult].
      rewrite Hign1, Hact. reflexivity.
Qed.

(** *** Starting a known option *)

Lemma onOptionStarted_at r p ap st :
  Parser.on_mArgParser (on_option r Option.onOptionStarted) (p, (ap, st))
  = (Ok tt, (p, (assign r (started (deref r ap)) ap, st))).
Proof. reflexivity. Qed.

Lemma deref_assign_mOptions (i : nat) o o' ap :
  mOptions ap !! i = Some o ->
  deref (in_mOptions i) (assign (in_mOptions i) o' ap) = o'.
Proof.
  intros H. cbn [deref assign mOptions set_mOptions].
  apply list_lookup_total_insert_eq. eapply lookup_lt_Some; eauto.
Qed.

Lemma reset_option_fields o o' :
  reset_option o' = reset_option o ->
  Option.mMaxArgs o' = Option.mMaxArgs o
  /\ Option.mMinArgs o' = Option.mMinArgs o
  /\ Option.getName o' = Option.getName o
  /\ Option.getFlagValue o' = Option.getFlagValue o.
Proof.
  intros H.
  change (Option.mMaxArgs (reset_option o') = Option.mMaxArgs (reset_option o)
          /\ Option.mMinArgs (reset_option o') = Option.mMinArgs (reset_option o)
          /\ Option.getName (reset_option o') = Option.getName (reset_option o)
          /\ Option.getFlagValue (reset_option o') = Option.getFlagValue (reset_option o)).
  rewrite H. repeat split.
Qed.

Lemma rejection_no_flag_parameter (name : string) errs :
  rejection name errs -> count_errors FLAG_PARAMETER errs = 0%nat.
Proof. intros [-> | [-> | ->]]; reflexivity. Qed.

(** C4.  For an option that accepts no arguments, the token [--opt=value]
    with a non-empty value does what the bare [--opt] does, that is, it
    starts the option and assigns its flag value, and then records
    FLAG_PARAMETER for the option; [value] reaches no slot, and the result
    has exactly one FLAG_PARAMETER error. *)
Theorem C4_flag_with_value :
  forall ap st (tok name value : string) (i : nat) option,
    substring 0 2 tok = "--" ->
    Parser.split_argument tok = (name, value) ->
    value <> "" ->
    Parser.findOption name ap = Some i ->
    mOptions ap !! i = Some option ->
    Option.acceptsAnyArguments option = false ->
    exists p1 ap1 st1,
      (Parser.on_mArgParser (on_option (in_mOptions i) Option.onOptionStarted) ;;;
       Parser.setValue (in_mOptions i) (Option.getFlagValue option))
        (Parser.make, (ap, st))
      = (Ok tt, (p1, (ap1, st1)))
      /\ Parser.parse [tok] (Parser.make, (ap, st))
         = (Ok (Parser.mResult (with_errors [mkParseError name FLAG_PARAMETER] p1)),
            (with_errors [mkParseError name FLAG_PARAMETER] p1, (ap1, st1)))
      /\ count_errors FLAG_PARAMETER
           (ParseResult.errors
              (Parser.mResult (with_errors [mkParseError name FLAG_PARAMETER] p1)))
         = 1%nat
      /\ ParseResult.ignoredArguments
           (Parser.mResult (with_errors [mkParseError name FLAG_PARAMETER] p1)) = [].
Proof.
  intros ap st tok name value i option Hlong Hsplit Hvalue Hfind Hopt Hflag.
  unfold Option.acceptsAnyArguments in Hflag.
  apply orb_false_iff in Hflag. destruct Hflag as [_ Hmax].
  apply negb_false_iff, Z.eqb_eq in Hmax.
  assert (tok <> "--") as Hne.
  { intros ->. cbn in Hsplit. injection Hsplit as _ <-. congruence. }
  assert (deref (in_mOptions i) ap = option) as Hderef
    by (cbn [deref]; apply list_lookup_total_correct; exact Hopt).
  remember (assign (in_mOptions i) (started option) ap) as ap0 eqn:Hap0.
  assert (deref (in_mOptions i) ap0 = started option) as Hderef0
    by (subst ap0; apply (deref_assign_mOptions i option); exact Hopt).
  destruct (Parser_setValue_spec (in_mOptions i) (Option.getFlagValue option)
              Parser.make ap0 st)
    as (o' & st' & errs & Hset & _ & [Hsame _] & Hrej & Hcount).
  rewrite Hderef0 in Hsame, Hcount. cbn [fst] in Hsame.
  exists (with_errors errs Parser.make), (assign (in_mOptions i) o' ap0), st'.
  assert (Option.willAcceptArgument (started option) = false) as Hno.
  { unfold Option.willAcceptArgument. cbn. rewrite Hmax. reflexivity. }
  assert (mOptions ap0 !! i = Some (started option)) as Hopt0.
  { subst ap0. cbn [assign mOptions set_mOptions]. apply list_lookup_insert_eq.
    eapply lookup_lt_Some; eauto. }
  assert (deref (in_mOptions i) (assign (in_mOptions i) o' ap0) = o') as Hderef'
    by (apply (deref_assign_mOptions i (started option)); exact Hopt0).
  assert (Option.willAcceptArgument o' = false) as Hno'.
  { destruct (reset_option_fields _ _ Hsame) as (Hmax' & _).
    unfold Option.willAcceptArgument, Value.getOptionAssignCount.
    rewrite Hmax'. cbn [started Option.with_value Option.mMaxArgs]. rewrite Hmax.
    cbn [started Option.with_value Option.mpValue Value.mOptionAssignCount] in Hcount.
    apply orb_false_iff. split; apply Z.ltb_ge; lia. }
  assert ((Parser.on_mArgParser (on_option (in_mOptions i) Option.onOptionStarted) ;;;
           Parser.setValue (in_mOptions i) (Option.getFlagValue option))
            (Parser.make, (ap, st))
          = (Ok tt, (with_errors errs Parser.make, (assign (in_mOptions i) o' ap0, st'))))
    as Hstart.
  { unfold bind. rewrite onOptionStarted_at, Hderef, <- Hap0. exact Hset. }
  split; [exact Hstart |].
  split.
  { unfold Parser.parse, bind. cbn [for_each]. unfold bind.
    change (Parser.on_this
              (fun p => Parser.set_mResult (ParseResult.clear (Parser.mResult p)) p)
              (Parser.make, (ap, st)))
      with (Ok tt, (Parser.make, (ap, st))).
    cbv iota beta.
    rewrite (parse_arg_option_token tok Parser.make (ap, st) eq_refl Hne (or_introl Hlong)).
    unfold Parser.startOption, bind. rewrite Hsplit.
    change (Parser.haveActiveOption Parser.make) with false. cbv iota beta.
    change ((ret tt : M (Parser.state TValue) unit) (Parser.make, (ap, st)))
      with (Ok tt, (Parser.make, (ap, st))).
    cbv iota beta. rewrite Hfind.
    rewrite onOptionStarted_at, Hderef, <- Hap0.
    unfold Parser.option_at at 1. rewrite Hderef0, Hno.
    change (Option.getFlagValue (started option)) with (Option.getFlagValue option).
    rewrite Hset.
    apply String.eqb_neq in Hvalue. rewrite Hvalue. cbn [negb].
    unfold Parser.option_at at 1.
    destruct (with_errors errs Parser.make) as [ig pos act res] eqn:Hp1.
    rewrite Hderef', Hno'. rewrite addError_spec.
    assert (act = None) as -> by (apply (f_equal Parser.mpActiveOption) in Hp1; exact (eq_sym Hp1)).
    reflexivity. }
  split.
  - cbn [with_errors Parser.mResult Parser.set_mResult ParseResult.errors Parser.make
         ParseResult.empty]. rewrite app_nil_l, count_errors_app.
    rewrite (rejection_no_flag_parameter _ _ Hrej). reflexivity.
  - reflexivity.
Qed.

(** *** Assigning to an option without choices and without action *)

Lemma Option_setValue_scalar (value : string) o st cell conv empty x :
  Option.mChoices o = [] ->
  Option.mpAssignAction o = None ->
  Value.impl (Option.mpValue o) = Value.ConvertedValue cell conv empty ->
  conv value = inr x ->
  Option.setValue value (o, st) = (Ok tt, (assigned_once o, <[cell := Scalar x]> st)).
Proof.
  intros Hch Hact Himpl Hconv.
  unfold Option.setValue. rewrite Hch, Hact. cbn [bool_decide decide_rel negb andb].
  rewrite bool_decide_eq_true_2 by reflexivity. cbn [negb andb].
  unfold Option.on_value, zoom, Value.setValue, bind, Value.on_this, Value.doSetValue.
  unfold Value.incOptionAssignCount, Value.incAssignCount.
  cbn [Value.impl Value.mAssignCount Value.mOptionAssignCount Value.mHasErrors].
  rewrite Himpl, Hconv. unfold assigned_once. rewrite Himpl. reflexivity.
Qed.

Lemma Parser_setValue_scalar r (value : string) p ap st cell conv empty x :
  Option.mChoices (deref r ap) = [] ->
  Option.mpAssignAction (deref r ap) = None ->
  Value.impl (Option.mpValue (deref r ap)) = Value.ConvertedValue cell conv empty ->
  conv value = inr x ->
  Parser.setValue r value (p, (ap, st))
  = (Ok tt, (p, (assign r (assigned_once (deref r ap)) ap, <[cell := Scalar x]> st))).
Proof.
  intros Hch Hact Himpl Hconv.
  unfold Parser.setValue, Parser.on_mArgParser, on_option, zoom. cbn [snd fst].
  rewrite (Option_setValue_scalar value _ st cell conv empty x Hch Hact Himpl Hconv).
  reflexivity.
Qed.

Lemma assign_assign_mOptions (i : nat) o o' ap :
  assign (in_mOptions i) o' (assign (in_mOptions i) o ap)
  = assign (in_mOptions i) o' ap.
Proof.
  cbn [assign mOptions set_mOptions]. unfold set_mOptions. cbn.
  rewrite list_insert_insert_eq. reflexivity.
Qed.

Lemma Option_setValue_vector (value : string) o st cell conv x :
  Option.mChoices o = [] ->
  Option.mpAssignAction o = None ->
  Value.impl (Option.mpValue o) = Value.ConvertedVector cell conv ->
  conv value = inr x ->
  Option.setValue value (o, st)
  = (Ok tt, (assigned_once o, <[cell := Vector (elements_of (st !! cell) ++ [x])]> st)).
Proof.
  intros Hch Hact Himpl Hconv.
  unfold Option.setValue. rewrite Hch, Hact.
  rewrite bool_decide_eq_true_2 by reflexivity. cbn [negb andb].
  unfold Option.on_value, zoom, Value.setValue, bind, Value.on_this, Value.doSetValue.
  cbn [Value.impl Value.incAssignCount Value.incOptionAssignCount].
  rewrite Himpl, Hconv. reflexivity.
Qed.

(** *** After [--] *)

Lemma next_accepting_find (rest : list (Option.t TValue)) :
  forall pos,
    Parser.next_accepting rest pos
    = match list_find (fun o => Option.willAcceptArgument o = true) rest with
      | Some found => ((pos + fst found)%nat, true)
      | None => ((pos + length rest)%nat, false)
      end.
Proof.
  induction rest as [| o rest IH]; intros pos.
  - cbn. rewrite Nat.add_0_r. reflexivity.
  - cbn [Parser.next_accepting list_find].
    destruct (Option.willAcceptArgument o) eqn:Ho.
    + rewrite decide_True by reflexivity. cbn. rewrite Nat.add_0_r. reflexivity.
    + rewrite decide_False by discriminate. rewrite IH.
      destruct (list_find _ rest) as [[j x] |]; cbn; f_equal; lia.
Qed.

Lemma set_mPosition_same p : Parser.set_mPosition (Parser.mPosition p) p = p.
Proof. destruct p; reflexivity. Qed.

(** [addFreeArgument] gives the argument to the positional that takes it,
    or else to the ignored arguments. *)
Lemma addFreeArgument_routed (arg : string) s :
  Parser.addFreeArgument arg s = routed arg s.
Proof.
  destruct s as [p [ap st]]. unfold Parser.addFreeArgument, routed, taking_positional.
  destruct (mPositional ap !! Parser.mPosition p) as [option |] eqn:Hat.
  - rewrite (drop_S _ _ _ Hat). cbn [list_find].
    destruct (Option.willAcceptArgument option) eqn:Ho.
    + rewrite decide_True by reflexivity. cbn [fmap option_fmap option_map fst].
      rewrite Nat.add_0_r, set_mPosition_same. reflexivity.
    + rewrite decide_False by discriminate.
      rewrite next_accepting_find.
      destruct (list_find _ (drop (S (Parser.mPosition p)) (mPositional ap)))
        as [[j x] |]; cbn [fmap option_fmap option_map fst prod_map].
      * unfold bind, Parser.on_this.
        replace (Parser.mPosition p + S j)%nat with (S (Parser.mPosition p) + j)%nat by lia.
        reflexivity.
      * unfold bind, Parser.on_this, Parser.push_ignored, Parser.on_this.
        apply lookup_lt_Some in Hat. rewrite length_drop.
        replace (S (Parser.mPosition p) + (length (mPositional ap) - S (Parser.mPosition p)))%nat
          with (Nat.max (Parser.mPosition p) (length (mPositional ap))) by lia.
        reflexivity.
  - apply lookup_ge_None in Hat. rewrite drop_ge by exact Hat. cbn.
    unfold Parser.push_ignored, Parser.on_this.
    replace (Nat.max (Parser.mPosition p) (length (mPositional ap)))
      with (Parser.mPosition p) by lia.
    rewrite set_mPosition_same. reflexivity.
Qed.

Lemma for_each_routed (args : list string) :
  forall s, for_each args Parser.addFreeArgument s = for_each args routed s.
Proof.
  induction args as [| arg args IH]; intros s; [reflexivity |].
  cbn [for_each]. unfold bind. rewrite addFreeArgument_routed.
  destruct (routed arg s) as [[[] | e | n] s']; try reflexivity. apply IH.
Qed.

(** After [--] the tokens are routed, and no option is changed. *)
Lemma parse_routed (rest : list string) p ap st :
  Parser.mIgnoreOptions p = true ->
  exists p' ap' st',
    for_each rest Parser.parse_arg (p, (ap, st)) = (Ok tt, (p', (ap', st')))
    /\ for_each rest Parser.parse_arg (p, (ap, st))
       = for_each (List.filter (fun arg => negb (String.eqb arg "--")) rest)
                  routed (p, (ap, st))
    /\ mOptions ap' = mOptions ap
    /\ Parser.mpActiveOption p' = Parser.mpActiveOption p.
Proof.
  intros Hign.
  destruct (parse_ignoring rest p ap st Hign)
    as (p' & ap' & st' & Hrun & Heq & Hopts & Hact & _).
  exists p', ap', st'. split; [exact Hrun |]. split; [| split; [exact Hopts | exact Hact]].
  rewrite Heq. apply for_each_routed.
Qed.


(** C3.  Once [--] has been seen, a token is dropped when it is another [--]
    and is routed otherwise, whatever it looks like: it is set on the first
    positional, from the cursor on, that accepts an argument, or appended to
    the ignored arguments; no option is changed by it.  On
    [--value 5 -- --skipped], with [--value] taking exactly one argument,
    the converted [5] is stored for [--value], which is the only option that
    is assigned.  [--skipped] ends in the ignored arguments when no
    positional accepts an argument; otherwise it is set on the first
    positional that does, and stored in its variable when that positional
    has a plain scalar value that converts it. *)
Theorem C3_dashdash_ends_option_parsing :
  forall ap st (i : nat) option cell conv empty v,
    Parser.findOption "--value" ap = Some i ->
    mOptions ap !! i = Some option ->
    Option.mMinArgs option = 1 ->
    Option.mMaxArgs option = 1 ->
    Option.mChoices option = [] ->
    Option.mpAssignAction option = None ->
    Value.impl (Option.mpValue option) = Value.ConvertedValue cell conv empty ->
    conv "5" = inr v ->
    (forall (rest : list string) p ap0 st0,
        Parser.mIgnoreOptions p = true ->
        exists p' ap' st',
          for_each rest Parser.parse_arg (p, (ap0, st0)) = (Ok tt, (p', (ap', st')))
          /\ for_each rest Parser.parse_arg (p, (ap0, st0))
             = for_each (List.filter (fun arg => negb (String.eqb arg "--")) rest)
                        routed (p, (ap0, st0))
          /\ mOptions ap' = mOptions ap0)
    /\ (taking_positional Parser.make ap = None ->
        Parser.parse ["--value"; "5"; "--"; "--skipped"] (Parser.make, (ap, st))
        = (Ok {| ParseResult.ignoredArguments := ["--skipped"]; ParseResult.errors := [] |},
           (Parser.mk true (length (mPositional ap)) None
              {| ParseResult.ignoredArguments := ["--skipped"]; ParseResult.errors := [] |},
            (assign (in_mOptions i) (assigned_once (started option)) ap,
             <[cell := Scalar v]> st))))
    /\ (forall pos : nat,
          taking_positional Parser.make ap = Some pos ->
          exists p' ap' st',
            Parser.parse ["--value"; "5"; "--"; "--skipped"] (Parser.make, (ap, st))
            = (Ok (Parser.mResult p'), (p', (ap', st')))
            /\ Parser.setValue (in_mPositional pos) "--skipped"
                 (Parser.mk true pos None ParseResult.empty,
                  (assign (in_mOptions i) (assigned_once (started option)) ap,
                   <[cell := Scalar v]> st))
               = (Ok tt, (p', (ap', st')))
            /\ mOptions ap' = <[i := assigned_once (started option)]> (mOptions ap)
            /\ ParseResult.ignoredArguments (Parser.mResult p') = [])
    /\ (forall (pos : nat) positional cell' conv' empty' x,
          taking_positional Parser.make ap = Some pos ->
          mPositional ap !! pos = Some positional ->
          Option.mChoices positional = [] ->
          Option.mpAssignAction positional = None ->
          Value.impl (Option.mpValue positional) = Value.ConvertedValue cell' conv' empty' ->
          conv' "--skipped" = inr x ->
          Parser.parse ["--value"; "5"; "--"; "--skipped"] (Parser.make, (ap, st))
          = (Ok ParseResult.empty,
             (Parser.mk true pos None ParseResult.empty,
              (assign (in_mPositional pos) (assigned_once positional)
                 (assign (in_mOptions i) (assigned_once (started option)) ap),
               <[cell' := Scalar x]> (<[cell := Scalar v]> st))))).
Proof.
  intros ap st i option cell conv empty v Hfind Hopt Hmin Hmax Hch Hact Himpl Hconv.
  split.
  { intros rest p ap0 st0 Hign.
    destruct (parse_routed rest p ap0 st0 Hign)
      as (p' & ap' & st' & Hrun & Heq & Hopts & _).
    exists p', ap', st'. auto. }
  assert (deref (in_mOptions i) ap = option) as Hderef
    by (cbn [deref]; apply list_lookup_total_correct; exact Hopt).
  remember (assign (in_mOptions i) (started option) ap) as ap0 eqn:Hap0.
  assert (deref (in_mOptions i) ap0 = started option) as Hderef0
    by (subst ap0; apply (deref_assign_mOptions i option); exact Hopt).
  assert (mOptions ap0 !! i = Some (started option)) as Hopt0.
  { subst ap0. cbn [assign mOptions set_mOptions]. apply list_lookup_insert_eq.
    eapply lookup_lt_Some; eauto. }
  remember (assign (in_mOptions i) (assigned_once (started option)) ap0) as ap1 eqn:Hap1.
  assert (deref (in_mOptions i) ap1 = assigned_once (started option)) as Hderef1
    by (subst ap1; apply (deref_assign_mOptions i (started option)); exact Hopt0).
  assert (mOptions ap1 !! i = Some (assigned_once (started option))) as Hopt1.
  { subst ap1. cbn [assign mOptions set_mOptions]. apply list_lookup_insert_eq.
    eapply lookup_lt_Some; eauto. }
  assert (Option.willAcceptArgument (started option) = true) as Hyes.
  { unfold Option.willAcceptArgument. cbn. rewrite Hmax. reflexivity. }
  assert (Option.willAcceptArgument (assigned_once (started option)) = false) as Hno.
  { unfold Option.willAcceptArgument. cbn. rewrite Hmax. reflexivity. }
  assert (Option.needsMoreArguments (assigned_once (started option)) = false) as Hfull.
  { unfold Option.needsMoreArguments. cbn. rewrite Hmin. reflexivity. }
  (* --value *)
  assert (Parser.parse_arg "--value" (Parser.make, (ap, st))
          = (Ok tt, (Parser.set_mpActiveOption (Some i) Parser.make, (ap0, st)))) as Hstep1.
  { rewrite (parse_arg_option_token "--value" Parser.make (ap, st) eq_refl)
      by (discriminate || (left; reflexivity)).
    unfold Parser.startOption, bind.
    change (Parser.split_argument "--value") with ("--value", "").
    change (Parser.haveActiveOption Parser.make) with false. cbv iota beta.
    change ((ret tt : M (Parser.state TValue) unit) (Parser.make, (ap, st)))
      with (Ok tt, (Parser.make, (ap, st))).
    cbv iota beta. rewrite Hfind.
    rewrite onOptionStarted_at, Hderef, <- Hap0.
    unfold Parser.option_at at 1. rewrite Hderef0, Hyes. reflexivity. }
  (* 5 *)
  assert (Parser.parse_arg "5" (Parser.set_mpActiveOption (Some i) Parser.make, (ap0, st))
          = (Ok tt, (Parser.make, (ap1, <[cell := Scalar v]> st)))) as Hstep2.
  { unfold Parser.parse_arg.
    cbn [String.eqb Ascii.eqb Bool.eqb substring Parser.mIgnoreOptions
         Parser.set_mpActiveOption Parser.make Parser.mpActiveOption].
    unfold bind. unfold Parser.option_at at 1. rewrite Hderef0, Hyes.
    rewrite (Parser_setValue_scalar (in_mOptions i) "5" _ ap0 st cell conv empty v)
      by (rewrite ?Hderef0; assumption).
    rewrite Hderef0, <- Hap1.
    unfold Parser.option_at at 1. rewrite Hderef1, Hno. cbn [negb].
    rewrite (closeOption_spec (Parser.mk false 0 (Some i) ParseResult.empty) ap1 _ i
               (assigned_once (started option)) eq_refl Hopt1).
    rewrite Hfull, Hno. reflexivity. }
  assert (ap1 = assign (in_mOptions i) (assigned_once (started option)) ap) as Hap1'
    by (subst ap1 ap0; apply assign_assign_mOptions).
  assert (mPositional ap1 = mPositional ap) as Hpos by (rewrite Hap1'; reflexivity).
  (* the whole input, up to the routing of the last token *)
  assert (forall p' ap' st',
             routed "--skipped"
               (Parser.mk true 0 None ParseResult.empty, (ap1, <[cell := Scalar v]> st))
             = (Ok tt, (p', (ap', st'))) ->
             Parser.mpActiveOption p' = None ->
             Parser.parse ["--value"; "5"; "--"; "--skipped"] (Parser.make, (ap, st))
             = (Ok (Parser.mResult p'), (p', (ap', st')))) as Hparse.
  { intros p' ap' st' Hfree Hactive.
    unfold Parser.parse, bind. cbn [for_each]. unfold bind.
    change (Parser.on_this
              (fun p => Parser.set_mResult (ParseResult.clear (Parser.mResult p)) p)
              (Parser.make, (ap, st)))
      with (Ok tt, (Parser.make, (ap, st))).
    cbv iota beta. rewrite Hstep1, Hstep2.
    change (Parser.parse_arg "--" (Parser.make, (ap1, <[cell := Scalar v]> st)))
      with (Ok tt, (Parser.mk true 0 None ParseResult.empty,
                    (ap1, <[cell := Scalar v]> st))).
    cbv iota beta.
    rewrite parse_arg_ignoring by reflexivity.
    change (String.eqb "--skipped" "--") with false. cbv iota.
    rewrite addFreeArgument_routed, Hfree.
    change ((ret tt : M (Parser.state TValue) unit) (p', (ap', st')))
      with (Ok tt, (p', (ap', st'))).
    cbv iota beta.
    unfold Parser.haveActiveOption. rewrite Hactive.
    rewrite bool_decide_eq_false_2 by (intros H; apply H; reflexivity).
    reflexivity. }
  assert (taking_positional (Parser.mk true 0 None ParseResult.empty) ap1
          = taking_positional Parser.make ap) as Htaking
    by (unfold taking_positional; rewrite Hpos; reflexivity).
  split; [| split].
  - intros Hnone. rewrite <- Hap1'.
    apply (Hparse (Parser.mk true (length (mPositional ap)) None
                     {| ParseResult.ignoredArguments := ["--skipped"];
                        ParseResult.errors := [] |})); [| reflexivity].
    unfold routed. rewrite Htaking, Hnone, Hpos. reflexivity.
  - intros pos Hsome.
    destruct (Parser_setValue_spec (in_mPositional pos) "--skipped"
                (Parser.mk true pos None ParseResult.empty) ap1 (<[cell := Scalar v]> st))
      as (o' & st' & errs & Hset & _).
    exists (with_errors errs (Parser.mk true pos None ParseResult.empty)),
           (assign (in_mPositional pos) o' ap1), st'.
    split; [| split; [| split]].
    + apply Hparse; [| reflexivity].
      unfold routed. rewrite Htaking, Hsome. exact Hset.
    + rewrite <- Hap1'. exact Hset.
    + rewrite Hap1'. reflexivity.
    + reflexivity.
  - intros pos positional cell' conv' empty' x Hsome Hat Hch' Hact' Himpl' Hconv'.
    rewrite <- Hap1'.
    assert (deref (in_mPositional pos) ap1 = positional) as Hderef'.
    { cbn [deref]. rewrite Hpos. apply list_lookup_total_correct. exact Hat. }
    apply (Hparse (Parser.mk true pos None ParseResult.empty)); [| reflexivity].
    unfold routed. rewrite Htaking, Hsome.
    rewrite (Parser_setValue_scalar (in_mPositional pos) "--skipped" _ ap1 _
               cell' conv' empty' x) by (rewrite ?Hderef'; assumption).
    rewrite Hderef'. reflexivity.
Qed.


(** *** The steps of the parser on plain options

    A plain option has no choices and no action, and a scalar destination. *)

Lemma startOption_flag (name : string) p ap st (i : nat) option cell conv empty x :
  Parser.mpActiveOption p = None ->
  Parser.split_argument name = (name, "") ->
  Parser.findOption name ap = Some i ->
  mOptions ap !! i = Some option ->
  Option.mMaxArgs option = 0 ->
  Option.mChoices option = [] ->
  Option.mpAssignAction option = None ->
  Value.impl (Option.mpValue option) = Value.ConvertedValue cell conv empty ->
  conv (Option.getFlagValue option) = inr x ->
  Parser.startOption name (p, (ap, st))
  = (Ok tt, (p, (assign (in_mOptions i) (assigned_once (started option)) ap,
                 <[cell := Scalar x]> st))).
Proof.
  intros Hact Hsplit Hfind Hopt Hmax Hch Haction Himpl Hconv.
  assert (deref (in_mOptions i) ap = option) as Hderef
    by (cbn [deref]; apply list_lookup_total_correct; exact Hopt).
  remember (assign (in_mOptions i) (started option) ap) as ap0 eqn:Hap0.
  assert (deref (in_mOptions i) ap0 = started option) as Hderef0
    by (subst ap0; apply (deref_assign_mOptions i option); exact Hopt).
  assert (Option.willAcceptArgument (started option) = false) as Hno.
  { unfold Option.willAcceptArgument. cbn. rewrite Hmax. reflexivity. }
  unfold Parser.startOption, bind. rewrite Hsplit.
  unfold Parser.haveActiveOption. rewrite Hact.
  rewrite bool_decide_eq_false_2 by (intros H; apply H; reflexivity).
  change ((ret tt : M (Parser.state TValue) unit) (p, (ap, st))) with (Ok tt, (p, (ap, st))).
  cbv iota beta. rewrite Hfind.
  rewrite onOptionStarted_at, Hderef, <- Hap0.
  unfold Parser.option_at at 1. rewrite Hderef0, Hno.
  rewrite (Parser_setValue_scalar (in_mOptions i) _ p ap0 st cell conv empty x)
    by (rewrite ?Hderef0; assumption).
  rewrite Hderef0. subst ap0. rewrite assign_assign_mOptions. reflexivity.
Qed.

Lemma startOption_opens (name : string) p ap st (i : nat) option :
  Parser.mpActiveOption p = None ->
  Parser.split_argument name = (name, "") ->
  Parser.findOption name ap = Some i ->
  mOptions ap !! i = Some option ->
  0 < Option.mMaxArgs option ->
  Parser.startOption name (p, (ap, st))
  = (Ok tt, (Parser.set_mpActiveOption (Some i) p,
             (assign (in_mOptions i) (started option) ap, st))).
Proof.
  intros Hact Hsplit Hfind Hopt Hmax.
  assert (deref (in_mOptions i) ap = option) as Hderef
    by (cbn [deref]; apply list_lookup_total_correct; exact Hopt).
  remember (assign (in_mOptions i) (started option) ap) as ap0 eqn:Hap0.
  assert (deref (in_mOptions i) ap0 = started option) as Hderef0
    by (subst ap0; apply (deref_assign_mOptions i option); exact Hopt).
  assert (Option.willAcceptArgument (started option) = true) as Hyes.
  { unfold Option.willAcceptArgument. cbn. apply orb_true_iff. right.
    apply Z.ltb_lt. exact Hmax. }
  unfold Parser.startOption, bind. rewrite Hsplit.
  unfold Parser.haveActiveOption. rewrite Hact.
  rewrite bool_decide_eq_false_2 by (intros H; apply H; reflexivity).
  change ((ret tt : M (Parser.state TValue) unit) (p, (ap, st))) with (Ok tt, (p, (ap, st))).
  cbv iota beta. rewrite Hfind.
  rewrite onOptionStarted_at, Hderef, <- Hap0.
  unfold Parser.option_at at 1. rewrite Hderef0, Hyes. reflexivity.
Qed.

(** A token without a dash that is the last argument of the active
    option. *)
Lemma parse_arg_last_argument (arg : string) p ap st (i : nat) option cell conv empty x :
  Parser.mIgnoreOptions p = false ->
  Parser.mpActiveOption p = Some i ->
  substring 0 1 arg <> "-" ->
  mOptions ap !! i = Some option ->
  0 <= Value.mOptionAssignCount (Option.mpValue option) ->
  Option.mMaxArgs option = Value.mOptionAssignCount (Option.mpValue option) + 1 ->
  Option.mMinArgs option <= Option.mMaxArgs option ->
  Option.mChoices option = [] ->
  Option.mpAssignAction option = None ->
  Value.impl (Option.mpValue option) = Value.ConvertedValue cell conv empty ->
  conv arg = inr x ->
  Parser.parse_arg arg (p, (ap, st))
  = (Ok tt, (Parser.set_mpActiveOption None p,
             (assign (in_mOptions i) (assigned_once option) ap, <[cell := Scalar x]> st))).
Proof.
  intros Hign Hact Hdash Hopt Hcount Hmax Hmin Hch Haction Himpl Hconv.
  destruct (no_dash_token arg Hdash) as (E1 & E2 & E3).
  assert (deref (in_mOptions i) ap = option) as Hderef
    by (cbn [deref]; apply list_lookup_total_correct; exact Hopt).
  remember (assign (in_mOptions i) (assigned_once option) ap) as ap1 eqn:Hap1.
  assert (deref (in_mOptions i) ap1 = assigned_once option) as Hderef1
    by (subst ap1; apply (deref_assign_mOptions i option); exact Hopt).
  assert (mOptions ap1 !! i = Some (assigned_once option)) as Hopt1.
  { subst ap1. cbn [assign mOptions set_mOptions]. apply list_lookup_insert_eq.
    eapply lookup_lt_Some; eauto. }
  assert (Option.willAcceptArgument option = true) as Hyes.
  { unfold Option.willAcceptArgument, Value.getOptionAssignCount.
    apply orb_true_iff. right. apply Z.ltb_lt. lia. }
  assert (Option.willAcceptArgument (assigned_once option) = false) as Hno.
  { unfold Option.willAcceptArgument, Value.getOptionAssignCount.
    cbn [assigned_once Option.with_value Option.mMaxArgs Option.mpValue
         Value.mOptionAssignCount].
    apply orb_false_iff. split; apply Z.ltb_ge; lia. }
  assert (Option.needsMoreArguments (assigned_once option) = false) as Hfull.
  { unfold Option.needsMoreArguments, Value.getOptionAssignCount.
    cbn [assigned_once Option.with_value Option.mMinArgs Option.mpValue
         Value.mOptionAssignCount].
    apply Z.ltb_ge. lia. }
  unfold Parser.parse_arg. rewrite E1, E2, E3, Hign, Hact.
  unfold bind. unfold Parser.option_at at 1. rewrite Hderef, Hyes.
  rewrite (Parser_setValue_scalar (in_mOptions i) arg p ap st cell conv empty x)
    by (rewrite ?Hderef; assumption).
  rewrite Hderef, <- Hap1.
  unfold Parser.option_at at 1. rewrite Hderef1, Hno. cbn [negb].
  rewrite (closeOption_spec p ap1 _ i (assigned_once option) Hact Hopt1).
  rewrite Hfull, Hno. reflexivity.
Qed.

(** *** Every step of the parser keeps the definitions *)















End ParserFacts.

(** ** Parsing one registry repeatedly *)

Section ReparseFacts.
Context {TValue : Type}.
Implicit Types (ap : argument_parser.t TValue) (st : Store TValue)
  (w : argument_parser.state TValue).

Lemma parse_args_cases (args : list string) ap st :
  parse_args args (ap, st)
  = match fst (verifyDefinedOptions (with_default_help ap)) with
    | Ok _ => parse_prepared args (reset_state (with_default_help ap, st))
    | Raise e => (Raise e, (with_default_help ap, st))
    | Exit n => (Exit n, (with_default_help ap, st))
    end.
Proof.
  unfold parse_args, bind. rewrite install_default_help_spec.
  unfold on_registry, zoom. cbn [fst].
  pose proof (verifyDefinedOptions_state (with_default_help ap)) as Hstate.
  destruct (verifyDefinedOptions (with_default_help ap)) as [[[] | e | n] ap'];
    cbn [fst snd] in *; subst ap'; try reflexivity.
  rewrite resetValues_spec. reflexivity.
Qed.



Lemma reset_option_idem (o : Option.t TValue) : reset_option (reset_option o) = reset_option o.
Proof. reflexivity. Qed.






End ReparseFacts.


(** ** A cluster of short options *)

Section ClusterFacts.
Context {TValue : Type}.
Implicit Types (ap : argument_parser.t TValue) (st : Store TValue).

(** [parse_args] on a registry without a declared help option, when the
    arguments do not ask for help and the declarations are consistent. *)
Lemma parse_args_run (args : list string) ap st result p' ap' st' :
  mHelpOptionNames ap = ∅ ->
  "--help" ∉ args ->
  "-h" ∉ args ->
  declarations_verified ap ->
  Parser.parse args (Parser.make, reset_state (with_default_help ap, st))
  = (Ok result, (p', (ap', st'))) ->
  parse_args args (ap, st)
  = (Ok (reportMissingGroups ap'
           (reportExclusiveViolations ap' (reportMissingOptions ap' result))),
     (ap', st')).
Proof.
  intros Hnames Hlong Hshort Hok Hparse.
  rewrite parse_args_cases.
  rewrite verifyDefinedOptions_ok by (apply with_default_help_verified; exact Hok).
  cbn [fst]. unfold parse_prepared.
  destruct (reset_state (with_default_help ap, st)) as [ap1 st1] eqn:Hreset.
  assert (mHelpOptionNames ap1 = {["--help"]} ∪ {["-h"]}) as Hhelp.
  { apply (f_equal fst) in Hreset. cbn [fst] in Hreset. subst ap1.
    change (mHelpOptionNames (reset_registry (with_default_help ap)))
      with (mHelpOptionNames (with_default_help ap)).
    unfold with_default_help. rewrite bool_decide_eq_true_2 by exact Hnames.
    cbn [mHelpOptionNames set_mHelpOptionNames]. rewrite Hnames. set_solver. }
  assert (find_help_request args ap1 = None) as ->.
  { unfold find_help_request. rewrite Hhelp.
    assert (list_find (fun arg : string => arg ∈ ({["--help"]} ∪ {["-h"]} : gset string)) args
            = None) as ->; [| reflexivity].
    apply list_find_None. apply Forall_forall. intros x Hx Hin.
    apply elem_of_union in Hin. destruct Hin as [Hin | Hin];
      apply elem_of_singleton in Hin; subst x; contradiction. }
  rewrite Hparse. reflexivity.
Qed.

Ltac not_among :=
  repeat (apply not_elem_of_cons; split; [discriminate |]); apply not_elem_of_nil.

Section Cluster.
Variables (conv_a conv_b conv_d : Value.converter_t TValue).
Variables (ea eb ed va vb vd v : TValue) (fa fb fd : string).
Hypothesis Ha : conv_a fa = inr va.
Hypothesis Hb : conv_b fb = inr vb.
Hypothesis Hd : conv_d fd = inr vd.
Hypothesis H4 : conv_d "4213" = inr v.

Lemma cluster_of_flags st :
  exists ap' st',
    parse_args ["-abd"] (snd (Examples.declare_flags conv_a conv_b conv_d ea eb ed fa fb fd false make), st)
    = (Ok ParseResult.empty, (ap', st'))
    /\ List.map (fun o => (Option.getName o, Value.mAssignCount (Option.mpValue o))) (mOptions ap')
       = [("-a", 1); ("-b", 1); ("-d", 1); ("--help", 0)]
    /\ st' !! 0%nat = Some (Scalar va)
    /\ st' !! 1%nat = Some (Scalar vb)
    /\ st' !! 2%nat = Some (Scalar vd).
Proof.
  remember (snd (Examples.declare_flags conv_a conv_b conv_d ea eb ed fa fb fd false make)) as ap eqn:Hap.
  cbv in Hap.
  assert (exists p' ap' st',
             Parser.parse ["-abd"] (Parser.make, reset_state (with_default_help ap, st))
             = (Ok ParseResult.empty, (p', (ap', st')))
             /\ reportMissingGroups ap'
                  (reportExclusiveViolations ap' (reportMissingOptions ap' ParseResult.empty))
                = ParseResult.empty
             /\ List.map (fun o => (Option.getName o, Value.mAssignCount (Option.mpValue o))) (mOptions ap')
                = [("-a", 1); ("-b", 1); ("-d", 1); ("--help", 0)]
             /\ st' = <[2%nat := Scalar vd]> (<[1%nat := Scalar vb]> (<[0%nat := Scalar va]>
                        (reset_store (with_default_help ap) st)))) as Hparse.
  { unfold Parser.parse, bind. cbn [for_each]. unfold bind.
    change (Parser.on_this (fun p => Parser.set_mResult (ParseResult.clear (Parser.mResult p)) p)
              (Parser.make, reset_state (with_default_help ap, st)))
      with (Ok tt, (Parser.make, reset_state (with_default_help ap, st))).
    cbv iota beta.
    change (Parser.parse_arg "-abd" (Parser.make, reset_state (with_default_help ap, st)))
      with (for_each ["a"; "b"; "d"]%char (fun c => Parser.startOption (String "-" (String c "")))
              (Parser.make, reset_state (with_default_help ap, st))).
    cbn [for_each]. unfold bind. unfold reset_state. cbn [fst snd].
    subst ap.
    erewrite (startOption_flag "-a" _ _ _ 0%nat) by first [exact Ha | reflexivity].
    erewrite (startOption_flag "-b" _ _ _ 1%nat) by first [exact Hb | reflexivity].
    erewrite (startOption_flag "-d" _ _ _ 2%nat) by first [exact Hd | reflexivity].
    cbv iota beta.
    do 3 eexists. split; [reflexivity |].
    split; [reflexivity |]. split; reflexivity. }
  destruct Hparse as (p' & ap' & st' & Hparse & Hvalid & Hopts & Hst).
  exists ap', st'. split; [| split; [exact Hopts |]].
  - assert (mHelpOptionNames ap = ∅) as Hnames by (subst ap; reflexivity).
    assert (declarations_verified ap) as Hok by (subst ap; repeat constructor).
    rewrite (parse_args_run ["-abd"] ap st _ _ _ _ Hnames
               ltac:(not_among) ltac:(not_among) Hok Hparse).
    rewrite Hvalid. reflexivity.
  - subst st'. split; [| split].
    + rewrite lookup_insert_ne, lookup_insert_ne, lookup_insert_eq by lia. reflexivity.
    + rewrite lookup_insert_ne, lookup_insert_eq by lia. reflexivity.
    + apply lookup_insert_eq.
Qed.

Lemma cluster_with_argument st :
  exists ap' st',
    parse_args ["-abd"; "4213"] (snd (Examples.declare_flags conv_a conv_b conv_d ea eb ed fa fb fd true make), st)
    = (Ok ParseResult.empty, (ap', st'))
    /\ List.map (fun o => (Option.getName o, Value.mAssignCount (Option.mpValue o))) (mOptions ap')
       = [("-a", 1); ("-b", 1); ("-d", 1); ("--help", 0)]
    /\ st' !! 0%nat = Some (Scalar va)
    /\ st' !! 1%nat = Some (Scalar vb)
    /\ st' !! 2%nat = Some (Scalar v).
Proof.
  remember (snd (Examples.declare_flags conv_a conv_b conv_d ea eb ed fa fb fd true make)) as ap eqn:Hap.
  cbv in Hap.
  assert (exists p' ap' st',
             Parser.parse ["-abd"; "4213"] (Parser.make, reset_state (with_default_help ap, st))
             = (Ok ParseResult.empty, (p', (ap', st')))
             /\ reportMissingGroups ap'
                  (reportExclusiveViolations ap' (reportMissingOptions ap' ParseResult.empty))
                = ParseResult.empty
             /\ List.map (fun o => (Option.getName o, Value.mAssignCount (Option.mpValue o))) (mOptions ap')
                = [("-a", 1); ("-b", 1); ("-d", 1); ("--help", 0)]
             /\ st' = <[2%nat := Scalar v]> (<[1%nat := Scalar vb]> (<[0%nat := Scalar va]>
                        (reset_store (with_default_help ap) st)))) as Hparse.
  { unfold Parser.parse, bind. cbn [for_each]. unfold bind.
    change (Parser.on_this (fun p => Parser.set_mResult (ParseResult.clear (Parser.mResult p)) p)
              (Parser.make, reset_state (with_default_help ap, st)))
      with (Ok tt, (Parser.make, reset_state (with_default_help ap, st))).
    cbv iota beta.
    change (Parser.parse_arg "-abd" (Parser.make, reset_state (with_default_help ap, st)))
      with (for_each ["a"; "b"; "d"]%char (fun c => Parser.startOption (String "-" (String c "")))
              (Parser.make, reset_state (with_default_help ap, st))).
    cbn [for_each]. unfold bind. unfold reset_state. cbn [fst snd].
    subst ap.
    erewrite (startOption_flag "-a" _ _ _ 0%nat) by first [exact Ha | reflexivity].
    erewrite (startOption_flag "-b" _ _ _ 1%nat) by first [exact Hb | reflexivity].
    erewrite (startOption_opens "-d" _ _ _ 2%nat) by first [reflexivity | (cbn; lia)].
    cbv beta iota delta [ret].
    erewrite (parse_arg_last_argument "4213" _ _ _ 2%nat)
      by first [exact H4 | reflexivity | discriminate | (cbn; lia)].
    cbv iota beta.
    do 3 eexists. split; [reflexivity |].
    split; [reflexivity |]. split; reflexivity. }
  destruct Hparse as (p' & ap' & st' & Hparse & Hvalid & Hopts & Hst).
  exists ap', st'. split; [| split; [exact Hopts |]].
  - assert (mHelpOptionNames ap = ∅) as Hnames by (subst ap; reflexivity).
    assert (declarations_verified ap) as Hok by (subst ap; repeat constructor).
    rewrite (parse_args_run ["-abd"; "4213"] ap st _ _ _ _ Hnames
               ltac:(not_among) ltac:(not_among) Hok Hparse).
    rewrite Hvalid. reflexivity.
  - subst st'. split; [| split].
    + rewrite lookup_insert_ne, lookup_insert_ne, lookup_insert_eq by lia. reflexivity.
    + rewrite lookup_insert_ne, lookup_insert_eq by lia. reflexivity.
    + apply lookup_insert_eq.
Qed.

(** C2.  With [-a], [-b] and [-d] declared as options without arguments, the
    token [-abd] assigns each of them, once, the conversion of its flag
    value.  With [-d] declared to take exactly one argument, [-abd 4213]
    assigns the conversion of [4213] to [-d] and nothing else to it, and
    [-a] and [-b] get their flag values.  Neither parse reports an error or
    leaves a free argument. *)
Theorem C2_short_option_cluster :
  forall st,
    (exists ap' st',
        parse_args ["-abd"]
          (snd (Examples.declare_flags conv_a conv_b conv_d ea eb ed fa fb fd false make), st)
        = (Ok ParseResult.empty, (ap', st'))
        /\ List.map (fun o => (Option.getName o, Value.mAssignCount (Option.mpValue o)))
                    (mOptions ap')
           = [("-a", 1); ("-b", 1); ("-d", 1); ("--help", 0)]
        /\ st' !! 0%nat = Some (Scalar va)
        /\ st' !! 1%nat = Some (Scalar vb)
        /\ st' !! 2%nat = Some (Scalar vd))
    /\ (exists ap' st',
          parse_args ["-abd"; "4213"]
            (snd (Examples.declare_flags conv_a conv_b conv_d ea eb ed fa fb fd true make), st)
          = (Ok ParseResult.empty, (ap', st'))
          /\ List.map (fun o => (Option.getName o, Value.mAssignCount (Option.mpValue o)))
                      (mOptions ap')
             = [("-a", 1); ("-b", 1); ("-d", 1); ("--help", 0)]
          /\ st' !! 0%nat = Some (Scalar va)
          /\ st' !! 1%nat = Some (Scalar vb)
          /\ st' !! 2%nat = Some (Scalar v)).
Proof.
  intros st. split; [apply cluster_of_flags | apply cluster_with_argument].
Qed.
End Cluster.
End ClusterFacts.

(** * Further properties of the registry and of the parser *)

(** ** Strings and tokens *)

Section StringFacts.

Lemma find_eq_cons (c : ascii) (s : string) :
  find_eq (String c s)
  = if Ascii.eqb c "=" then Some 0%nat else S <$> find_eq s.
Proof.
  unfold find_eq.
  change (index 0 "=" (String c s))
    with (if (if ascii_dec "=" c then String.prefix "" s else false) then Some 0%nat
          else match index 0 "=" s with Some n => Some (S n) | None => None end).
  destruct (ascii_dec "=" c) as [<- | Hne].
  - destruct s; reflexivity.
  - destruct (Ascii.eqb_spec c "="); [congruence |].
    destruct (index 0 "=" s); reflexivity.
Qed.

Lemma append_empty (s : string) : "" +:+ s = s.
Proof. reflexivity. Qed.

Lemma append_String (c : ascii) (s t : string) : String c s +:+ t = String c (s +:+ t).
Proof. reflexivity. Qed.

Lemma append_empty_r (s : string) : s +:+ "" = s.
Proof. induction s as [| c s IH]; [reflexivity |]. rewrite append_String, IH. reflexivity. Qed.

Lemma append_assoc (s t u : string) : (s +:+ t) +:+ u = s +:+ (t +:+ u).
Proof.
  induction s as [| c s IH]; [reflexivity |]. rewrite !append_String, IH. reflexivity.
Qed.

Lemma append_nonempty (s t : string) : t <> "" -> String.eqb (s +:+ t) "" = false.
Proof.
  intros Ht. destruct s as [| c s]; [| reflexivity].
  destruct t; [contradiction | reflexivity].
Qed.

Lemma find_eq_join (name value : string) :
  find_eq name = None ->
  find_eq (name +:+ String "=" value) = Some (String.length name).
Proof.
  induction name as [| c name IH]; intros Hnone.
  - rewrite append_empty, find_eq_cons. reflexivity.
  - rewrite find_eq_cons in Hnone. rewrite append_String. cbn [String.length].
    rewrite find_eq_cons.
    destruct (Ascii.eqb c "="); [discriminate |].
    destruct (find_eq name); [discriminate |].
    rewrite IH by reflexivity. reflexivity.
Qed.

Lemma substring_zero (s : string) : substring 0 0 s = "".
Proof. destruct s; reflexivity. Qed.

Lemma substring_prefix (name rest : string) :
  substring 0 (String.length name) (name +:+ rest) = name.
Proof.
  induction name as [| c name IH].
  - rewrite append_empty. apply substring_zero.
  - rewrite append_String. cbn [String.length substring]. rewrite IH. reflexivity.
Qed.

Lemma substring_all (s : string) : substring 0 (String.length s) s = s.
Proof. induction s as [| c s IH]; cbn; [reflexivity | rewrite IH; reflexivity]. Qed.

Lemma substr_from_suffix (name value : string) :
  substr_from (String.length name + 1) (name +:+ String "=" value) = value.
Proof.
  unfold substr_from.
  induction name as [| c name IH].
  - rewrite append_empty. cbn. rewrite Nat.sub_0_r. apply substring_all.
  - rewrite append_String. exact IH.
Qed.

(** X12.  [startOption] splits a token at its first [=]: a name without [=]
    joined to a value by [=] is split into that name and that value
    (which can have further [=]), and a token without [=] is a name with
    an empty value. *)
Theorem split_argument_round_trip :
  forall (name value : string),
    find_eq name = None ->
    Parser.split_argument (name +:+ "=" +:+ value) = (name, value)
    /\ Parser.split_argument name = (name, "").
Proof.
  intros name value Hnone. unfold Parser.split_argument. split.
  - change (name +:+ "=" +:+ value) with (name +:+ String "=" value).
    rewrite (find_eq_join name value Hnone).
    rewrite substring_prefix, substr_from_suffix. reflexivity.
  - rewrite Hnone. reflexivity.
Qed.
End StringFacts.

(** ** The builder *)

Section DeclarationFacts.
Context {TValue : Type}.
Implicit Types (ap : argument_parser.t TValue) (o : Option.t TValue).

(** X1.  [tryAddArgument] never touches what was declared before: whatever
    the names are, it leaves the registry as it was or pushes one option at
    the back of [mOptions] or of [mPositional].  When it returns, the handle
    refers to that new option and no count was set through it. *)
Theorem tryAddArgument_extends :
  forall ap (newOption : Option.t TValue) (names : list string),
  exists lo lp,
    snd (tryAddArgument newOption names ap)
    = set_mPositional (mPositional ap ++ lp) (set_mOptions (mOptions ap ++ lo) ap)
    /\ (length lo + length lp <= 1)%nat
    /\ forall c, fst (tryAddArgument newOption names ap) = Ok c ->
         (length lo + length lp = 1)%nat
         /\ OptionConfig.mCountWasSet c = false
         /\ Some (deref (OptionConfig.mOptions c (OptionConfig.mIndex c))
                    (snd (tryAddArgument newOption names ap)))
            = last (lo ++ lp).
Proof.
  intros ap newOption names. unfold tryAddArgument.
  set (names' := List.filter (fun name => negb (String.eqb name "")) names).
  assert (forall ap, set_mPositional (mPositional ap ++ []) (set_mOptions (mOptions ap ++ []) ap) = ap)
    as Hsame by (intros [? ? ? ? ? ?]; cbn; rewrite !app_nil_r; reflexivity).
  destruct ap as [cfg opts pos helps groups active].
  destruct (bool_decide (names' = [])).
  { exists [], []. rewrite Hsame. split; [reflexivity |]. split; [cbn; lia |]. discriminate. }
  destruct (existsb (string_exists isspace) names').
  { exists [], []. rewrite Hsame. split; [reflexivity |]. split; [cbn; lia |]. discriminate. }
  destruct (isPositional names').
  { cbn [mPositional set_mPositional mpActiveGroup deref assign fst snd].
    rewrite back_of_push, list_lookup_total_middle by reflexivity.
    rewrite push_then_store_back.
    eexists [], [_]. split.
    - unfold set_mOptions, set_mPositional; cbn. rewrite app_nil_r. reflexivity.
    - split; [cbn; lia |]. intros c [= <-]. split; [reflexivity |]. split; [reflexivity |].
      cbn [OptionConfig.mOptions OptionConfig.mIndex deref mPositional set_mPositional].
      rewrite list_lookup_total_middle by reflexivity. reflexivity. }
  destruct (isOption names').
  { cbn [mOptions set_mOptions mpActiveGroup deref assign fst snd].
    rewrite back_of_push, list_lookup_total_middle by reflexivity.
    destruct (trySetNames names' newOption) as [[u | e | n] option];
      cbn [fst snd assign mOptions set_mOptions]; rewrite push_then_store_back;
      eexists [_], []; (split; [unfold set_mOptions, set_mPositional; cbn; rewrite app_nil_r; reflexivity |]);
      (split; [cbn; lia |]); try discriminate.
    intros c [= <-]. split; [reflexivity |]. split; [reflexivity |].
    cbn [OptionConfig.mOptions OptionConfig.mIndex deref mOptions set_mOptions].
    rewrite list_lookup_total_middle by reflexivity. reflexivity. }
  exists [], []. rewrite Hsame. split; [reflexivity |]. split; [cbn; lia |]. discriminate.
Qed.

Lemma findOption_push (name : string) ap o :
  Parser.findOption name (set_mOptions (mOptions ap ++ [o]) ap)
  = match Parser.findOption name ap with
    | Some i => Some i
    | None => if Option.hasName name o then Some (length (mOptions ap)) else None
    end.
Proof.
  unfold Parser.findOption. cbn [mOptions set_mOptions].
  induction (mOptions ap) as [| x l IH]; cbn.
  - destruct (Option.hasName name o); reflexivity.
  - destruct (Option.hasName name x); cbn; [reflexivity |].
    destruct (list_find _ (l ++ [o])) as [[i y] |], (list_find _ l) as [[j z] |];
      cbn in *; destruct (decide False) as [[] | _];
      destruct (Option.hasName name o); cbn in *; congruence.
Qed.

Lemma short_name_facts (c : ascii) :
  c <> "-"%char ->
  let short := String "-" (String c "") in
  String.eqb short "--" = false /\ substring 0 2 short = short.
Proof.
  intros Hc. cbn. split; [| reflexivity].
  destruct (Ascii.eqb_spec c "-"); [contradiction | reflexivity].
Qed.

Lemma short_name_is_set (c : ascii) o :
  c <> "-"%char ->
  let name := String "-" (String c "") in
  (if String.eqb name "" || String.eqb name "-" || String.eqb name "--"
      || negb (has_dash name)
   then ret tt
   else if String.eqb (substring 0 2 name) "--" then
     modify (Option.setLongName name)
   else if String.eqb (substring 0 1 name) "-" then
     if (2 <? String.length name)%nat then
       raise (std_invalid_argument "Short option name has too many characters.")
     else modify (Option.setShortName name)
   else ret tt) o
  = (Ok tt, Option.setShortName name o).
Proof.
  intros Hc. cbn.
  destruct (Ascii.eqb_spec c "-"); [contradiction | reflexivity].
Qed.

Lemma long_name_is_set (long : string) o :
  long <> "" ->
  let name := String "-" (String "-" long) in
  (if String.eqb name "" || String.eqb name "-" || String.eqb name "--"
      || negb (has_dash name)
   then ret tt
   else if String.eqb (substring 0 2 name) "--" then
     modify (Option.setLongName name)
   else if String.eqb (substring 0 1 name) "-" then
     if (2 <? String.length name)%nat then
       raise (std_invalid_argument "Short option name has too many characters.")
     else modify (Option.setShortName name)
   else ret tt) o
  = (Ok tt, Option.setLongName name o).
Proof.
  intros Hlong. destruct long as [| a long]; [contradiction |]. 
  cbn. rewrite ?substring_zero. reflexivity.
Qed.

Lemma refused_short_name (c : ascii) (rest : string) (names : list string) o :
  c <> "-"%char ->
  rest <> "" ->
  trySetNames (String "-" (String c rest) :: names) o
  = (Raise (std_invalid_argument "Short option name has too many characters."), o).
Proof.
  intros Hc Hrest. destruct rest as [| b rest]; [contradiction |].
  unfold trySetNames. cbn.
  destruct (Ascii.eqb_spec c "-"); [contradiction | reflexivity].
Qed.

Lemma trySetNames_cons (name : string) (names : list string) o :
  trySetNames (name :: names) o
  = match
      (if String.eqb name "" || String.eqb name "-" || String.eqb name "--"
          || negb (has_dash name)
       then ret tt
       else if String.eqb (substring 0 2 name) "--" then
         modify (Option.setLongName name)
       else if String.eqb (substring 0 1 name) "-" then
         if (2 <? String.length name)%nat then
           raise (std_invalid_argument "Short option name has too many characters.")
         else modify (Option.setShortName name)
       else ret tt) o
    with
    | (Ok _, o') => trySetNames names o'
    | (Raise e, o') => (Raise e, o')
    | (Exit n, o') => (Exit n, o')
    end.
Proof.
  unfold trySetNames. cbn [for_each]. unfold bind.
  match goal with |- context [match ?step o with _ => _ end] => destruct (step o) as [[[] | e | n] o'] end;
    reflexivity.
Qed.

(** X2.  When all the names have a dash but [trySetNames] refuses them,
    [add_argument] throws [std::invalid_argument] after the new option was
    pushed, and nothing takes it away: the option stays at the back of
    [mOptions] with the names that were set before the refusal.  It has no
    name when the refused name (a short name of more than two characters)
    comes first, alone or after [-] or [--], and when there is nothing but
    [-] and [--]; after a name that was accepted, the option that is left
    has that name, and the parser finds it under it. *)
Theorem rejected_option_name_leaves_option :
  forall ap (value : Value.kind TValue) (c : ascii) (rest : string),
    c <> "-"%char ->
    rest <> "" ->
    string_exists isspace (String c rest) = false ->
    let refused := String "-" (String c rest) in
    let too_long := std_invalid_argument "Short option name has too many characters." in
    let left_with := fun o => set_mOptions (mOptions ap ++ [o]) ap in
    (forall altName : string,
        altName = "" \/ has_dash altName = true ->
        string_exists isspace altName = false ->
        add_argument value refused altName ap
        = (Raise too_long, left_with (Option.make value)))
    /\ (forall name : string,
          name = "" \/ name = "-" \/ name = "--" ->
          add_argument value name refused ap
          = (Raise too_long, left_with (Option.make value)))
    /\ (forall long : string,
          long <> "" ->
          string_exists isspace long = false ->
          let name := String "-" (String "-" long) in
          add_argument value name refused ap
          = (Raise too_long, left_with (Option.setLongName name (Option.make value)))
          /\ (Parser.findOption name ap = None ->
              Parser.findOption name
                (left_with (Option.setLongName name (Option.make value)))
              = Some (length (mOptions ap))))
    /\ (forall c' : ascii,
          c' <> "-"%char ->
          isspace c' = false ->
          let name := String "-" (String c' "") in
          add_argument value name refused ap
          = (Raise too_long, left_with (Option.setShortName name (Option.make value)))
          /\ (Parser.findOption name ap = None ->
              Parser.findOption name
                (left_with (Option.setShortName name (Option.make value)))
              = Some (length (mOptions ap))))
    /\ (forall name altName : string,
          name ∈ [""; "-"; "--"] ->
          altName ∈ [""; "-"; "--"] ->
          (name = "" -> altName <> "") ->
          add_argument value name altName ap
          = (Raise (std_invalid_argument "An option must have a name."),
             left_with (Option.make value))).
Proof.
  intros ap value c rest Hc Hrest Hspace refused too_long left_with.
  assert (string_exists isspace refused = false) as Hspace' by exact Hspace.
  assert (forall b : bool, b || false = b) as Hor by (intros []; reflexivity).
  split; [| split; [| split; [| split]]].
  - intros altName Hdash Hspace2. unfold add_argument.
    destruct altName as [| a alt].
    + rewrite tryAddArgument_option.
      * change (List.filter _ [refused; ""]) with [refused].
        unfold refused. rewrite refused_short_name by assumption. reflexivity.
      * discriminate.
      * change (List.filter _ [refused; ""]) with [refused].
        cbn [existsb]. rewrite Hspace'. reflexivity.
      * reflexivity.
      * reflexivity.
    + destruct Hdash as [Hdash | Hdash]; [discriminate Hdash |].
      rewrite tryAddArgument_option.
      * change (List.filter _ [refused; String a alt]) with [refused; String a alt].
        unfold refused. rewrite refused_short_name by assumption. reflexivity.
      * discriminate.
      * change (List.filter _ [refused; String a alt]) with [refused; String a alt].
        cbn [existsb]. rewrite Hspace', Hspace2. reflexivity.
      * reflexivity.
      * change (List.filter _ [refused; String a alt]) with [refused; String a alt].
        unfold isOption. cbn [forallb]. rewrite Hdash. reflexivity.
  - assert (forall name : string,
               name = "-" \/ name = "--" ->
               List.filter (fun name => negb (String.eqb name "")) [name; refused]
               = [name; refused]) as Hfilter
      by (intros name [-> | ->]; reflexivity).
    intros name [-> | Hname]; unfold add_argument.
    { rewrite tryAddArgument_option.
      - change (List.filter _ [""; refused]) with [refused].
        unfold refused. rewrite refused_short_name by assumption. reflexivity.
      - discriminate.
      - change (List.filter _ [""; refused]) with [refused].
        cbn [existsb]. rewrite Hspace'. reflexivity.
      - reflexivity.
      - reflexivity. }
    rewrite tryAddArgument_option; rewrite ?(Hfilter name Hname).
    + rewrite trySetNames_cons.
      destruct Hname as [-> | ->]; cbn [String.eqb Ascii.eqb Bool.eqb orb]; unfold ret;
        unfold refused; rewrite refused_short_name by assumption; reflexivity.
    + discriminate.
    + cbn [existsb]. rewrite Hspace'. destruct Hname as [-> | ->]; reflexivity.
    + destruct Hname as [-> | ->]; reflexivity.
    + destruct Hname as [-> | ->]; reflexivity.
  - intros long Hlong Hspace2 name.
    assert (add_argument value name refused ap
            = (Raise too_long, left_with (Option.setLongName name (Option.make value))))
      as Hrun.
    { unfold add_argument. rewrite tryAddArgument_option.
      - change (List.filter _ [name; refused]) with [name; refused].
        rewrite trySetNames_cons.
        rewrite (long_name_is_set long _ Hlong).
        unfold refused. rewrite refused_short_name by assumption. reflexivity.
      - discriminate.
      - change (List.filter _ [name; refused]) with [name; refused].
        cbn [existsb]. rewrite Hspace'.
        change (string_exists isspace name) with (string_exists isspace long).
        rewrite Hspace2. reflexivity.
      - reflexivity.
      - reflexivity. }
    split; [exact Hrun |].
    intros Hnone. unfold left_with. rewrite findOption_push, Hnone.
    unfold Option.hasName. cbn [Option.mLongName Option.setLongName].
    rewrite String.eqb_refl, orb_true_r. reflexivity.
  - intros c' Hc' Hspace2 name.
    assert (add_argument value name refused ap
            = (Raise too_long, left_with (Option.setShortName name (Option.make value))))
      as Hrun.
    { unfold add_argument. rewrite tryAddArgument_option.
      - change (List.filter _ [name; refused]) with [name; refused].
        rewrite trySetNames_cons.
        rewrite (short_name_is_set c' _ Hc').
        unfold refused. rewrite refused_short_name by assumption. reflexivity.
      - discriminate.
      - change (List.filter _ [name; refused]) with [name; refused].
        cbn [existsb]. rewrite Hspace'.
        change (string_exists isspace name) with (isspace c' || false).
        rewrite Hspace2. reflexivity.
      - reflexivity.
      - reflexivity. }
    split; [exact Hrun |].
    intros Hnone. unfold left_with. rewrite findOption_push, Hnone.
    unfold Option.hasName. cbn [Option.mShortName Option.setShortName].
    rewrite String.eqb_refl. reflexivity.
  - intros name altName Hname Halt Hsome. unfold add_argument.
    assert (forall x : string, x ∈ [""; "-"; "--"] -> x = "" \/ x = "-" \/ x = "--")
      as Hcases.
    { intros x Hx. repeat (apply elem_of_cons in Hx as [-> | Hx]; [auto |]).
      apply elem_of_nil in Hx. contradiction. }
    apply Hcases in Hname as Hn. apply Hcases in Halt as Ha.
    destruct Hn as [-> | [-> | ->]]; destruct Ha as [-> | [-> | ->]];
      try (exfalso; apply Hsome; reflexivity);
      rewrite tryAddArgument_option; first [reflexivity | discriminate].
Qed.

(** X3.  An option declared with a short name [-c] and a long name
    [--long] is found by [findOption] under both names, unless an option
    declared earlier has the name: then the earlier one is still the one
    that is found.  The option is put in the active group, if there is
    one. *)
Theorem add_argument_then_findOption :
  forall ap (value : Value.kind TValue) (c : ascii) (long : string),
    c <> "-"%char ->
    isspace c = false ->
    long <> "" ->
    string_exists isspace long = false ->
    let short := String "-" (String c "") in
    let long' := String "-" (String "-" long) in
    exists option,
      add_argument value short long' ap
      = (Ok (OptionConfig.mk in_mOptions (length (mOptions ap)) false),
         set_mOptions (mOptions ap ++ [option]) ap)
      /\ option
         = (match mpActiveGroup ap with
            | Some _ => Option.setGroup (mpActiveGroup ap)
            | None => fun o => o
            end) (Option.setLongName long' (Option.setShortName short (Option.make value)))
      /\ forall name,
          name = short \/ name = long' ->
          Parser.findOption name (set_mOptions (mOptions ap ++ [option]) ap)
          = match Parser.findOption name ap with
            | Some i => Some i
            | None => Some (length (mOptions ap))
            end.
Proof.
  intros ap value c long Hc Hspace Hlong Hspaces short long'.
  unfold add_argument.
  rewrite tryAddArgument_option.
  - change (List.filter _ [short; long']) with [short; long'].
    unfold trySetNames. cbn [for_each]. unfold bind at 1. unfold bind at 1.
    rewrite (short_name_is_set c _ Hc).
    unfold bind at 1. fold short. rewrite (long_name_is_set long _ Hlong).
    cbv beta iota delta [ret]. fold long'.
    assert (String.eqb (Option.getName
              (Option.setLongName long' (Option.setShortName short (Option.make value)))) ""
            = false) as -> by reflexivity.
    eexists. split; [reflexivity |]. split.
    + destruct (mpActiveGroup ap); reflexivity.
    + intros name Hname. rewrite findOption_push.
      destruct (Parser.findOption name ap); [reflexivity |].
      assert (Option.hasName name
                (match mpActiveGroup ap with
                 | Some _ =>
                     Option.setGroup (mpActiveGroup ap)
                       (Option.setLongName long' (Option.setShortName short (Option.make value)))
                 | None => Option.setLongName long' (Option.setShortName short (Option.make value))
                 end) = true) as ->; [| reflexivity].
      destruct (mpActiveGroup ap); unfold Option.hasName; cbn [Option.mShortName Option.mLongName Option.setGroup Option.setLongName Option.setShortName Option.make];
        destruct Hname as [-> | ->]; rewrite String.eqb_refl; auto using orb_true_r.
  - discriminate.
  - change (List.filter _ [short; long']) with [short; long'].
    cbn. rewrite Hspace, Hspaces. reflexivity.
  - reflexivity.
  - reflexivity.
Qed.

(** X6.  Of [nargs], [minargs] and [maxargs] one call can be made through
    an [OptionConfig]: the first call returns with the counts set, and any
    second call, of the same method or of another, throws
    [std::invalid_argument] and changes nothing. *)
Theorem count_is_set_at_most_once :
  forall (first second : Z -> M (OptionConfig.state TValue) unit) (a b : Z)
         (c : OptionConfig.t) ap,
    first ∈ count_setters ->
    second ∈ count_setters ->
    OptionConfig.mCountWasSet c = false ->
    exists ap1,
      first a (c, ap)
      = (Ok tt, (OptionConfig.mk (OptionConfig.mOptions c) (OptionConfig.mIndex c) true, ap1))
      /\ second b (OptionConfig.mk (OptionConfig.mOptions c) (OptionConfig.mIndex c) true, ap1)
         = (Raise (std_invalid_argument "Only one of nargs, minargs and maxargs can be used."),
            (OptionConfig.mk (OptionConfig.mOptions c) (OptionConfig.mIndex c) true, ap1))
      /\ configure c (first a ;;; second b) ap
         = (Raise (std_invalid_argument "Only one of nargs, minargs and maxargs can be used."),
            ap1).
Proof.
  intros first second a b c ap Hfirst Hsecond Hc.
  unfold count_setters in *.
  apply elem_of_cons in Hfirst as [-> | Hfirst];
    [| apply elem_of_cons in Hfirst as [-> | Hfirst];
       [| apply elem_of_cons in Hfirst as [-> | Hfirst]; [| inversion Hfirst]]];
  (apply elem_of_cons in Hsecond as [-> | Hsecond];
    [| apply elem_of_cons in Hsecond as [-> | Hsecond];
       [| apply elem_of_cons in Hsecond as [-> | Hsecond]; [| inversion Hsecond]]]);
  (eexists; split; [| split];
   [unfold OptionConfig.nargs, OptionConfig.minargs, OptionConfig.maxargs, bind,
      OptionConfig.ensureCountWasNotSet; rewrite Hc; reflexivity
   | reflexivity
   | unfold configure, OptionConfig.nargs, OptionConfig.minargs, OptionConfig.maxargs, bind,
      OptionConfig.ensureCountWasNotSet; rewrite Hc; reflexivity]).
Qed.

(** X7.  After [setNArgs], [setMinArgs] or [setMaxArgs], with any count, the
    minimum is not negative and not above a bounded maximum; so an option
    that needs more arguments also accepts one, whatever was assigned.  A
    negative count is the count 0. *)
Theorem counts_are_consistent :
  forall (set : Z -> Option.t TValue -> Option.t TValue) (count : Z) o (v : Value.t TValue),
    set ∈ count_methods ->
    let o' := Option.with_value v (set count o) in
    0 <= Option.mMinArgs o'
    /\ (Option.mMaxArgs o' = -1 \/ Option.mMinArgs o' <= Option.mMaxArgs o')
    /\ (Option.needsMoreArguments o' = true -> Option.willAcceptArgument o' = true)
    /\ (count <= 0 -> set count o = set 0 o).
Proof.
  intros set count o v Hset o'. unfold count_methods in Hset.
  assert (Z.max 0 count >= 0) as Hmax by lia.
  apply elem_of_cons in Hset as [-> | Hset];
    [| apply elem_of_cons in Hset as [-> | Hset];
       [| apply elem_of_cons in Hset as [-> | Hset]; [| inversion Hset]]];
    subst o'; unfold Option.needsMoreArguments, Option.willAcceptArgument,
      Option.setNArgs, Option.setMinArgs, Option.setMaxArgs, Option.setCounts,
      Option.with_value, Value.getOptionAssignCount;
    cbn [Option.mMinArgs Option.mMaxArgs Option.mpValue];
    (split; [lia |]); (split; [lia |]); (split;
      [ rewrite ?Z.ltb_lt, ?orb_true_iff, ?Z.ltb_lt; intros; lia
      | intros Hneg; replace (Z.max 0 count) with (Z.max 0 0) by lia; reflexivity ]).
Qed.
End DeclarationFacts.

(** ** Groups *)

Section GroupFacts.
Context {TValue : Type}.
Implicit Types (ap : argument_parser.t TValue) (o : Option.t TValue).

(** X4.  Group names are compared in lower case.  Declaring a group makes
    it the active one under its lower-case name; declaring it again as the
    same kind, in any spelling, returns the same group and changes nothing
    more, and declaring it as the other kind throws [MixingGroupTypes] and
    changes nothing.  A group that was there is not replaced. *)
Theorem group_names_ignore_case :
  forall ap (exclusive : bool) (name name' : string),
    transform tolower name' = transform tolower name ->
    (forall g, mGroups ap !! transform tolower name = Some g ->
               OptionGroup.isExclusive g = exclusive) ->
    exists ap1,
      declare_group exclusive name ap = (Ok (Some (transform tolower name)), ap1)
      /\ mpActiveGroup ap1 = Some (transform tolower name)
      /\ group_isExclusive (Some (transform tolower name)) ap1 = exclusive
      /\ (forall g, mGroups ap !! transform tolower name = Some g ->
                    mGroups ap1 = mGroups ap)
      /\ declare_group exclusive name' ap1 = (Ok (Some (transform tolower name)), ap1)
      /\ declare_group (negb exclusive) name' ap1 = (Raise (MixingGroupTypes name'), ap1).
Proof.
  intros ap exclusive name name' Hsame Hkind.
  set (key := transform tolower name) in *.
  assert (forall ap1 : argument_parser.t TValue,
             mpActiveGroup ap1 = Some key ->
             group_isExclusive (Some key) ap1 = exclusive ->
             (exists g, mGroups ap1 !! key = Some g) ->
             declare_group exclusive name' ap1 = (Ok (Some key), ap1)
             /\ declare_group (negb exclusive) name' ap1 = (Raise (MixingGroupTypes name'), ap1))
    as Hagain.
  { intros ap1 Hactive Hex [g Hg].
    destruct ap1 as [cfg opts pos helps groups active]. cbn in Hactive. subst active.
    destruct exclusive;
      unfold declare_group, add_group, add_exclusive_group, findGroup;
      cbn [negb]; cbv beta zeta; rewrite Hsame, Hg, Hex; split; reflexivity. }
  destruct (mGroups ap !! key) as [g |] eqn:Hg.
  - exists (set_mpActiveGroup (Some key) ap).
    assert (group_isExclusive (Some key) ap = exclusive) as Hex
      by (unfold group_isExclusive, group_of; rewrite Hg; apply Hkind; reflexivity).
    split; [| split; [reflexivity | split; [exact Hex | split; [reflexivity |]]]].
    + destruct exclusive;
        unfold declare_group, add_group, add_exclusive_group, findGroup;
        cbv beta zeta; fold key; rewrite Hg, Hex; reflexivity.
    + apply Hagain; [reflexivity | exact Hex | exists g; exact Hg].
  - exists (set_mpActiveGroup (Some key)
              (set_mGroups (<[key := OptionGroup.make key exclusive]> (mGroups ap)) ap)).
    assert (group_isExclusive (Some key)
              (set_mpActiveGroup (Some key)
                 (set_mGroups (<[key := OptionGroup.make key exclusive]> (mGroups ap)) ap))
            = exclusive) as Hex.
    { unfold group_isExclusive, group_of. cbn [mGroups set_mGroups set_mpActiveGroup].
      rewrite lookup_insert_eq. reflexivity. }
    split; [| split; [reflexivity | split; [exact Hex | split; [discriminate |]]]].
    + destruct exclusive;
        unfold declare_group, add_group, add_exclusive_group, findGroup;
        cbv beta zeta; fold key; rewrite Hg; reflexivity.
    + apply Hagain; [reflexivity | exact Hex |].
      eexists. cbn [mGroups set_mGroups set_mpActiveGroup]. apply lookup_insert_eq.
Qed.

(** X5.  Once one of the [required] calls on a group passed [true], the
    group is required whatever the other calls passed.  The calls change
    neither the name nor the kind of the group, nor another group, nor the
    options. *)
Theorem required_group_stays_required :
  forall ap (key : string) (g : OptionGroup.t) (calls : list bool),
    mGroups ap !! key = Some g ->
    true ∈ calls ->
    let ap' := fold_left (fun ap b => GroupConfig.required (Some key) b ap) calls ap in
    group_isRequired (Some key) ap' = true
    /\ group_isExclusive (Some key) ap' = OptionGroup.isExclusive g
    /\ group_getName (Some key) ap' = OptionGroup.getName g
    /\ (forall key', key' <> key -> mGroups ap' !! key' = mGroups ap !! key')
    /\ mOptions ap' = mOptions ap.
Proof.
  intros ap key g calls Hg Hin.
  assert (forall calls ap g,
             mGroups ap !! key = Some g ->
             let ap' := fold_left (fun ap b => GroupConfig.required (Some key) b ap) calls ap in
             (OptionGroup.mIsRequired g = true \/ true ∈ calls ->
              group_isRequired (Some key) ap' = true)
             /\ group_isExclusive (Some key) ap' = OptionGroup.isExclusive g
             /\ group_getName (Some key) ap' = OptionGroup.getName g
             /\ (forall key', key' <> key -> mGroups ap' !! key' = mGroups ap !! key')
             /\ mOptions ap' = mOptions ap) as Hgen.
  { clear. induction calls as [| b calls IH]; intros ap g Hg; cbv zeta; cbn [fold_left].
    - unfold group_isRequired, group_isExclusive, group_getName, group_of. rewrite Hg.
      split; [| auto].
      intros [H | H]; [exact H | inversion H].
    - set (g1 := OptionGroup.setRequired b g).
      assert (mGroups (GroupConfig.required (Some key) b ap) !! key = Some g1) as Hg1.
      { cbn. rewrite lookup_alter_eq, Hg. reflexivity. }
      cbv zeta in IH.
      destruct (IH _ _ Hg1) as (Hreq & Hex & Hname & Hothers & Hopts).
      split; [| split; [| split; [| split]]].
      + intros Hor. apply Hreq. subst g1. unfold OptionGroup.setRequired.
        destruct (OptionGroup.mIsRequired g) eqn:Hr; cbn; [left; exact Hr |].
        destruct Hor as [Hor | Hor]; [discriminate |].
        apply elem_of_cons in Hor as [<- | Hor]; [left; reflexivity | right; exact Hor].
      + rewrite Hex. subst g1. unfold OptionGroup.setRequired.
        destruct (negb (OptionGroup.mIsRequired g)); reflexivity.
      + rewrite Hname. subst g1. unfold OptionGroup.setRequired.
        destruct (negb (OptionGroup.mIsRequired g)); reflexivity.
      + intros key' Hne. rewrite Hothers by exact Hne. cbn.
        apply lookup_alter_ne. congruence.
      + rewrite Hopts. reflexivity. }
  intros ap'. destruct (Hgen calls ap g Hg) as (Hreq & Hrest).
  split; [apply Hreq; right; exact Hin | exact Hrest].
Qed.
End GroupFacts.

(** ** Assignments and tokens *)

Section AssignmentFacts.
Context {TValue : Type}.
Implicit Types (p : Parser.t) (ap : argument_parser.t TValue) (st : Store TValue)
  (o : Option.t TValue) (s : Parser.state TValue) (r : option_ref).

Lemma getName_deref_assign r o' ap :
  Option.getName o' = Option.getName (deref r ap) ->
  Option.getName (deref r (assign r o' ap)) = Option.getName (deref r ap).
Proof.
  intros Hname.
  destruct r as [i | i]; cbn [deref assign mOptions mPositional set_mOptions set_mPositional].
  - destruct (decide (i < length (mOptions ap))%nat) as [Hlt | Hge].
    + rewrite list_lookup_total_insert_eq by exact Hlt. exact Hname.
    + rewrite list_insert_ge by lia. reflexivity.
  - destruct (decide (i < length (mPositional ap))%nat) as [Hlt | Hge].
    + rewrite list_lookup_total_insert_eq by exact Hlt. exact Hname.
    + rewrite list_insert_ge by lia. reflexivity.
Qed.

(** X8.  [Parser::setValue] always returns, and leaves the option and the
    variables as [Option::setValue] left them.  [Option::setValue] ends in
    one of three ways: when it returned, nothing is recorded; when it threw
    [InvalidChoiceError], one INVALID_CHOICE error is recorded; when it
    threw the exception of a failed conversion, one CONVERSION_ERROR; both
    under the name of the option. *)
Theorem Parser_setValue_records_rejections :
  forall r (value : string) p ap st,
  exists res o' st',
    Option.setValue value (deref r ap, st) = (res, (o', st'))
    /\ (res = Ok tt
        /\ Parser.setValue r value (p, (ap, st)) = (Ok tt, (p, (assign r o' ap, st')))
        \/ (exists bad, res = Raise (InvalidChoiceError bad))
           /\ Parser.setValue r value (p, (ap, st))
              = (Ok tt,
                 (with_errors [mkParseError (Option.getName (deref r ap)) INVALID_CHOICE] p,
                  (assign r o' ap, st')))
        \/ (exists failure, res = Raise (thrown failure))
           /\ Parser.setValue r value (p, (ap, st))
              = (Ok tt,
                 (with_errors [mkParseError (Option.getName (deref r ap)) CONVERSION_ERROR] p,
                  (assign r o' ap, st')))).
Proof.
  intros r value p ap st.
  destruct (Option_setValue_cases value (deref r ap) st)
    as (res & o' & st' & Hrun & Hres & Htouch & _).
  assert (Option.getName (deref r (assign r o' ap)) = Option.getName (deref r ap)) as Hname.
  { apply getName_deref_assign. destruct Htouch as [Hreset _]. cbn [fst] in Hreset.
    apply reset_option_fields in Hreset. tauto. }
  exists res, o', st'. split; [exact Hrun |].
  assert (Parser.setValue r value (p, (ap, st))
          = match res with
            | Raise (InvalidChoiceError _) =>
                (Ok tt, (with_errors [mkParseError (Option.getName (deref r ap)) INVALID_CHOICE] p,
                         (assign r o' ap, st')))
            | Raise (std_invalid_argument _) | Raise (std_out_of_range _) =>
                (Ok tt, (with_errors [mkParseError (Option.getName (deref r ap)) CONVERSION_ERROR] p,
                         (assign r o' ap, st')))
            | other => (other, (p, (assign r o' ap, st')))
            end) as Hset.
  { unfold Parser.setValue, Parser.on_mArgParser, on_option, zoom. cbn [snd fst].
    rewrite Hrun. rewrite <- Hname. destruct res as [[] | [] |]; reflexivity. }
  rewrite Hset.
  destruct Hres as [| bad | [text | text]].
  - left. split; reflexivity.
  - right; left. split; [eexists; reflexivity | reflexivity].
  - right; right. split; [exists (invalid_argument text); reflexivity | reflexivity].
  - right; right. split; [exists (out_of_range text); reflexivity | reflexivity].
Qed.

Lemma not_a_choice (value : string) (choices : list string) :
  value ∉ choices -> forallb (fun v => negb (String.eqb v value)) choices = true.
Proof.
  induction choices as [| c choices IH]; intros Hnot; [reflexivity |].
  apply not_elem_of_cons in Hnot as [Hne Hnot]. cbn.
  destruct (String.eqb_spec c value); [congruence |]. cbn. apply IH, Hnot.
Qed.

Lemma is_a_choice (value : string) (choices : list string) :
  value ∈ choices -> forallb (fun v => negb (String.eqb v value)) choices = false.
Proof.
  induction choices as [| c choices IH]; intros Hin; [inversion Hin |].
  apply elem_of_cons in Hin as [<- | Hin]; cbn.
  - rewrite String.eqb_refl. reflexivity.
  - rewrite (IH Hin). apply andb_false_r.
Qed.

(** X9.  A value that is not among the choices of an option is refused with
    [InvalidChoiceError] before anything is converted: the variables keep
    their values, [optionAssignCount] is incremented, [hasErrors] is set
    and [assignCount] stays.  The parser records INVALID_CHOICE; the option
    is not assigned but counts as assigned through this option, so its flag
    value will not be used. *)
Theorem value_outside_choices :
  forall r (value : string) p ap st,
    Option.mChoices (deref r ap) <> [] ->
    value ∉ Option.mChoices (deref r ap) ->
    Option.setValue value (deref r ap, st)
    = (Raise (InvalidChoiceError value), (marked_bad (deref r ap), st))
    /\ Parser.setValue r value (p, (ap, st))
       = (Ok tt,
          (with_errors [mkParseError (Option.getName (deref r ap)) INVALID_CHOICE] p,
           (assign r (marked_bad (deref r ap)) ap, st)))
    /\ Option.wasAssigned (marked_bad (deref r ap)) = Option.wasAssigned (deref r ap)
    /\ (0 <= Value.mOptionAssignCount (Option.mpValue (deref r ap)) ->
        Option.wasAssignedThroughThisOption (marked_bad (deref r ap)) = true).
Proof.
  intros r value p ap st Hsome Hnot.
  assert (Option.setValue value (deref r ap, st)
          = (Raise (InvalidChoiceError value), (marked_bad (deref r ap), st))) as Hset.
  { unfold Option.setValue.
    rewrite bool_decide_eq_false_2 by exact Hsome.
    rewrite (not_a_choice value _ Hnot). reflexivity. }
  split; [exact Hset |]. split; [| split].
  - unfold Parser.setValue, Parser.on_mArgParser, on_option, zoom. cbn [snd fst].
    rewrite Hset. unfold bind, Parser.option_at. cbn [fst snd].
    rewrite getName_deref_assign by reflexivity. reflexivity.
  - reflexivity.
  - intros Hcount. unfold Option.wasAssignedThroughThisOption, Value.getOptionAssignCount.
    cbn. apply Z.ltb_lt. lia.
Qed.

(** X10.  When the conversion of an argument fails, the parser records
    CONVERSION_ERROR and the variable keeps its value, but the option counts
    as assigned: both counters were incremented, and [hasErrors] is as it
    was. *)
Theorem failed_conversion_counts_as_assigned :
  forall r (value : string) p ap st (e : ConversionFailure),
    Option.mChoices (deref r ap) = [] ->
    Option.mpAssignAction (deref r ap) = None ->
    (exists cell conv,
        (Value.impl (Option.mpValue (deref r ap)) = Value.ConvertedVector cell conv
         \/ exists empty,
              Value.impl (Option.mpValue (deref r ap)) = Value.ConvertedValue cell conv empty)
        /\ conv value = inl e) ->
    0 <= Value.mAssignCount (Option.mpValue (deref r ap)) ->
    Parser.setValue r value (p, (ap, st))
    = (Ok tt,
       (with_errors [mkParseError (Option.getName (deref r ap)) CONVERSION_ERROR] p,
        (assign r (assigned_once (deref r ap)) ap, st)))
    /\ Option.wasAssigned (assigned_once (deref r ap)) = true
    /\ Value.mHasErrors (Option.mpValue (assigned_once (deref r ap)))
       = Value.mHasErrors (Option.mpValue (deref r ap)).
Proof.
  intros r value p ap st e Hch Hact (cell & conv & Himpl & Hconv) Hcount.
  assert (Option.setValue value (deref r ap, st)
          = (Raise (thrown e), (assigned_once (deref r ap), st))) as Hset.
  { unfold Option.setValue. rewrite Hch, Hact. cbn [bool_decide negb andb].
    rewrite bool_decide_eq_true_2 by reflexivity. cbn [negb andb].
    unfold Option.on_value, zoom, Value.setValue, bind, Value.on_this, Value.doSetValue.
    cbn [Value.impl Value.incAssignCount Value.incOptionAssignCount].
    destruct Himpl as [-> | [empty ->]]; rewrite Hconv; reflexivity. }
  split; [| split].
  - unfold Parser.setValue, Parser.on_mArgParser, on_option, zoom. cbn [snd fst].
    rewrite Hset. unfold bind, Parser.option_at. cbn [fst snd].
    destruct e; cbn [thrown]; rewrite getName_deref_assign by reflexivity; reflexivity.
  - unfold Option.wasAssigned, Value.getAssignCount. cbn. apply Z.ltb_lt. lia.
  - reflexivity.
Qed.

Lemma Option_setValue_counts (value : string) o st :
  Option.mpAssignAction o = None ->
  let o' := fst (snd (Option.setValue value (o, st))) in
  Value.mOptionAssignCount (Option.mpValue o')
  = Value.mOptionAssignCount (Option.mpValue o) + 1
  /\ Option.mMaxArgs o' = Option.mMaxArgs o.
Proof.
  intros Hact. unfold Option.setValue. rewrite Hact.
  destruct (negb (bool_decide (Option.mChoices o = []))
            && forallb (fun v => negb (String.eqb v value)) (Option.mChoices o)).
  - split; reflexivity.
  - destruct (Value_setValue_cases value (Option.mpValue o) st)
      as (res & v' & st' & Hrun & _ & _ & Hcount & _).
    unfold Option.on_value, zoom. rewrite Hrun. cbn. split; [exact Hcount | reflexivity].
Qed.

(** X11.  After [--opt=value] for an option that takes at most one
    argument, the option is still the active one and accepts nothing more:
    a following argument without a dash is dropped.  The parse ends exactly
    as without that argument: it is neither assigned, nor a free argument,
    nor an error. *)
Theorem argument_after_attached_value_is_dropped :
  forall ap st (tok name value next : string) (i : nat) option,
    substring 0 2 tok = "--" ->
    Parser.split_argument tok = (name, value) ->
    value <> "" ->
    Parser.findOption name ap = Some i ->
    mOptions ap !! i = Some option ->
    Option.mMaxArgs option = 1 ->
    Option.mpAssignAction option = None ->
    substring 0 1 next <> "-" ->
    Parser.parse [tok; next] (Parser.make, (ap, st))
    = Parser.parse [tok] (Parser.make, (ap, st)).
Proof.
  intros ap st tok name value next i option Hlong Hsplit Hvalue Hfind Hopt Hmax Haction Hdash.
  assert (tok <> "--") as Hne.
  { intros ->. cbn in Hsplit. injection Hsplit as _ <-. congruence. }
  assert (deref (in_mOptions i) ap = option) as Hderef
    by (cbn [deref]; apply list_lookup_total_correct; exact Hopt).
  remember (assign (in_mOptions i) (started option) ap) as ap0 eqn:Hap0.
  assert (mOptions ap0 !! i = Some (started option)) as Hopt0.
  { subst ap0. cbn [assign mOptions set_mOptions]. apply list_lookup_insert_eq.
    eapply lookup_lt_Some; eauto. }
  assert (deref (in_mOptions i) ap0 = started option) as Hderef0
    by (cbn [deref]; apply list_lookup_total_correct; exact Hopt0).
  assert (Option.willAcceptArgument (started option) = true) as Hyes.
  { unfold Option.willAcceptArgument. cbn. rewrite Hmax. reflexivity. }
  assert (String.eqb value "" = false) as Hvb
    by (destruct (String.eqb_spec value ""); [contradiction | reflexivity]).
  destruct (Parser_setValue_spec (in_mOptions i) value
              (Parser.set_mpActiveOption (Some i) Parser.make) ap0 st)
    as (o' & st' & errs & Hset & Hrun & _).
  destruct (Option_setValue_counts value (started option) st) as [Hcount Hmax'];
    [exact Haction |].
  rewrite Hderef0 in Hrun. rewrite Hrun in Hcount, Hmax'. cbn [fst snd] in Hcount, Hmax'.
  assert (Option.willAcceptArgument o' = false) as Hno.
  { unfold Option.willAcceptArgument, Value.getOptionAssignCount.
    rewrite Hcount, Hmax'. cbn. rewrite Hmax. reflexivity. }
  assert (mOptions (assign (in_mOptions i) o' ap0) !! i = Some o') as Hopt1.
  { cbn [assign mOptions set_mOptions]. apply list_lookup_insert_eq.
    eapply lookup_lt_Some; eauto. }
  assert (Parser.parse_arg tok (Parser.make, (ap, st))
          = (Ok tt, (with_errors errs (Parser.set_mpActiveOption (Some i) Parser.make),
                     (assign (in_mOptions i) o' ap0, st')))) as Hfirst.
  { rewrite (parse_arg_option_token tok Parser.make (ap, st) eq_refl Hne (or_introl Hlong)).
    unfold Parser.startOption, bind. rewrite Hsplit.
    change (Parser.haveActiveOption Parser.make) with false. cbv iota beta.
    change ((ret tt : M (Parser.state TValue) unit) (Parser.make, (ap, st)))
      with (Ok tt, (Parser.make, (ap, st))).
    cbv iota beta. rewrite Hfind.
    rewrite onOptionStarted_at, Hderef, <- Hap0.
    unfold Parser.option_at at 1. rewrite Hderef0, Hyes.
    unfold Parser.on_this at 1. cbv iota beta. rewrite Hvb. cbn [negb].
    unfold Parser.option_at at 1. rewrite Hderef0, Hyes.
    exact Hset. }
  destruct (no_dash_token next Hdash) as (E1 & E2 & E3).
  assert (Parser.parse_arg next
            (with_errors errs (Parser.set_mpActiveOption (Some i) Parser.make),
             (assign (in_mOptions i) o' ap0, st'))
          = (Ok tt, (with_errors errs (Parser.set_mpActiveOption (Some i) Parser.make),
                     (assign (in_mOptions i) o' ap0, st')))) as Hsecond.
  { unfold Parser.parse_arg. rewrite E1, E2, E3.
    cbn [Parser.mIgnoreOptions Parser.mpActiveOption with_errors Parser.set_mResult
         Parser.set_mpActiveOption Parser.make].
    unfold bind, Parser.option_at.
    assert (deref (in_mOptions i) (assign (in_mOptions i) o' ap0) = o') as ->
      by (cbn [deref]; apply list_lookup_total_correct; exact Hopt1).
    rewrite Hno. reflexivity. }
  unfold Parser.parse. cbn [for_each]. unfold bind.
  change (Parser.on_this
            (fun p => Parser.set_mResult (ParseResult.clear (Parser.mResult p)) p)
            (Parser.make, (ap, st))) with (Ok tt, (Parser.make, (ap, st))).
  cbv iota beta. rewrite Hfirst. cbv iota beta. rewrite Hsecond. reflexivity.
Qed.

Lemma Parser_setValue_vector r (value : string) p ap st cell conv x :
  Option.mChoices (deref r ap) = [] ->
  Option.mpAssignAction (deref r ap) = None ->
  Value.impl (Option.mpValue (deref r ap)) = Value.ConvertedVector cell conv ->
  conv value = inr x ->
  Parser.setValue r value (p, (ap, st))
  = (Ok tt, (p, (assign r (assigned_once (deref r ap)) ap,
                 <[cell := Vector (elements_of (st !! cell) ++ [x])]> st))).
Proof.
  intros Hch Hact Himpl Hconv.
  unfold Parser.setValue, Parser.on_mArgParser, on_option, zoom. cbn [snd fst].
  rewrite (Option_setValue_vector value _ st cell conv x Hch Hact Himpl Hconv).
  reflexivity.
Qed.

(** X13.  An active option without an upper bound, bound to a vector, takes
    every following argument without a dash: the conversions are appended
    to the vector in the order of the arguments, the counters count them,
    the other variables and the parser are unchanged and the option stays
    active. *)
Theorem unbounded_option_collects_arguments :
  forall (toks : list string) (xs : list TValue) p ap st (i : nat) option cell conv,
    Parser.mIgnoreOptions p = false ->
    Parser.mpActiveOption p = Some i ->
    mOptions ap !! i = Some option ->
    Option.mMaxArgs option < 0 ->
    Option.mChoices option = [] ->
    Option.mpAssignAction option = None ->
    Value.impl (Option.mpValue option) = Value.ConvertedVector cell conv ->
    Forall (fun tok => substring 0 1 tok <> "-") toks ->
    Forall2 (fun tok x => conv tok = inr x) toks xs ->
    exists st',
      for_each toks Parser.parse_arg (p, (ap, st))
      = (Ok tt, (p, (assign (in_mOptions i) (Nat.iter (length toks) assigned_once option) ap,
                     st')))
      /\ elements_of (st' !! cell) = elements_of (st !! cell) ++ xs
      /\ (forall c, c <> cell -> st' !! c = st !! c).
Proof.
  induction toks as [| tok toks IH];
    intros xs p ap st i option cell conv Hign Hact Hopt Hmax Hch Haction Himpl Hdash Hconv.
  - apply Forall2_nil_inv_l in Hconv as ->. exists st. rewrite app_nil_r.
    split; [| split; [reflexivity | reflexivity]].
    cbn [for_each length Nat.iter assign]. unfold ret.
    rewrite list_insert_id by exact Hopt. destruct ap; reflexivity.
  - apply Forall2_cons_inv_l in Hconv as (x & xs' & Hx & Hconv & ->).
    apply Forall_cons in Hdash as [Hdash Hdashes].
    destruct (no_dash_token tok Hdash) as (E1 & E2 & E3).
    assert (deref (in_mOptions i) ap = option) as Hderef
      by (cbn [deref]; apply list_lookup_total_correct; exact Hopt).
    remember (assign (in_mOptions i) (assigned_once option) ap) as ap1 eqn:Hap1.
    assert (mOptions ap1 !! i = Some (assigned_once option)) as Hopt1.
    { subst ap1. cbn [assign mOptions set_mOptions]. apply list_lookup_insert_eq.
      eapply lookup_lt_Some; eauto. }
    assert (deref (in_mOptions i) ap1 = assigned_once option) as Hderef1
      by (cbn [deref]; apply list_lookup_total_correct; exact Hopt1).
    assert (forall o, Option.mMaxArgs o = Option.mMaxArgs option ->
                      Option.willAcceptArgument o = true) as Hyes.
    { intros o Ho. unfold Option.willAcceptArgument. rewrite Ho.
      apply orb_true_iff. left. apply Z.ltb_lt. exact Hmax. }
    set (st1 := <[cell := Vector (elements_of (st !! cell) ++ [x])]> st).
    assert (Parser.parse_arg tok (p, (ap, st)) = (Ok tt, (p, (ap1, st1)))) as Hstep.
    { unfold Parser.parse_arg. rewrite E1, E2, E3, Hign, Hact.
      unfold bind. unfold Parser.option_at at 1. rewrite Hderef, (Hyes option eq_refl).
      rewrite (Parser_setValue_vector (in_mOptions i) tok p ap st cell conv x)
        by (rewrite ?Hderef; assumption).
      rewrite Hderef, <- Hap1. fold st1.
      unfold Parser.option_at at 1. rewrite Hderef1, (Hyes (assigned_once option) eq_refl).
      reflexivity. }
    destruct (IH xs' p ap1 st1 i (assigned_once option) cell conv Hign Hact Hopt1)
      as (st' & Hrun & Hcell & Hother); try assumption.
    exists st'. split; [| split].
    + cbn [for_each]. unfold bind. rewrite Hstep, Hrun.
      subst ap1. rewrite assign_assign_mOptions.
      cbn [length]. rewrite Nat.iter_succ_r. reflexivity.
    + rewrite Hcell. subst st1. rewrite lookup_insert_eq. cbn [elements_of].
      rewrite <- app_assoc. reflexivity.
    + intros c Hc. rewrite (Hother c Hc). subst st1. apply lookup_insert_ne. congruence.
Qed.

Lemma startOption_vector_flag (name : string) p ap st (i : nat) option cell conv x :
  Parser.mpActiveOption p = None ->
  Parser.split_argument name = (name, "") ->
  Parser.findOption name ap = Some i ->
  mOptions ap !! i = Some option ->
  Option.mMaxArgs option = 0 ->
  Option.mChoices option = [] ->
  Option.mpAssignAction option = None ->
  Value.impl (Option.mpValue option) = Value.ConvertedVector cell conv ->
  conv (Option.getFlagValue option) = inr x ->
  Parser.startOption name (p, (ap, st))
  = (Ok tt, (p, (assign (in_mOptions i) (assigned_once (started option)) ap,
                 <[cell := Vector (elements_of (st !! cell) ++ [x])]> st))).
Proof.
  intros Hact Hsplit Hfind Hopt Hmax Hch Haction Himpl Hconv.
  assert (deref (in_mOptions i) ap = option) as Hderef
    by (cbn [deref]; apply list_lookup_total_correct; exact Hopt).
  remember (assign (in_mOptions i) (started option) ap) as ap0 eqn:Hap0.
  assert (deref (in_mOptions i) ap0 = started option) as Hderef0
    by (subst ap0; apply (deref_assign_mOptions i option); exact Hopt).
  assert (Option.willAcceptArgument (started option) = false) as Hno.
  { unfold Option.willAcceptArgument. cbn. rewrite Hmax. reflexivity. }
  unfold Parser.startOption, bind. rewrite Hsplit.
  unfold Parser.haveActiveOption. rewrite Hact.
  rewrite bool_decide_eq_false_2 by (intros H; apply H; reflexivity).
  change ((ret tt : M (Parser.state TValue) unit) (p, (ap, st))) with (Ok tt, (p, (ap, st))).
  cbv iota beta. rewrite Hfind.
  rewrite onOptionStarted_at, Hderef, <- Hap0.
  unfold Parser.option_at at 1. rewrite Hderef0, Hno.
  rewrite (Parser_setValue_vector (in_mOptions i) _ p ap0 st cell conv x)
    by (rewrite ?Hderef0; assumption).
  rewrite Hderef0. subst ap0. rewrite assign_assign_mOptions. reflexivity.
Qed.

(** X14.  A flag bound to a vector counts its occurrences: each occurrence
    of its name appends the conversion of the flag value to the vector and
    increments [assignCount]; nothing else changes. *)
Theorem repeated_flag_is_counted :
  forall (n : nat) (name : string) p ap st (i : nat) option cell conv x,
    Parser.mIgnoreOptions p = false ->
    Parser.mpActiveOption p = None ->
    name <> "--" ->
    (substring 0 2 name = "--" \/ (substring 0 1 name = "-" /\ String.length name = 2%nat)) ->
    Parser.split_argument name = (name, "") ->
    Parser.findOption name ap = Some i ->
    mOptions ap !! i = Some option ->
    Option.mMaxArgs option = 0 ->
    Option.mChoices option = [] ->
    Option.mpAssignAction option = None ->
    Value.impl (Option.mpValue option) = Value.ConvertedVector cell conv ->
    conv (Option.getFlagValue option) = inr x ->
    exists option' st',
      for_each (repeat name n) Parser.parse_arg (p, (ap, st))
      = (Ok tt, (p, (assign (in_mOptions i) option' ap, st')))
      /\ Value.mAssignCount (Option.mpValue option')
         = Value.mAssignCount (Option.mpValue option) + Z.of_nat n
      /\ elements_of (st' !! cell) = elements_of (st !! cell) ++ repeat x n
      /\ (forall c, c <> cell -> st' !! c = st !! c).
Proof.
  induction n as [| n IH];
    intros name p ap st i option cell conv x Hign Hact Hne Hform Hsplit Hfind Hopt Hmax
           Hch Haction Himpl Hconv.
  - exists option, st. cbn [repeat for_each]. unfold ret.
    split; [| split; [lia | split; [rewrite app_nil_r; reflexivity | reflexivity]]].
    cbn [assign]. rewrite list_insert_id by exact Hopt. destruct ap; reflexivity.
  - remember (assign (in_mOptions i) (assigned_once (started option)) ap) as ap1 eqn:Hap1.
    set (st1 := <[cell := Vector (elements_of (st !! cell) ++ [x])]> st).
    assert (Parser.parse_arg name (p, (ap, st)) = (Ok tt, (p, (ap1, st1)))) as Hstep.
    { rewrite (parse_arg_option_token name p (ap, st) Hign Hne Hform).
      rewrite (startOption_vector_flag name p ap st i option cell conv x); try assumption.
      rewrite <- Hap1. reflexivity. }
    assert (mOptions ap1 !! i = Some (assigned_once (started option))) as Hopt1.
    { subst ap1. cbn [assign mOptions set_mOptions]. apply list_lookup_insert_eq.
      eapply lookup_lt_Some; eauto. }
    assert (Parser.findOption name ap1 = Some i) as Hfind1.
    { rewrite <- Hfind. apply (findOption_same_definitions name ap ap1 st st1).
      subst ap1 st1.
      apply (same_definitions_assign (in_mOptions i) _ _ ap st).
      assert (deref (in_mOptions i) ap = option) as ->
        by (cbn [deref]; apply list_lookup_total_correct; exact Hopt).
      split.
      - cbn [fst]. unfold reset_option, assigned_once, started. destruct option; reflexivity.
      - right. exists cell. eexists. split; [| reflexivity].
        cbn [fst]. unfold cell_of. rewrite Himpl. reflexivity. }
    destruct (IH name p ap1 st1 i (assigned_once (started option)) cell conv x)
      as (option' & st' & Hrun & Hcount & Hcell & Hother); try assumption.
    exists option', st'. split; [| split; [| split]].
    + cbn [repeat for_each]. unfold bind. rewrite Hstep, Hrun.
      subst ap1. rewrite assign_assign_mOptions. reflexivity.
    + rewrite Hcount. cbn. lia.
    + rewrite Hcell. subst st1. rewrite lookup_insert_eq. cbn [elements_of repeat].
      rewrite <- app_assoc. reflexivity.
    + intros c Hc. rewrite (Hother c Hc). subst st1. apply lookup_insert_ne. congruence.
Qed.

(** X15.  When no positional accepts an argument, [addFreeArgument] appends
    each argument to [ignoredArguments], in the order of the input, and
    changes neither the registry, nor the variables, nor the errors.  So
    [parse] on arguments without a dash returns them all as ignored
    arguments. *)
Theorem surplus_arguments_are_returned :
  forall (args : list string) ap st,
    Forall (fun o => Option.willAcceptArgument o = false) (mPositional ap) ->
    (forall p,
        exists pos,
          for_each args Parser.addFreeArgument (p, (ap, st))
          = (Ok tt,
             (Parser.mk (Parser.mIgnoreOptions p) pos (Parser.mpActiveOption p)
                {| ParseResult.ignoredArguments :=
                     ParseResult.ignoredArguments (Parser.mResult p) ++ args;
                   ParseResult.errors := ParseResult.errors (Parser.mResult p) |},
              (ap, st))))
    /\ (Forall (fun arg => substring 0 1 arg <> "-") args ->
        exists p',
          Parser.parse args (Parser.make, (ap, st))
          = (Ok {| ParseResult.ignoredArguments := args; ParseResult.errors := [] |},
             (p', (ap, st)))).
Proof.
  intros args ap st Hall.
  assert (forall pos, Forall (fun o => Option.willAcceptArgument o = false)
                             (drop pos (mPositional ap))) as Hdrop.
  { intros pos. apply Forall_drop. exact Hall. }
  assert (forall (args : list string) p,
             exists pos,
               for_each args Parser.addFreeArgument (p, (ap, st))
               = (Ok tt,
                  (Parser.mk (Parser.mIgnoreOptions p) pos (Parser.mpActiveOption p)
                     {| ParseResult.ignoredArguments :=
                          ParseResult.ignoredArguments (Parser.mResult p) ++ args;
                        ParseResult.errors := ParseResult.errors (Parser.mResult p) |},
                   (ap, st)))) as Hfree.
  { clear args. induction args as [| arg args IH]; intros p.
    - exists (Parser.mPosition p). cbn [for_each]. unfold ret. rewrite app_nil_r.
      destruct p as [ig pos act [ignored errors]]; reflexivity.
    - destruct (addFreeArgument_overflow arg p ap st (Hdrop _)) as (pos & Hstep & _).
      destruct (IH (Parser.mk (Parser.mIgnoreOptions p) pos (Parser.mpActiveOption p)
                      (ParseResult.add_ignored arg (Parser.mResult p)))) as (pos' & Hrun).
      exists pos'. cbn [for_each]. unfold bind. rewrite Hstep, Hrun.
      cbn. rewrite <- app_assoc. reflexivity. }
  split; [apply Hfree |].
  intros Hdash.
  assert (forall p, Parser.mIgnoreOptions p = false -> Parser.mpActiveOption p = None ->
                    for_each args Parser.parse_arg (p, (ap, st))
                    = for_each args Parser.addFreeArgument (p, (ap, st))) as Hsame.
  { clear Hfree. induction args as [| arg args IH]; intros p Hign Hact; [reflexivity |].
    apply Forall_cons in Hdash as [Hd Hdash].
    destruct (no_dash_token arg Hd) as (E1 & E2 & E3).
    cbn [for_each]. unfold bind.
    assert (Parser.parse_arg arg (p, (ap, st)) = Parser.addFreeArgument arg (p, (ap, st)))
      as -> by (unfold Parser.parse_arg; rewrite E1, E2, E3, Hign, Hact; reflexivity).
    destruct (addFreeArgument_overflow arg p ap st (Hdrop _)) as (pos & -> & _).
    apply IH; [exact Hdash | exact Hign | exact Hact]. }
  destruct (Hfree args Parser.make) as (pos & Hrun).
  eexists. unfold Parser.parse, bind.
  change (Parser.on_this
            (fun p => Parser.set_mResult (ParseResult.clear (Parser.mResult p)) p)
            (Parser.make, (ap, st))) with (Ok tt, (Parser.make, (ap, st))).
  cbv iota beta. rewrite (Hsame Parser.make eq_refl eq_refl), Hrun. reflexivity.
Qed.

Lemma startOption_accepting (name : string) p ap st (i : nat) option :
  Parser.mpActiveOption p = None ->
  Parser.split_argument name = (name, "") ->
  Parser.findOption name ap = Some i ->
  mOptions ap !! i = Some option ->
  Option.willAcceptArgument (started option) = true ->
  Parser.startOption name (p, (ap, st))
  = (Ok tt, (Parser.set_mpActiveOption (Some i) p,
             (assign (in_mOptions i) (started option) ap, st))).
Proof.
  intros Hact Hsplit Hfind Hopt Hyes.
  assert (deref (in_mOptions i) ap = option) as Hderef
    by (cbn [deref]; apply list_lookup_total_correct; exact Hopt).
  remember (assign (in_mOptions i) (started option) ap) as ap0 eqn:Hap0.
  assert (deref (in_mOptions i) ap0 = started option) as Hderef0
    by (subst ap0; apply (deref_assign_mOptions i option); exact Hopt).
  unfold Parser.startOption, bind. rewrite Hsplit.
  unfold Parser.haveActiveOption. rewrite Hact.
  rewrite bool_decide_eq_false_2 by (intros H; apply H; reflexivity).
  change ((ret tt : M (Parser.state TValue) unit) (p, (ap, st))) with (Ok tt, (p, (ap, st))).
  cbv iota beta. rewrite Hfind.
  rewrite onOptionStarted_at, Hderef, <- Hap0.
  unfold Parser.option_at at 1. rewrite Hderef0, Hyes. reflexivity.
Qed.

Lemma Option_setValue_fails (value : string) o st (e : ConversionFailure) :
  Option.mChoices o = [] ->
  Option.mpAssignAction o = None ->
  (exists cell conv,
      (Value.impl (Option.mpValue o) = Value.ConvertedVector cell conv
       \/ exists empty, Value.impl (Option.mpValue o) = Value.ConvertedValue cell conv empty)
      /\ conv value = inl e) ->
  Option.setValue value (o, st) = (Raise (thrown e), (assigned_once o, st)).
Proof.
  intros Hch Hact (cell & conv & Himpl & Hconv).
  unfold Option.setValue. rewrite Hch, Hact.
  rewrite bool_decide_eq_true_2 by reflexivity. cbn [negb andb].
  unfold Option.on_value, zoom, Value.setValue, bind, Value.on_this, Value.doSetValue.
  cbn [Value.impl Value.incAssignCount Value.incOptionAssignCount].
  destruct Himpl as [-> | [empty ->]]; rewrite Hconv; reflexivity.
Qed.

(** X26.  [closeOption] assigns the flag value without the guard of
    [Parser::setValue].  When an option that accepts arguments gets none
    and the conversion of its flag value fails, the exception of the
    converter leaves [parse]: no error is recorded, the counters of the
    option are incremented and the option is still the active one. *)
Theorem flag_value_failure_leaves_the_parser :
  forall ap st (name : string) (i : nat) option (e : ConversionFailure),
    name <> "--" ->
    (substring 0 2 name = "--" \/ (substring 0 1 name = "-" /\ String.length name = 2%nat)) ->
    Parser.split_argument name = (name, "") ->
    Parser.findOption name ap = Some i ->
    mOptions ap !! i = Some option ->
    Option.mMinArgs option <= 0 ->
    Option.mMaxArgs option <> 0 ->
    Option.mChoices option = [] ->
    Option.mpAssignAction option = None ->
    (exists cell conv,
        (Value.impl (Option.mpValue option) = Value.ConvertedVector cell conv
         \/ exists empty,
              Value.impl (Option.mpValue option) = Value.ConvertedValue cell conv empty)
        /\ conv (Option.getFlagValue option) = inl e) ->
    Parser.parse [name] (Parser.make, (ap, st))
    = (Raise (thrown e),
       (Parser.set_mpActiveOption (Some i) Parser.make,
        (assign (in_mOptions i) (assigned_once (started option)) ap, st))).
Proof.
  intros ap st name i option e Hne Hform Hsplit Hfind Hopt Hmin Hmax Hch Haction
         (cell & conv & Himpl & Hconv).
  assert (deref (in_mOptions i) ap = option) as Hderef
    by (cbn [deref]; apply list_lookup_total_correct; exact Hopt).
  remember (assign (in_mOptions i) (started option) ap) as ap0 eqn:Hap0.
  assert (mOptions ap0 !! i = Some (started option)) as Hopt0.
  { subst ap0. cbn [assign mOptions set_mOptions]. apply list_lookup_insert_eq.
    eapply lookup_lt_Some; eauto. }
  assert (deref (in_mOptions i) ap0 = started option) as Hderef0
    by (cbn [deref]; apply list_lookup_total_correct; exact Hopt0).
  assert (Option.willAcceptArgument (started option) = true) as Hyes.
  { unfold Option.willAcceptArgument. cbn.
    destruct (Z.ltb_spec (Option.mMaxArgs option) 0); [reflexivity |].
    cbn. apply Z.ltb_lt. lia. }
  assert (Option.needsMoreArguments (started option) = false) as Hfull.
  { unfold Option.needsMoreArguments. cbn. apply Z.ltb_ge. lia. }
  assert (Option.setValue (Option.getFlagValue option) (started option, st)
          = (Raise (thrown e), (assigned_once (started option), st))) as Hset.
  { apply Option_setValue_fails; [exact Hch | exact Haction |].
    exists cell, conv. split; [exact Himpl | exact Hconv]. }
  unfold Parser.parse, bind. cbn [for_each]. unfold bind.
  change (Parser.on_this
            (fun p => Parser.set_mResult (ParseResult.clear (Parser.mResult p)) p)
            (Parser.make, (ap, st))) with (Ok tt, (Parser.make, (ap, st))).
  cbv iota beta.
  rewrite (parse_arg_option_token name Parser.make (ap, st) eq_refl Hne Hform).
  rewrite (startOption_accepting name Parser.make ap st i option eq_refl Hsplit Hfind Hopt Hyes).
  rewrite <- Hap0. cbv iota beta. unfold ret at 1. cbv iota beta.
    change (Parser.haveActiveOption (Parser.set_mpActiveOption (Some i) Parser.make))
      with true. cbv iota.
    rewrite (closeOption_spec (Parser.set_mpActiveOption (Some i) Parser.make) ap0 st i
             (started option) eq_refl Hopt0).
    rewrite Hfull, Hyes. cbn [andb negb Option.wasAssignedThroughThisOption].
    change (Option.wasAssignedThroughThisOption (started option)) with false.
    cbn [negb]. unfold bind, Parser.on_mArgParser, on_option, zoom. cbn [snd fst].
    rewrite Hderef0.
    change (Option.getFlagValue (started option)) with (Option.getFlagValue option).
    rewrite Hset. subst ap0. rewrite assign_assign_mOptions. reflexivity.
Qed.
End AssignmentFacts.

(** ** What the tokens leave unchanged *)

Section FrameFacts.
Context {TValue : Type}.
Implicit Types (p : Parser.t) (ap : argument_parser.t TValue) (st : Store TValue)
  (o : Option.t TValue) (s : Parser.state TValue) (r : option_ref).

Lemma extends_refl p : extends p p.
Proof. repeat split; reflexivity. Qed.

Lemma extends_same p p' :
  Parser.mResult p' = Parser.mResult p -> Parser.mPosition p' = Parser.mPosition p ->
  extends p p'.
Proof. intros Hr Hp. unfold extends. rewrite Hr, Hp. repeat split; reflexivity. Qed.

Lemma extends_trans p1 p2 p3 : extends p1 p2 -> extends p2 p3 -> extends p1 p3.
Proof.
  intros (He & Hi & Hp) (He' & Hi' & Hp').
  repeat split; [etransitivity; eassumption | etransitivity; eassumption | lia].
Qed.

Lemma extends_with_errors errs p : extends p (with_errors errs p).
Proof.
  repeat split; cbn; [apply prefix_app_r; reflexivity | reflexivity | lia].
Qed.

Lemma grows_ret {A} (a : A) : grows (TValue := TValue) (ret a).
Proof. intros s. apply extends_refl. Qed.

Lemma grows_bind {A B} (m : M (Parser.state TValue) A) (k : A -> M (Parser.state TValue) B) :
  grows m -> (forall a, grows (k a)) -> grows (bind m k).
Proof.
  intros Hm Hk s. unfold bind. specialize (Hm s).
  destruct (m s) as [[a | e | c] s1]; cbn [snd] in *; try exact Hm.
  eapply extends_trans; [exact Hm | apply Hk].
Qed.

Lemma grows_if {A} (b : bool) (m1 m2 : M (Parser.state TValue) A) :
  grows m1 -> grows m2 -> grows (if b then m1 else m2).
Proof. destruct b; auto. Qed.

Lemma grows_on_this (f : Parser.t -> Parser.t) :
  (forall p, extends p (f p)) -> grows (TValue := TValue) (Parser.on_this f).
Proof. intros Hf [p w]. apply Hf. Qed.

Lemma grows_addError (name : string) code : grows (TValue := TValue) (Parser.addError name code).
Proof. intros [p w]. rewrite addError_spec. apply extends_with_errors. Qed.

Lemma grows_option_at r : grows (Parser.option_at (TValue := TValue) r).
Proof. intros [p [ap st]]. apply extends_refl. Qed.

Lemma grows_onOptionStarted r :
  grows (Parser.on_mArgParser (on_option (TValue := TValue) r Option.onOptionStarted)).
Proof. intros [p [ap st]]. rewrite onOptionStarted_at. apply extends_refl. Qed.

Lemma grows_setValue r (value : string) : grows (Parser.setValue (TValue := TValue) r value).
Proof.
  intros [p [ap st]].
  destruct (Parser_setValue_spec r value p ap st) as (o' & st' & errs & Hrun & _).
  rewrite Hrun. apply extends_with_errors.
Qed.

Lemma grows_closeOption : grows (Parser.closeOption (TValue := TValue)).
Proof.
  intros [p [ap st]].
  destruct (closeOption_frame p ap st)
    as (res & p' & ap' & st' & Hrun & _ & _ & Hpos & _ & Hign & Herr).
  rewrite Hrun. cbn [fst snd]. repeat split.
  - destruct Herr as [-> | [name ->]]; [reflexivity | apply prefix_app_r; reflexivity].
  - rewrite Hign. reflexivity.
  - lia.
Qed.

Lemma grows_push_ignored (arg : string) :
  grows (TValue := TValue) (Parser.push_ignored arg).
Proof.
  apply grows_on_this. intros p.
  repeat split; cbn; [reflexivity | apply prefix_app_r; reflexivity | lia].
Qed.

Lemma grows_addFreeArgument (arg : string) :
  grows (Parser.addFreeArgument (TValue := TValue) arg).
Proof.
  intros [p [ap st]]. unfold Parser.addFreeArgument.
  destruct (mPositional ap !! Parser.mPosition p) as [option |];
    [| apply grows_push_ignored].
  destruct (Option.willAcceptArgument option); [apply grows_setValue |].
  pose proof (next_accepting_bound (drop (S (Parser.mPosition p)) (mPositional ap))
                (S (Parser.mPosition p))) as Hbound.
  destruct (Parser.next_accepting _ _) as [pos found]. cbn [fst] in Hbound.
  unfold bind, Parser.on_this.
  apply (extends_trans _ (Parser.set_mPosition pos p)).
  - repeat split; cbn; try reflexivity. lia.
  - destruct found.
    + apply (grows_setValue (in_mPositional pos) arg (Parser.set_mPosition pos p, (ap, st))).
    + apply (grows_push_ignored arg (Parser.set_mPosition pos p, (ap, st))).
Qed.

Lemma grows_close_if_active :
  grows (TValue := TValue)
    (fun '(p, w) => (if Parser.haveActiveOption p then Parser.closeOption else ret tt) (p, w)).
Proof.
  intros [p w]. cbv beta iota.
  apply (grows_if (Parser.haveActiveOption p)); [apply grows_closeOption | apply grows_ret].
Qed.

Lemma grows_startOption (name : string) : grows (Parser.startOption (TValue := TValue) name).
Proof.
  unfold Parser.startOption. apply grows_bind; [apply grows_close_if_active |].
  intros _. destruct (Parser.split_argument name) as [name' arg].
  intros [p [ap st]]. cbv beta iota.
  destruct (Parser.findOption name' ap) as [i |]; [| apply grows_addError].
  apply grows_bind; [apply grows_onOptionStarted |]. intros _.
  apply grows_bind; [apply grows_option_at |]. intros option.
  apply grows_bind.
  - apply grows_if; [| apply grows_setValue].
    apply grows_on_this. intros q. apply extends_same; reflexivity.
  - intros _. apply grows_if; [| apply grows_ret].
    apply grows_bind; [apply grows_option_at |]. intros option'.
    apply grows_if; [apply grows_setValue | apply grows_addError].
Qed.

Lemma grows_for_each {X} (xs : list X) (body : X -> M (Parser.state TValue) unit) :
  (forall x, grows (body x)) -> grows (for_each xs body).
Proof.
  intros Hbody. induction xs as [| x xs IH]; cbn [for_each]; [apply grows_ret |].
  apply grows_bind; [apply Hbody | intros _; exact IH].
Qed.

Lemma grows_parse_arg (arg : string) : grows (Parser.parse_arg (TValue := TValue) arg).
Proof.
  intros [p w]. unfold Parser.parse_arg. cbv beta iota.
  apply grows_if; [apply grows_on_this; intros q; apply extends_same; reflexivity |].
  apply grows_if; [apply grows_addFreeArgument |].
  apply grows_if; [apply grows_startOption |].
  apply grows_if.
  - apply grows_if; [apply grows_startOption |].
    apply grows_for_each. intros c. apply grows_startOption.
  - destruct (Parser.mpActiveOption p) as [i |]; [| apply grows_addFreeArgument].
    apply grows_bind; [apply grows_option_at |]. intros option.
    apply grows_if; [| apply grows_ret].
    apply grows_bind; [apply grows_setValue |]. intros _.
    apply grows_bind; [apply grows_option_at |]. intros option'.
    apply grows_if; [apply grows_closeOption | apply grows_ret].
Qed.

Lemma for_each_app {S X} (xs ys : list X) (body : X -> M S unit) (s : S) :
  for_each (xs ++ ys) body s
  = match for_each xs body s with
    | (Ok _, s') => for_each ys body s'
    | other => other
    end.
Proof.
  revert s. induction xs as [| x xs IH]; intros s; [reflexivity |].
  cbn [app for_each]. unfold bind.
  destruct (body x s) as [[[] | e | c] s1]; [apply IH | reflexivity | reflexivity].
Qed.

(** X25.  Parsing tokens only adds to the result: the errors and the free
    arguments recorded so far stay where they are, in front of the new
    ones, and the cursor over the positionals never moves back, also when
    the parse is ended by an exception. *)
Theorem tokens_only_add_to_the_result :
  forall (before after : list string) s,
    extends (fst s) (fst (snd (for_each before Parser.parse_arg s)))
    /\ extends (fst (snd (for_each before Parser.parse_arg s)))
               (fst (snd (for_each (before ++ after) Parser.parse_arg s))).
Proof.
  intros before after s. split.
  - apply (grows_for_each before Parser.parse_arg grows_parse_arg).
  - rewrite for_each_app.
    destruct (for_each before Parser.parse_arg s) as [[[] | e | c] s1]; cbn [fst snd];
      try apply extends_refl.
    apply (grows_for_each after Parser.parse_arg grows_parse_arg).
Qed.

Lemma keeps_mode_ret {A} (a : A) : keeps_mode (TValue := TValue) (ret a).
Proof. intros s. reflexivity. Qed.

Lemma keeps_mode_bind {A B} (m : M (Parser.state TValue) A)
    (k : A -> M (Parser.state TValue) B) :
  keeps_mode m -> (forall a, keeps_mode (k a)) -> keeps_mode (bind m k).
Proof.
  intros Hm Hk s. unfold bind. specialize (Hm s).
  destruct (m s) as [[a | e | c] s1]; cbn [snd] in *; try exact Hm.
  rewrite (Hk a s1). exact Hm.
Qed.

Lemma keeps_mode_if {A} (b : bool) (m1 m2 : M (Parser.state TValue) A) :
  keeps_mode m1 -> keeps_mode m2 -> keeps_mode (if b then m1 else m2).
Proof. destruct b; auto. Qed.

Lemma keeps_mode_on_this (f : Parser.t -> Parser.t) :
  (forall p, Parser.mIgnoreOptions (f p) = Parser.mIgnoreOptions p) ->
  keeps_mode (TValue := TValue) (Parser.on_this f).
Proof. intros Hf [p w]. apply Hf. Qed.

Lemma keeps_mode_addError (name : string) code :
  keeps_mode (TValue := TValue) (Parser.addError name code).
Proof. intros [p w]. reflexivity. Qed.

Lemma keeps_mode_option_at r : keeps_mode (Parser.option_at (TValue := TValue) r).
Proof. intros [p [ap st]]. reflexivity. Qed.

Lemma keeps_mode_onOptionStarted r :
  keeps_mode (Parser.on_mArgParser (on_option (TValue := TValue) r Option.onOptionStarted)).
Proof. intros [p [ap st]]. rewrite onOptionStarted_at. reflexivity. Qed.

Lemma keeps_mode_setValue r (value : string) :
  keeps_mode (Parser.setValue (TValue := TValue) r value).
Proof.
  intros [p [ap st]].
  destruct (Parser_setValue_spec r value p ap st) as (o' & st' & errs & Hrun & _).
  rewrite Hrun. reflexivity.
Qed.

Lemma keeps_mode_closeOption : keeps_mode (Parser.closeOption (TValue := TValue)).
Proof.
  intros [p [ap st]].
  destruct (closeOption_frame p ap st) as (res & p' & ap' & st' & Hrun & _ & Hmode & _).
  rewrite Hrun. exact Hmode.
Qed.

Lemma keeps_mode_addFreeArgument (arg : string) :
  keeps_mode (Parser.addFreeArgument (TValue := TValue) arg).
Proof.
  intros [p [ap st]].
  destruct (addFreeArgument_spec arg p ap st) as (p' & ap' & st' & Hrun & _ & _ & Hmode & _).
  rewrite Hrun. exact Hmode.
Qed.

Lemma keeps_mode_startOption (name : string) :
  keeps_mode (Parser.startOption (TValue := TValue) name).
Proof.
  unfold Parser.startOption. apply keeps_mode_bind.
  { intros [p w]. cbv beta iota.
    apply (keeps_mode_if (Parser.haveActiveOption p));
      [apply keeps_mode_closeOption | apply keeps_mode_ret]. }
  intros _. destruct (Parser.split_argument name) as [name' arg].
  intros [p [ap st]]. cbv beta iota.
  destruct (Parser.findOption name' ap) as [i |]; [| apply keeps_mode_addError].
  apply keeps_mode_bind; [apply keeps_mode_onOptionStarted |]. intros _.
  apply keeps_mode_bind; [apply keeps_mode_option_at |]. intros option.
  apply keeps_mode_bind.
  - apply keeps_mode_if; [| apply keeps_mode_setValue].
    apply keeps_mode_on_this. reflexivity.
  - intros _. apply keeps_mode_if; [| apply keeps_mode_ret].
    apply keeps_mode_bind; [apply keeps_mode_option_at |]. intros option'.
    apply keeps_mode_if; [apply keeps_mode_setValue | apply keeps_mode_addError].
Qed.

Lemma keeps_mode_for_each {X} (xs : list X) (body : X -> M (Parser.state TValue) unit) :
  (forall x, x ∈ xs -> keeps_mode (body x)) -> keeps_mode (for_each xs body).
Proof.
  induction xs as [| x xs IH]; intros Hbody; cbn [for_each]; [apply keeps_mode_ret |].
  apply keeps_mode_bind; [apply Hbody; left |].
  intros _. apply IH. intros y Hy. apply Hbody. right. exact Hy.
Qed.

Lemma keeps_mode_parse_arg (arg : string) :
  arg <> "--" -> keeps_mode (Parser.parse_arg (TValue := TValue) arg).
Proof.
  intros Hne [p w]. unfold Parser.parse_arg. cbv beta iota.
  apply String.eqb_neq in Hne. rewrite Hne.
  apply keeps_mode_if; [apply keeps_mode_addFreeArgument |].
  apply keeps_mode_if; [apply keeps_mode_startOption |].
  apply keeps_mode_if.
  - apply keeps_mode_if; [apply keeps_mode_startOption |].
    apply keeps_mode_for_each. intros c _. apply keeps_mode_startOption.
  - destruct (Parser.mpActiveOption p) as [i |]; [| apply keeps_mode_addFreeArgument].
    apply keeps_mode_bind; [apply keeps_mode_option_at |]. intros option.
    apply keeps_mode_if; [| apply keeps_mode_ret].
    apply keeps_mode_bind; [apply keeps_mode_setValue |]. intros _.
    apply keeps_mode_bind; [apply keeps_mode_option_at |]. intros option'.
    apply keeps_mode_if; [apply keeps_mode_closeOption | apply keeps_mode_ret].
Qed.

(** X16.  Before [--] a lone [-] is skipped: it is an empty cluster of short
    options, so it starts no option, does not close the active one and is
    not a free argument.  The parse is that of the arguments without it. *)
Theorem lone_dash_is_skipped :
  forall (before after : list string) p (w : argument_parser.state TValue),
    Parser.mIgnoreOptions p = false ->
    "--" ∉ before ->
    Parser.parse (before ++ "-" :: after) (p, w) = Parser.parse (before ++ after) (p, w).
Proof.
  intros before after p w Hmode Hnone.
  unfold Parser.parse, bind.
  change (Parser.on_this
            (fun p => Parser.set_mResult (ParseResult.clear (Parser.mResult p)) p) (p, w))
    with (Ok tt, (Parser.set_mResult (ParseResult.clear (Parser.mResult p)) p, w)).
  cbv iota beta.
  set (p0 := Parser.set_mResult (ParseResult.clear (Parser.mResult p)) p).
  rewrite !for_each_app.
  pose proof (keeps_mode_for_each before Parser.parse_arg
                (fun x Hx => keeps_mode_parse_arg x
                               (fun Heq => Hnone (eq_ind _ (fun y => y ∈ before) Hx _ Heq)))
                (p0, w)) as Hkeep.
  destruct (for_each before Parser.parse_arg (p0, w)) as [[[] | e | c] [p1 w1]];
    try reflexivity.
  cbn [fst snd] in Hkeep. 
  cbn [for_each]. unfold bind at 1.
  assert (Parser.parse_arg "-" (p1, w1) = (Ok tt, (p1, w1))) as ->; [| reflexivity].
  unfold Parser.parse_arg. cbn. rewrite Hkeep. subst p0. cbn. rewrite Hmode. reflexivity.
Qed.
End FrameFacts.

(** ** The validation pass and parse_args *)

Section ReportFacts.
Context {TValue : Type}.
Implicit Types (ap : argument_parser.t TValue) (result : ParseResult.t).

Lemma report_fold {X} (c : X -> bool) (e : X -> ParseError) (l : list X) :
  forall result,
    fold_left (fun result x => if c x then ParseResult.add_error (e x) result else result)
              l result
    = {| ParseResult.ignoredArguments := ParseResult.ignoredArguments result;
         ParseResult.errors := ParseResult.errors result ++ List.map e (List.filter c l) |}.
Proof.
  induction l as [| x l IH]; intros result; cbn [fold_left List.filter].
  - cbn. rewrite app_nil_r. destruct result; reflexivity.
  - destruct (c x); rewrite IH; [| reflexivity].
    cbn. rewrite <- app_assoc. reflexivity.
Qed.

Lemma reportMissingOptions_lists_what_is_missing_lemma :
  forall ap result,
    ParseResult.errors (reportMissingOptions ap result)
    = ParseResult.errors result
      ++ List.map (fun o => mkParseError (Option.getName o) MISSING_OPTION)
           (List.filter (fun o => Option.isRequired o && negb (Option.wasAssigned o))
                        (mOptions ap))
      ++ List.map (fun o => mkParseError (Option.getName o) MISSING_ARGUMENT)
           (List.filter Option.needsMoreArguments (mPositional ap))
    /\ ParseResult.ignoredArguments (reportMissingOptions ap result)
       = ParseResult.ignoredArguments result.
Proof.
  intros ap result. unfold reportMissingOptions.
  rewrite (report_fold (fun o => Option.isRequired o && negb (Option.wasAssigned o))
             (fun o => mkParseError (Option.getName o) MISSING_OPTION)).
  rewrite (report_fold Option.needsMoreArguments
             (fun o => mkParseError (Option.getName o) MISSING_ARGUMENT)).
  cbn. rewrite <- app_assoc. split; reflexivity.
Qed.

(** X17.  [reportMissingOptions] appends MISSING_OPTION for each required
    option that was not assigned, in the order of the declarations, and then
    MISSING_ARGUMENT for each positional that needs more arguments; it
    appends nothing else and leaves the free arguments alone. *)
Theorem reportMissingOptions_lists_what_is_missing :
  forall ap result,
    ParseResult.errors (reportMissingOptions ap result)
    = ParseResult.errors result
      ++ List.map (fun o => mkParseError (Option.getName o) MISSING_OPTION)
           (List.filter (fun o => Option.isRequired o && negb (Option.wasAssigned o))
                        (mOptions ap))
      ++ List.map (fun o => mkParseError (Option.getName o) MISSING_ARGUMENT)
           (List.filter Option.needsMoreArguments (mPositional ap))
    /\ ParseResult.ignoredArguments (reportMissingOptions ap result)
       = ParseResult.ignoredArguments result.
Proof. exact reportMissingOptions_lists_what_is_missing_lemma. Qed.

Lemma required_counts_fold ap (l : list (Option.t TValue)) :
  forall counts,
    keys_increasing counts ->
    let counts' :=
      fold_left (fun counts option =>
        let pGroup := Option.getGroup option in
        if group_isRequired pGroup ap
        then map_update (group_getName pGroup ap) 0
               (fun n => n + (if Option.wasAssigned option then 1 else 0)) counts
        else counts) l counts in
    keys_increasing counts'
    /\ forall g,
        map_find g counts'
        = match List.filter (fun option =>
                   group_isRequired (Option.getGroup option) ap
                   && String.eqb (group_getName (Option.getGroup option) ap) g) l with
          | [] => map_find g counts
          | ms => Some (default 0 (map_find g counts)
                        + Z.of_nat (length (List.filter Option.wasAssigned ms)))
          end.
Proof.
  induction l as [| option l IH]; intros counts Hs; cbn.
  - split; [exact Hs | reflexivity].
  - destruct (group_isRequired (Option.getGroup option) ap) eqn:Hcond; cbn.
    + specialize (IH _ (map_update_increasing
                          (group_getName (Option.getGroup option) ap) 0
                          (fun n => n + (if Option.wasAssigned option then 1 else 0))
                          counts Hs)).
      cbn in IH. destruct IH as [IHs IHf]. split; [exact IHs |].
      intros g. rewrite IHf. rewrite map_find_update by exact Hs.
      rewrite (String.eqb_sym g).
      destruct (String.eqb (group_getName (Option.getGroup option) ap) g) eqn:Hg; cbn.
      * apply String.eqb_eq in Hg. subst g.
        destruct (List.filter _ l) as [| m ms]; cbn [List.filter length default];
          destruct (Option.wasAssigned option); cbn [List.filter length default];
          f_equal; lia.
      * reflexivity.
    + specialize (IH _ Hs). cbn in IH. exact IH.
Qed.

Lemma required_counts_increasing ap : keys_increasing (required_counts ap).
Proof.
  unfold required_counts.
  apply (required_counts_fold ap (mOptions ap) []). constructor.
Qed.

Lemma required_counts_find ap g :
  map_find g (required_counts ap)
  = match members_of_required_group ap g with
    | [] => None
    | ms => Some (Z.of_nat (length (List.filter Option.wasAssigned ms)))
    end.
Proof.
  unfold required_counts, members_of_required_group.
  destruct (required_counts_fold ap (mOptions ap) []) as [_ H]; [constructor |].
  rewrite H. destruct (List.filter _ (mOptions ap)); reflexivity.
Qed.

Lemma map_find_elem {V} (m : list (string * V)) (g : string) (v : V) :
  keys_increasing m -> (g, v) ∈ m -> map_find g m = Some v.
Proof.
  induction m as [| [k w] m IH]; intros Hs Hin; [inversion Hin |].
  apply keys_increasing_cons_inv in Hs as [Hs Hlt].
  apply elem_of_cons in Hin as [[= -> ->] | Hin]; cbn.
  - rewrite String.eqb_refl. reflexivity.
  - destruct (String.eqb_spec g k) as [-> | Hne]; [| apply IH; assumption].
    exfalso. rewrite Forall_forall in Hlt.
    assert (String.compare k k = Lt) as Hkk.
    { apply Hlt. apply list_elem_of_In. apply (in_map fst m (k, v)).
      apply list_elem_of_In. exact Hin. }
    apply compare_lt_neq in Hkk. congruence.
Qed.

Lemma map_find_Some_elem {V} (m : list (string * V)) (g : string) (v : V) :
  map_find g m = Some v -> (g, v) ∈ m.
Proof.
  induction m as [| [k w] m IH]; cbn; [discriminate |].
  destruct (String.eqb_spec g k) as [-> | Hne].
  - intros [= ->]. left.
  - intros H. right. apply IH, H.
Qed.

Lemma keys_NoDup {V} (m : list (string * V)) (c : string * V -> bool) :
  keys_increasing m -> NoDup (List.map fst (List.filter c m)).
Proof.
  induction m as [| [k w] m IH]; intros Hs; cbn; [constructor |].
  apply keys_increasing_cons_inv in Hs as [Hs Hlt].
  destruct (c (k, w)); [| apply IH, Hs].
  cbn. constructor; [| apply IH, Hs].
  intros Hin. apply list_elem_of_In, in_map_iff in Hin as ([k' w'] & Hk & Hin).
  cbn in Hk. subst k'.
  apply filter_In in Hin as [Hin _].
  rewrite Forall_forall in Hlt.
  assert (String.compare k k = Lt) as Hkk.
  { apply Hlt. apply list_elem_of_In. apply (in_map fst m (k, w')). exact Hin. }
  apply compare_lt_neq in Hkk. congruence.
Qed.

Lemma reportMissingGroups_spec :
  forall ap result,
  exists missing : list string,
    ParseResult.errors (reportMissingGroups ap result)
    = ParseResult.errors result
      ++ List.map (fun g => mkParseError g MISSING_OPTION_GROUP) missing
    /\ ParseResult.ignoredArguments (reportMissingGroups ap result)
       = ParseResult.ignoredArguments result
    /\ NoDup missing
    /\ forall g,
         g ∈ missing
         <-> members_of_required_group ap g <> []
             /\ Forall (fun o => Option.wasAssigned o = false)
                       (members_of_required_group ap g).
Proof.
  intros ap result.
  exists (List.map fst (List.filter (fun c => snd c <? 1) (required_counts ap))).
  unfold reportMissingGroups.
  rewrite (report_fold (fun c : string * Z => snd c <? 1)
             (fun c => mkParseError (fst c) MISSING_OPTION_GROUP)).
  cbn [ParseResult.errors ParseResult.ignoredArguments].
  split; [rewrite List.map_map; reflexivity |]. split; [reflexivity |].
  split; [apply keys_NoDup, required_counts_increasing |].
  intros g.
  assert (forall ms : list (Option.t TValue),
             Z.of_nat (length (List.filter Option.wasAssigned ms)) < 1
             <-> Forall (fun o => Option.wasAssigned o = false) ms) as Hnone.
  { induction ms as [| m ms IH]; cbn.
    - split; [constructor | lia].
    - destruct (Option.wasAssigned m) eqn:Hm; cbn [length].
      + split; [lia |]. intros H. apply Forall_cons in H as [H _]. congruence.
      + rewrite IH. split; [intros H; constructor; [exact Hm | exact H] |].
        intros H. apply Forall_cons in H as [_ H]. exact H. }
  pose proof (required_counts_find ap g) as Hfind.
  split.
  - intros Hin. apply list_elem_of_In, in_map_iff in Hin as ([k n] & Hk & Hin).
    cbn in Hk. subst k.
    apply filter_In in Hin as [Hin Hn]. apply list_elem_of_In in Hin.
    apply (map_find_elem _ _ _ (required_counts_increasing ap)) in Hin.
    rewrite Hin in Hfind. cbn in Hn. apply Z.ltb_lt in Hn.
    destruct (members_of_required_group ap g) as [| m ms]; [discriminate |].
    injection Hfind as ->. split; [discriminate |]. apply Hnone. exact Hn.
  - intros [Hsome Hall].
    destruct (members_of_required_group ap g) as [| m ms] eqn:Hms; [contradiction |].
    apply map_find_Some_elem in Hfind.
    apply Hnone in Hall.
    apply list_elem_of_In.
    apply (in_map fst _ (g, Z.of_nat (length (List.filter Option.wasAssigned (m :: ms))))).
    apply filter_In.
    split; [apply list_elem_of_In; exact Hfind |].
    cbn [snd]. apply Z.ltb_lt. exact Hall.
Qed.

(** X18.  [reportMissingGroups] appends only MISSING_OPTION_GROUP errors,
    no two for the same name, and it names [g] exactly when some option is
    in the required group named [g] and none of them was assigned.  A
    required group without options is not reported. *)
Theorem reportMissingGroups_names_unmet_groups :
  forall ap result,
  exists missing : list string,
    ParseResult.errors (reportMissingGroups ap result)
    = ParseResult.errors result
      ++ List.map (fun g => mkParseError g MISSING_OPTION_GROUP) missing
    /\ ParseResult.ignoredArguments (reportMissingGroups ap result)
       = ParseResult.ignoredArguments result
    /\ NoDup missing
    /\ forall g,
         g ∈ missing
         <-> members_of_required_group ap g <> []
             /\ Forall (fun o => Option.wasAssigned o = false)
                       (members_of_required_group ap g).
Proof. exact reportMissingGroups_spec. Qed.

Lemma verifyDefinedOptions_refuses ap (before after : list (Option.t TValue)) opt :
  mOptions ap = before ++ opt :: after ->
  Forall (fun o => Option.isRequired o && group_isExclusive (Option.getGroup o) ap = false)
         before ->
  Option.isRequired opt = true ->
  group_isExclusive (Option.getGroup opt) ap = true ->
  verifyDefinedOptions ap
  = (Raise (RequiredExclusiveOption (Option.getName opt)
              (group_getName (Option.getGroup opt) ap)), ap).
Proof.
  intros Hopts Hbefore Hreq Hex. unfold verifyDefinedOptions. rewrite Hopts.
  clear Hopts. induction before as [| o before IH]; cbn [app for_each]; unfold bind.
  - rewrite Hreq, Hex. reflexivity.
  - apply Forall_cons in Hbefore as [Ho Hbefore].
    destruct (Option.isRequired o); cbn in Ho; [rewrite Ho |];
      cbn; apply IH; exact Hbefore.
Qed.

(** X19.  When a required option is in an exclusive group, [parse_args]
    throws [RequiredExclusiveOption] for the first such option before it
    resets or parses anything: only the default help option may have been
    added.  The name of the option is passed where the constructor expects
    the name of the group, so the message has the two names exchanged. *)
Theorem required_option_in_exclusive_group_is_refused :
  forall ap st (args : list string) (before after : list (Option.t TValue)) opt,
    mOptions ap = before ++ opt :: after ->
    Forall (fun o => Option.isRequired o && group_isExclusive (Option.getGroup o) ap = false)
           before ->
    Option.isRequired opt = true ->
    group_isExclusive (Option.getGroup opt) ap = true ->
    parse_args args (ap, st)
    = (Raise (RequiredExclusiveOption (Option.getName opt)
                (group_getName (Option.getGroup opt) ap)),
       (with_default_help ap, st))
    /\ what (RequiredExclusiveOption (Option.getName opt)
               (group_getName (Option.getGroup opt) ap))
       = "Option '" +:+ group_getName (Option.getGroup opt) ap
         +:+ "' is required in exclusive group '" +:+ Option.getName opt +:+ "'".
Proof.
  intros ap st args before after opt Hopts Hbefore Hreq Hex.
  split; [| reflexivity].
  rewrite parse_args_cases.
  assert (exists after', mOptions (with_default_help ap) = before ++ opt :: after')
    as [after' Hopts'].
  { unfold with_default_help. destruct (bool_decide _).
    - exists (after ++ [default_help_option (mpActiveGroup ap)]).
      cbn [mOptions set_mOptions set_mHelpOptionNames]. rewrite Hopts, <- app_assoc.
      reflexivity.
    - exists after. exact Hopts. }
  assert (forall pGroup, group_isExclusive pGroup (with_default_help ap)
                         = group_isExclusive pGroup ap) as Hgex
    by (intros; unfold with_default_help; destruct (bool_decide _); reflexivity).
  assert (forall pGroup, group_getName pGroup (with_default_help ap)
                         = group_getName pGroup ap) as Hgname
    by (intros; unfold with_default_help; destruct (bool_decide _); reflexivity).
  rewrite (verifyDefinedOptions_refuses (with_default_help ap) before after' opt Hopts').
  - cbn [fst]. rewrite Hgname. reflexivity.
  - eapply Forall_impl; [exact Hbefore |]. intros o Ho. cbn beta in *.
    rewrite Hgex. exact Ho.
  - exact Hreq.
  - rewrite Hgex. exact Hex.
Qed.

Lemma filter_map_reset {X} (c c' : Option.t TValue -> bool) (e e' : Option.t TValue -> X)
    (l : list (Option.t TValue)) :
  (forall o, c (reset_option o) = c' o) ->
  (forall o, e (reset_option o) = e' o) ->
  List.map e (List.filter c (List.map reset_option l)) = List.map e' (List.filter c' l).
Proof.
  intros Hc He. induction l as [| o l IH]; [reflexivity |].
  cbn [List.map List.filter]. rewrite Hc. destruct (c' o); cbn [List.map]; rewrite ?He, IH;
    reflexivity.
Qed.

Lemma exclusive_counts_unassigned ap :
  Forall (fun o => Option.wasAssigned o = false) (mOptions ap) ->
  exclusive_counts ap = [].
Proof.
  unfold exclusive_counts. generalize (@nil (string * list string)).
  induction (mOptions ap) as [| o l IH]; intros counts Hall; cbn [fold_left];
    [reflexivity |].
  apply Forall_cons in Hall as [Ho Hall]. rewrite Ho, andb_false_r. apply IH, Hall.
Qed.

(** X20.  On an empty argument list, with consistent declarations,
    [parse_args] returns no free argument and these errors only:
    MISSING_OPTION for each required option, MISSING_ARGUMENT for each
    positional with a minimum above zero, and MISSING_OPTION_GROUP once for
    each required group that has an option.  The registry and the variables
    are as the reset loops left them. *)
Theorem parse_args_without_arguments :
  forall ap st,
    declarations_verified ap ->
    exists groups : list string,
      parse_args [] (ap, st)
      = (Ok {| ParseResult.ignoredArguments := [];
               ParseResult.errors :=
                 List.map (fun o => mkParseError (Option.getName o) MISSING_OPTION)
                   (List.filter Option.isRequired (mOptions (with_default_help ap)))
                 ++ List.map (fun o => mkParseError (Option.getName o) MISSING_ARGUMENT)
                      (List.filter (fun o => 0 <? Option.mMinArgs o) (mPositional ap))
                 ++ List.map (fun g => mkParseError g MISSING_OPTION_GROUP) groups |},
         reset_state (with_default_help ap, st))
      /\ NoDup groups
      /\ forall g, g ∈ groups <-> members_of_required_group (with_default_help ap) g <> [].
Proof.
  intros ap st Hok.
  set (ap1 := with_default_help ap).
  assert (mPositional ap1 = mPositional ap) as Hpos
    by (subst ap1; unfold with_default_help; destruct (bool_decide _); reflexivity).
  set (r1 := reportExclusiveViolations (reset_registry ap1)
               (reportMissingOptions (reset_registry ap1) ParseResult.empty)).
  destruct (reportMissingGroups_spec (reset_registry ap1) r1)
    as (groups & Herrors & Hignored & Hnodup & Hgroups).
  exists groups.
  assert (forall g, members_of_required_group (reset_registry ap1) g
                    = List.map reset_option (members_of_required_group ap1 g)) as Hmembers.
  { intros g. unfold members_of_required_group. cbn [reset_registry mOptions set_mOptions
      set_mPositional].
    induction (mOptions ap1) as [| o l IH]; [reflexivity |].
    cbn [List.map List.filter].
    change (group_isRequired (Option.getGroup (reset_option o)) (reset_registry ap1))
      with (group_isRequired (Option.getGroup o) ap1).
    change (group_getName (Option.getGroup (reset_option o)) (reset_registry ap1))
      with (group_getName (Option.getGroup o) ap1).
    destruct (_ && _); cbn [List.map]; rewrite IH; reflexivity. }
  assert (r1 = {| ParseResult.ignoredArguments := [];
                  ParseResult.errors :=
                    List.map (fun o => mkParseError (Option.getName o) MISSING_OPTION)
                      (List.filter Option.isRequired (mOptions ap1))
                    ++ List.map (fun o => mkParseError (Option.getName o) MISSING_ARGUMENT)
                         (List.filter (fun o => 0 <? Option.mMinArgs o) (mPositional ap)) |})
    as Hr1.
  { subst r1. unfold reportExclusiveViolations.
    rewrite exclusive_counts_unassigned
      by (cbn [reset_registry mOptions set_mOptions set_mPositional];
          apply Forall_forall; intros o Ho;
          apply list_elem_of_In, in_map_iff in Ho as (o' & <- & _); reflexivity).
    cbn [fold_left].
    destruct (reportMissingOptions_lists_what_is_missing_lemma (reset_registry ap1)
                ParseResult.empty) as [He Hi].
    destruct (reportMissingOptions (reset_registry ap1) ParseResult.empty) as [ign errs].
    cbn [ParseResult.errors ParseResult.ignoredArguments ParseResult.empty] in He, Hi.
    subst ign errs. cbn [app]. f_equal.
    cbn [reset_registry mOptions mPositional set_mOptions set_mPositional].
    rewrite <- Hpos. f_equal.
    - apply filter_map_reset; intros o; [| reflexivity].
      unfold Option.wasAssigned. cbn. rewrite andb_true_r. reflexivity.
    - apply filter_map_reset; intros o; reflexivity. }
  split; [| split; [exact Hnodup |]].
  - unfold parse_args.
    rewrite (prepare_spec (parse_prepared []) ap st Hok). fold ap1.
    unfold parse_prepared, reset_state. cbn [fst snd].
    change (find_help_request [] (reset_registry ap1)) with (@None string).
    change (Parser.parse [] (Parser.make, (reset_registry ap1, reset_store ap1 st)))
      with (Ok ParseResult.empty,
            (Parser.make, (reset_registry ap1, reset_store ap1 st))).
    cbv iota beta. fold r1.
    destruct (reportMissingGroups (reset_registry ap1) r1) as [ign errs].
    cbn [ParseResult.errors ParseResult.ignoredArguments] in Herrors, Hignored.
    subst ign errs. rewrite Hr1. cbn [ParseResult.errors ParseResult.ignoredArguments].
    rewrite <- app_assoc. reflexivity.
  - intros g. rewrite Hgroups, Hmembers. split.
    + intros [Hsome _] Hnil. apply Hsome. rewrite Hnil. reflexivity.
    + intros Hsome. split.
      * intros Hnil. apply Hsome. destruct (members_of_required_group ap1 g);
          [reflexivity | discriminate].
      * apply Forall_forall. intros o Ho.
        apply list_elem_of_In, in_map_iff in Ho as (o' & <- & _). reflexivity.
Qed.
End ReportFacts.

(** ** Descriptions *)

Section DescribeFacts.
Context {TValue : Type}.
Implicit Types (ap : argument_parser.t TValue) (o : Option.t TValue).

Lemma joined_commutes (m : string) (n : nat) :
  String.concat " " (repeat m (S n)) +:+ " " +:+ m
  = m +:+ " " +:+ String.concat " " (repeat m (S n)).
Proof.
  induction n as [| n IH]; [reflexivity |].
  change (String.concat " " (repeat m (S (S n))))
    with (m +:+ " " +:+ String.concat " " (repeat m (S n))).
  rewrite !append_assoc, IH. reflexivity.
Qed.

Lemma repeated_is_joined (m : string) (n : nat) :
  Nat.iter n (fun res => res +:+ " " +:+ m) m = String.concat " " (repeat m (S n)).
Proof.
  induction n as [| n IH]; [reflexivity |].
  rewrite Nat.iter_succ, IH, joined_commutes. reflexivity.
Qed.

Lemma joined_nonempty (m : string) (n : nat) :
  m <> "" -> String.eqb (String.concat " " (repeat m (S n))) "" = false.
Proof.
  intros Hm. destruct n as [| n].
  - cbn. destruct m; [contradiction | reflexivity].
  - change (String.concat " " (repeat m (S (S n))))
      with (m +:+ " " +:+ String.concat " " (repeat m (S n))).
    destruct m; [contradiction | reflexivity].
Qed.

Lemma find_first_not_of_dashes (n : nat) (c : ascii) (rest : string) :
  c <> "-"%char ->
  find_first_not_of "-" (dashes n (String c rest)) = Some n
  /\ substr_from n (dashes n (String c rest)) = String c rest.
Proof.
  intros Hc. induction n as [| n [IHf IHs]].
  - split.
    + cbn. destruct (Ascii.eqb_spec c "-"); [contradiction | reflexivity].
    + change (dashes 0 (String c rest)) with (String c rest).
      unfold substr_from. rewrite Nat.sub_0_r. apply substring_all.
  - split.
    + unfold dashes in *. rewrite Nat.iter_succ.
      cbn [find_first_not_of string_exists]. rewrite IHf. reflexivity.
    + unfold dashes in *. rewrite Nat.iter_succ. exact IHs.
Qed.

Lemma find_first_not_of_only_dashes (n : nat) :
  find_first_not_of "-" (dashes n "") = None.
Proof.
  induction n as [| n IH]; [reflexivity |].
  unfold dashes in *. rewrite Nat.iter_succ.
  cbn [find_first_not_of string_exists]. rewrite IH. reflexivity.
Qed.

Lemma transform_nonempty (f : ascii -> ascii) (s : string) :
  s <> "" -> transform f s <> "".
Proof. destruct s; [contradiction | discriminate]. Qed.

Lemma substr_from_found (chars s : string) (pos : nat) :
  find_first_not_of chars s = Some pos -> substr_from pos s <> "".
Proof.
  revert pos. induction s as [| c s IH]; intros pos; cbn; [discriminate |].
  destruct (string_exists (Ascii.eqb c) chars).
  - destruct (find_first_not_of chars s) as [q |]; [| discriminate].
    intros [= <-]. apply (IH q eq_refl).
  - intros [= <-]. unfold substr_from. cbn. discriminate.
Qed.

Lemma getMetavar_nonempty o (metavar : string) :
  Option.getMetavar o = Ok metavar -> metavar <> "".
Proof.
  unfold Option.getMetavar.
  destruct (String.eqb_spec (Option.mMetavar o) "") as [He | Hne]; cbn [negb].
  - destruct (find_first_not_of "-" (Option.getName o)) eqn:Hpos; [| discriminate].
    intros [= <-]. apply transform_nonempty. eapply substr_from_found. exact Hpos.
  - intros [= <-]. exact Hne.
Qed.

(** X21.  [getMetavar] returns the metavar that was set; without one, the
    name without its leading dashes, in upper case; and for a name made of
    dashes only it throws [std::out_of_range]. *)
Theorem metavar_of_an_option :
  forall o,
    (Option.mMetavar o <> "" -> Option.getMetavar o = Ok (Option.mMetavar o))
    /\ (forall (n : nat) (c : ascii) (rest : string),
          Option.mMetavar o = "" ->
          c <> "-"%char ->
          Option.getName o = dashes n (String c rest) ->
          Option.getMetavar o = Ok (transform toupper (String c rest)))
    /\ (forall n : nat,
          Option.mMetavar o = "" ->
          Option.getName o = dashes n "" ->
          Option.getMetavar o = Raise (std_out_of_range "basic_string::substr")).
Proof.
  intros o. unfold Option.getMetavar. split; [| split].
  - intros Hne. apply String.eqb_neq in Hne. rewrite Hne. reflexivity.
  - intros n c rest -> Hc ->. cbn [String.eqb negb].
    destruct (find_first_not_of_dashes n c rest Hc) as [-> ->]. reflexivity.
  - intros n -> ->. cbn [String.eqb negb].
    rewrite find_first_not_of_only_dashes. reflexivity.
Qed.

Ltac decide_tests :=
  repeat match goal with
         | |- context [?a <? ?b] => destruct (Z.ltb_spec a b); try lia
         | |- context [?a =? ?b] => destruct (Z.eqb_spec a b); try lia
         end.

Lemma described_setCounts o ap (metavar : string) (a b : Z) :
  Option.getMetavar o = Ok metavar ->
  described_arguments (Option.setCounts a b o) ap
  = Some (if (0 <? a) || negb (b =? 0) then
            let res :=
              if 0 <? a
              then Nat.iter (Z.to_nat (a - 1)) (fun res => res +:+ " " +:+ metavar) metavar
              else "" in
            if b <? a then
              res +:+ ((if String.eqb res "" then "[" else " [") +:+ metavar +:+ " ...]")
            else if b - a =? 1 then res +:+ ("[" +:+ metavar +:+ "]")
            else if a <? b then
              res +:+ ((if String.eqb res "" then "[" else " [") +:+ metavar +:+ " {0.."
                       +:+ to_string (b - a) +:+ "}]")
            else res
          else "").
Proof.
  intros Hmeta. unfold described_arguments, describeOption, bind.
  unfold Option.acceptsAnyArguments.
  cbn [Option.setCounts Option.mMinArgs Option.mMaxArgs Option.getArgumentCounts].
  change (Option.getMetavar (Option.setCounts a b o)) with (Option.getMetavar o).
  rewrite Hmeta.
  destruct ((0 <? a) || negb (b =? 0)); reflexivity.
Qed.

(** X22.  The summary of the arguments in a description: nothing for a
    flag; the metavar, [n] times, separated by single spaces, for
    [nargs( n )]; the same followed by [[M ...]] for [minargs( n )]; [[M]]
    for [maxargs( 1 )] and [[M {0..n}]] for [maxargs( n )] with [n] above
    one. *)
Theorem summary_of_the_arguments :
  forall o ap (metavar : string) (n : nat),
    Option.getMetavar o = Ok metavar ->
    described_arguments (Option.setNArgs 0 o) ap = Some ""
    /\ described_arguments (Option.setNArgs (Z.of_nat (S n)) o) ap
       = Some (String.concat " " (repeat metavar (S n)))
    /\ described_arguments (Option.setMinArgs 0 o) ap = Some ("[" +:+ metavar +:+ " ...]")
    /\ described_arguments (Option.setMinArgs (Z.of_nat (S n)) o) ap
       = Some (String.concat " " (repeat metavar (S n)) +:+ " [" +:+ metavar +:+ " ...]")
    /\ described_arguments (Option.setMaxArgs 0 o) ap = Some ""
    /\ described_arguments (Option.setMaxArgs 1 o) ap = Some ("[" +:+ metavar +:+ "]")
    /\ described_arguments (Option.setMaxArgs (Z.of_nat (S (S n))) o) ap
       = Some ("[" +:+ metavar +:+ " {0.." +:+ to_string (Z.of_nat (S (S n))) +:+ "}]").
Proof.
  intros o ap metavar n Hmeta.
  pose proof (getMetavar_nonempty o metavar Hmeta) as Hne.
  pose proof (joined_nonempty metavar n Hne) as Hjoined.
  unfold Option.setNArgs, Option.setMinArgs, Option.setMaxArgs.
  rewrite !(described_setCounts o ap metavar _ _ Hmeta). cbv zeta.
  set (N := Z.of_nat (S n)). set (N2 := Z.of_nat (S (S n))).
  assert (0 < N) as HN by (subst N; lia).
  assert (1 < N2) as HN2 by (subst N2; lia).
  assert (Z.to_nat (N - 1) = n) as Hn by (subst N; lia).
  rewrite !Z.max_r by lia.
  repeat split; decide_tests; rewrite ?Hn, ?repeated_is_joined, ?Hjoined;
    try replace (N2 - 0) with N2 by lia; reflexivity.
Qed.

Lemma find_is_findOption (name : string) ap :
  List.find (Option.hasName name) (mOptions ap)
  = (fun i => mOptions ap !!! i) <$> Parser.findOption name ap.
Proof.
  unfold Parser.findOption.
  induction (mOptions ap) as [| o l IH]; [reflexivity |].
  cbn [List.find]. cbn.
  destruct (Option.hasName name o); cbn; [reflexivity |].
  destruct (decide False) as [[] | _]. rewrite IH.
  destruct (list_find _ l) as [[i x] |]; reflexivity.
Qed.

(** X23.  For a name that begins with a dash, [describe_argument]
    describes the option that the parser finds for that name, and throws
    [std::invalid_argument] when the parser finds none. *)
Theorem describe_argument_finds_what_the_parser_finds :
  forall (name : string) ap,
    substring 0 1 name = "-" ->
    describe_argument name ap
    = match Parser.findOption name ap with
      | Some i => describeOption (mOptions ap !!! i) ap
      | None => (Raise (std_invalid_argument "Unknown option"), ap)
      end.
Proof.
  intros name ap Hdash. unfold describe_argument. rewrite Hdash.
  change (String.eqb "-" "-") with true. cbv iota.
  rewrite find_is_findOption.
  destruct (Parser.findOption name ap); reflexivity.
Qed.

Lemma describeOption_cases o ap :
  (exists d, describeOption o ap = (Ok d, ap)
             /\ ArgumentHelpResult.short_name d = Option.getShortName o
             /\ ArgumentHelpResult.long_name d = Option.getLongName o
             /\ ArgumentHelpResult.help d = Option.getRawHelp o
             /\ ArgumentHelpResult.required d = Option.isRequired o)
  \/ (Option.acceptsAnyArguments o = true
      /\ exists e, Option.getMetavar o = Raise e /\ describeOption o ap = (Raise e, ap)).
Proof.
  unfold describeOption, bind.
  destruct (Option.acceptsAnyArguments o); [| left; eexists; repeat split; reflexivity].
  unfold Option.getMetavar.
  destruct (negb (String.eqb (Option.mMetavar o) ""));
    [left; destruct (Option.getArgumentCounts o); eexists; repeat split; reflexivity |].
  destruct (find_first_not_of "-" (Option.getName o)).
  - left. destruct (Option.getArgumentCounts o). eexists. repeat split; reflexivity.
  - right. split; [reflexivity |]. eexists. split; reflexivity.
Qed.

Lemma push_descriptions_all (opts : list (Option.t TValue)) ap :
  forall descriptions,
    Forall (fun o => exists d, describeOption o ap = (Ok d, ap)) opts ->
    exists ds,
      push_descriptions opts descriptions ap = (Ok (descriptions ++ ds), ap)
      /\ Forall2 (fun o d => describeOption o ap = (Ok d, ap)) opts ds.
Proof.
  induction opts as [| o opts IH]; intros descriptions Hall.
  - exists []. rewrite app_nil_r. split; [reflexivity | constructor].
  - apply Forall_cons in Hall as [[d Hd] Hall].
    destruct (IH (descriptions ++ [d]) Hall) as (ds & Hrun & Hds).
    exists (d :: ds). cbn [push_descriptions]. unfold bind. rewrite Hd, Hrun.
    rewrite <- app_assoc. split; [reflexivity |]. constructor; assumption.
Qed.

(** X24.  When every option that accepts arguments has a metavar,
    [describe_arguments] returns one description for each option and then
    one for each positional, in the order of the declarations, each with the
    names of its option; the registry is unchanged. *)
Theorem describe_arguments_follows_the_declarations :
  forall ap,
    Forall (fun o => Option.acceptsAnyArguments o = true ->
                     exists metavar, Option.getMetavar o = Ok metavar)
           (mOptions ap ++ mPositional ap) ->
    exists ds,
      describe_arguments ap = (Ok ds, ap)
      /\ Forall2 (fun o d =>
                    describeOption o ap = (Ok d, ap)
                    /\ ArgumentHelpResult.short_name d = Option.getShortName o
                    /\ ArgumentHelpResult.long_name d = Option.getLongName o)
                 (mOptions ap ++ mPositional ap) ds.
Proof.
  intros ap Hall.
  assert (forall l, Forall (fun o => Option.acceptsAnyArguments o = true ->
                                      exists metavar, Option.getMetavar o = Ok metavar) l ->
                    Forall (fun o => exists d, describeOption o ap = (Ok d, ap)) l) as Hok.
  { intros l Hl. eapply Forall_impl; [exact Hl |]. intros o Ho. cbn beta in Ho.
    destruct (describeOption_cases o ap) as [(d & Hd & _) | (Hacc & e & He & _)].
    - exists d. exact Hd.
    - destruct (Ho Hacc) as [m Hm]. congruence. }
  apply Forall_app in Hall as [Hopts Hpos].
  destruct (push_descriptions_all (mOptions ap) ap [] (Hok _ Hopts)) as (ds1 & Hrun1 & Hds1).
  destruct (push_descriptions_all (mPositional ap) ap ds1 (Hok _ Hpos))
    as (ds2 & Hrun2 & Hds2).
  exists (ds1 ++ ds2). unfold describe_arguments, bind. rewrite Hrun1. cbn [app].
  rewrite Hrun2. split; [reflexivity |].
  apply Forall2_app; eapply Forall2_impl; try eassumption;
    intros o d Hd; cbn beta in *;
    (destruct (describeOption_cases o ap) as [(d' & Hd' & Hs & Hl & _) | (_ & e & _ & He)];
     [| congruence]);
    rewrite Hd' in Hd; injection Hd as <-; auto.
Qed.
End DescribeFacts.

(** * The theorems on concrete parsers *)

Section Instances.

(** A scalar positional [count], declared while the exclusive group [mode]
    is active: one argument, and no group. *)
Lemma C9_positional_defaults_witness :
  exists option,
    tryAddArgument (Option.make (Examples.long_at 0)) ["count"; ""]
      (Examples.built (add_exclusive_group "mode"))
    = (Ok (OptionConfig.mk in_mPositional 0 false),
       set_mPositional [option] (Examples.built (add_exclusive_group "mode")))
    /\ Option.mMinArgs option = 1
    /\ Option.mMaxArgs option = 1
    /\ Option.mpGroup option = None.
Proof.
  destruct (C9_positional_defaults
              (Examples.built (add_exclusive_group "mode"))
              (Option.make (Examples.long_at 0)) ["count"; ""]
              ltac:(discriminate) eq_refl eq_refl)
    as (option & Hrun & Hone & _ & Hexclusive & _).
  exists option. split; [exact Hrun |].
  destruct (Hone eq_refl) as [Hmin Hmax].
  split; [exact Hmin |]. split; [exact Hmax |].
  exact (Hexclusive eq_refl).
Defined.

(** [--on] and [--off] of the exclusive group [mode] were both assigned:
    the error names [--on]. *)
Lemma C6_exclusive_group_reported_once_witness :
  (2 <= length (assigned_in_exclusive_group Examples.both_switches "mode"))%nat
  /\ exists first,
      head (assigned_in_exclusive_group Examples.both_switches "mode") = Some first
      /\ Option.getName first = "--on"
      /\ In (mkParseError (Option.getName first) EXCLUSIVE_OPTION)
            (ParseResult.errors
               (reportExclusiveViolations Examples.both_switches ParseResult.empty)).
Proof.
  assert (2 <= length (assigned_in_exclusive_group Examples.both_switches "mode"))%nat
    as Hlen by (vm_compute; lia).
  split; [exact Hlen |].
  destruct (C6_exclusive_group_reported_once
              Examples.both_switches ParseResult.empty "mode" Hlen)
    as (first & before & after & Hhead & _ & _ & _ & Herrors & _).
  exists first. split; [exact Hhead |].
  split; [vm_compute in Hhead; injection Hhead as <-; reflexivity |].
  rewrite Herrors. apply in_or_app. right. apply in_or_app. right. left. reflexivity.
Defined.

(** [--count 5 -h --help] under the return policy. *)
Lemma C7_help_short_circuits_witness :
  exists (i : nat) (arg : string),
    ["--count"; "5"; "-h"; "--help"] !! i = Some arg
    /\ parse_args ["--count"; "5"; "-h"; "--help"] (Examples.returning, ∅)
       = (Ok {| ParseResult.ignoredArguments := [];
                ParseResult.errors := [mkParseError arg HELP_REQUESTED] |},
          reset_state (with_default_help Examples.returning, ∅)).
Proof.
  assert ("-h" ∈ ["--count"; "5"; "-h"; "--help"]) as Hin
    by (apply list_elem_of_In; cbn; tauto).
  assert ("-h" ∈ mHelpOptionNames (with_default_help Examples.returning)) as Hname
    by (unfold with_default_help; cbn; set_solver).
  assert (declarations_verified Examples.returning) as Hok
    by (repeat constructor).
  destruct (C7_help_short_circuits Examples.returning ∅ _ "-h" Hin Hname Hok)
    as (i & arg & Hi & _ & _ & _ & _ & Hreturn).
  exists i, arg. split; [exact Hi | exact (Hreturn eq_refl)].
Defined.

(** [--bogus 5] against [--value] and [--skipped]. *)
Lemma C5_unknown_option_witness :
  Parser.parse_arg "--bogus" (Parser.make, (Examples.value_and_flag, ∅))
  = (Ok tt,
     (with_errors [mkParseError "--bogus" UNKNOWN_OPTION] Parser.make,
      (Examples.value_and_flag, ∅)))
  /\ Parser.parse_arg "5"
       (with_errors [mkParseError "--bogus" UNKNOWN_OPTION] Parser.make,
        (Examples.value_and_flag, ∅))
     = Parser.addFreeArgument "5"
         (with_errors [mkParseError "--bogus" UNKNOWN_OPTION] Parser.make,
          (Examples.value_and_flag, ∅)).
Proof.
  destruct (C5_unknown_option Parser.make Examples.value_and_flag ∅ "--bogus"
              eq_refl ltac:(discriminate) (or_introl eq_refl) eq_refl)
    as (_ & Hrun & Hafter).
  split; [exact (Hrun eq_refl) |].
  destruct (Hafter _ _ _ (Hrun eq_refl)) as (_ & _ & Hnext).
  apply Hnext. discriminate.
Defined.

(** [--skipped=yes], where [--skipped] is a flag. *)
Lemma C4_flag_with_value_witness :
  exists p1 ap1 st1,
    Parser.parse ["--skipped=yes"] (Parser.make, (Examples.value_and_flag, ∅))
    = (Ok (Parser.mResult (with_errors [mkParseError "--skipped" FLAG_PARAMETER] p1)),
       (with_errors [mkParseError "--skipped" FLAG_PARAMETER] p1, (ap1, st1)))
    /\ count_errors FLAG_PARAMETER
         (ParseResult.errors
            (Parser.mResult (with_errors [mkParseError "--skipped" FLAG_PARAMETER] p1)))
       = 1%nat
    /\ ParseResult.ignoredArguments
         (Parser.mResult (with_errors [mkParseError "--skipped" FLAG_PARAMETER] p1)) = [].
Proof.
  assert (Parser.split_argument "--skipped=yes" = ("--skipped", "yes")) as Hsplit
    by (vm_compute; reflexivity).
  assert (Parser.findOption "--skipped" Examples.value_and_flag = Some 1%nat) as Hfind
    by (vm_compute; reflexivity).
  assert (mOptions Examples.value_and_flag !! 1%nat
          = Some (mOptions Examples.value_and_flag !!! 1%nat)) as Hopt
    by (vm_compute; reflexivity).
  assert (Option.acceptsAnyArguments (mOptions Examples.value_and_flag !!! 1%nat) = false)
    as Hflag by (vm_compute; reflexivity).
  destruct (C4_flag_with_value Examples.value_and_flag ∅ "--skipped=yes"
              "--skipped" "yes" 1%nat (mOptions Examples.value_and_flag !!! 1%nat)
              eq_refl Hsplit ltac:(discriminate) Hfind Hopt Hflag)
    as (p1 & ap1 & st1 & _ & Hrun & Hcount & Hfree).
  exists p1, ap1, st1. split; [exact Hrun |]. split; [exact Hcount | exact Hfree].
Defined.

(** [--value 5 -- --skipped], where [--skipped] is itself an option: it is
    an ignored argument when there is no positional, and it is stored in the
    variable of the positional [file] when there is one. *)
Lemma C3_dashdash_ends_option_parsing_witness :
  Parser.parse ["--value"; "5"; "--"; "--skipped"]
    (Parser.make, (Examples.value_and_flag, ∅))
  = (Ok {| ParseResult.ignoredArguments := ["--skipped"]; ParseResult.errors := [] |},
     (Parser.mk true (length (mPositional Examples.value_and_flag)) None
        {| ParseResult.ignoredArguments := ["--skipped"]; ParseResult.errors := [] |},
      (assign (in_mOptions 0)
         (assigned_once (started (mOptions Examples.value_and_flag !!! 0%nat)))
         Examples.value_and_flag,
       <[0%nat := Scalar (Examples.VLong 5)]> ∅)))
  /\ Parser.parse ["--value"; "5"; "--"; "--skipped"]
       (Parser.make, (Examples.value_and_file, ∅))
     = (Ok ParseResult.empty,
        (Parser.mk true 0 None ParseResult.empty,
         (assign (in_mPositional 0)
            (assigned_once (mPositional Examples.value_and_file !!! 0%nat))
            (assign (in_mOptions 0)
               (assigned_once (started (mOptions Examples.value_and_file !!! 0%nat)))
               Examples.value_and_file),
          <[1%nat := Scalar (Examples.VString "--skipped")]>
            (<[0%nat := Scalar (Examples.VLong 5)]> ∅)))).
Proof.
  assert (Examples.convert_long "5" = inr (Examples.VLong 5)) as Hconv
    by (vm_compute; reflexivity).
  split.
  - assert (Parser.findOption "--value" Examples.value_and_flag = Some 0%nat) as Hfind
      by (vm_compute; reflexivity).
    assert (mOptions Examples.value_and_flag !! 0%nat
            = Some (mOptions Examples.value_and_flag !!! 0%nat)) as Hopt
      by (vm_compute; reflexivity).
    assert (taking_positional Parser.make Examples.value_and_flag = None) as Hnone
      by (vm_compute; reflexivity).
    destruct (C3_dashdash_ends_option_parsing Examples.value_and_flag ∅ 0%nat
                (mOptions Examples.value_and_flag !!! 0%nat)
                0%nat Examples.convert_long (Examples.VLong 0) (Examples.VLong 5)
                Hfind Hopt eq_refl eq_refl eq_refl eq_refl eq_refl Hconv)
      as (_ & Hignored & _).
    exact (Hignored Hnone).
  - assert (Parser.findOption "--value" Examples.value_and_file = Some 0%nat) as Hfind
      by (vm_compute; reflexivity).
    assert (mOptions Examples.value_and_file !! 0%nat
            = Some (mOptions Examples.value_and_file !!! 0%nat)) as Hopt
      by (vm_compute; reflexivity).
    assert (taking_positional Parser.make Examples.value_and_file = Some 0%nat) as Hsome
      by (vm_compute; reflexivity).
    assert (mPositional Examples.value_and_file !! 0%nat
            = Some (mPositional Examples.value_and_file !!! 0%nat)) as Hat
      by (vm_compute; reflexivity).
    destruct (C3_dashdash_ends_option_parsing Examples.value_and_file ∅ 0%nat
                (mOptions Examples.value_and_file !!! 0%nat)
                0%nat Examples.convert_long (Examples.VLong 0) (Examples.VLong 5)
                Hfind Hopt eq_refl eq_refl eq_refl eq_refl eq_refl Hconv)
      as (_ & _ & _ & Hstored).
    exact (Hstored 0%nat (mPositional Examples.value_and_file !!! 0%nat)
             1%nat Examples.convert_string (Examples.VString "")
             (Examples.VString "--skipped")
             Hsome Hat eq_refl eq_refl eq_refl eq_refl).
Defined.



(** [-abd] and [-abd 4213] with two numbers and a string. *)
Lemma C2_short_option_cluster_witness :
  (exists ap' st',
      parse_args ["-abd"]
        (snd (Examples.declare_flags Examples.convert_long Examples.convert_string
                Examples.convert_long (Examples.VLong 0) (Examples.VString "")
                (Examples.VLong 0) "1" "on" "1" false make), ∅)
      = (Ok ParseResult.empty, (ap', st'))
      /\ st' !! 0%nat = Some (Scalar (Examples.VLong 1))
      /\ st' !! 1%nat = Some (Scalar (Examples.VString "on"))
      /\ st' !! 2%nat = Some (Scalar (Examples.VLong 1)))
  /\ (exists ap' st',
        parse_args ["-abd"; "4213"]
          (snd (Examples.declare_flags Examples.convert_long Examples.convert_string
                  Examples.convert_long (Examples.VLong 0) (Examples.VString "")
                  (Examples.VLong 0) "1" "on" "1" true make), ∅)
        = (Ok ParseResult.empty, (ap', st'))
        /\ st' !! 0%nat = Some (Scalar (Examples.VLong 1))
        /\ st' !! 1%nat = Some (Scalar (Examples.VString "on"))
        /\ st' !! 2%nat = Some (Scalar (Examples.VLong 4213))).
Proof.
  assert (Examples.convert_long "1" = inr (Examples.VLong 1)) as H1
    by (vm_compute; reflexivity).
  assert (Examples.convert_long "4213" = inr (Examples.VLong 4213)) as H4213
    by (vm_compute; reflexivity).
  destruct (C2_short_option_cluster
              Examples.convert_long Examples.convert_string Examples.convert_long
              (Examples.VLong 0) (Examples.VString "") (Examples.VLong 0)
              (Examples.VLong 1) (Examples.VString "on") (Examples.VLong 1)
              (Examples.VLong 4213) "1" "on" "1" H1 eq_refl H1 H4213 ∅)
    as ((ap1 & st1 & Hrun1 & _ & Ha1 & Hb1 & Hd1)
        & (ap2 & st2 & Hrun2 & _ & Ha2 & Hb2 & Hd2)).
  split.
  - exists ap1, st1. auto.
  - exists ap2, st2. auto.
Defined.

Ltac absent := repeat (apply not_elem_of_cons; split; [discriminate |]); apply not_elem_of_nil.

(** [-n] and [--number] added to [--value] and [--skipped]. *)
Lemma add_argument_then_findOption_witness :
  exists option,
    add_argument (Examples.long_at 5) "-n" "--number" Examples.value_and_flag
    = (Ok (OptionConfig.mk in_mOptions (length (mOptions Examples.value_and_flag)) false),
       set_mOptions (mOptions Examples.value_and_flag ++ [option]) Examples.value_and_flag)
    /\ Option.getName option = "--number".
Proof.
  destruct (add_argument_then_findOption Examples.value_and_flag (Examples.long_at 5)
              "n" "number" ltac:(discriminate) eq_refl ltac:(discriminate) eq_refl)
    as (option & Hrun & Hoption & _).
  exists option. split; [exact Hrun |]. rewrite Hoption. vm_compute. reflexivity.
Defined.

(** The exclusive group [Mode], declared again as [MODE]. *)
Lemma group_names_ignore_case_witness :
  exists ap1 : argument_parser.t Examples.Val,
    declare_group true "Mode" make = (Ok (Some "mode"), ap1)
    /\ declare_group true "MODE" ap1 = (Ok (Some "mode"), ap1)
    /\ declare_group false "MODE" ap1 = (Raise (MixingGroupTypes "MODE"), ap1).
Proof.
  destruct (group_names_ignore_case (TValue := Examples.Val) make true "Mode" "MODE" eq_refl)
    as (ap1 & Hrun & _ & _ & _ & Hagain & Hother).
  - intros g Hg. unfold make in Hg. cbn [mGroups] in Hg. rewrite lookup_empty in Hg.
    discriminate Hg.
  - exists ap1. split; [exact Hrun |]. split; [exact Hagain | exact Hother].
Defined.

(** [required( false )], [required( true )] and [required( false )] on the group
    [Output]. *)
Lemma required_group_stays_required_witness :
  group_isRequired (Some "output")
    (fold_left (fun ap b => GroupConfig.required (Some "output") b ap) [false; true; false]
       (Examples.built (TValue := Examples.Val) (add_group "Output")))
  = true.
Proof.
  assert (mGroups (Examples.built (TValue := Examples.Val) (add_group "Output")) !! "output"
          = Some (OptionGroup.make "output" false)) as Hgroup
    by (vm_compute; reflexivity).
  assert (true ∈ [false; true; false]) as Hin by (apply list_elem_of_In; cbn; tauto).
  destruct (required_group_stays_required _ "output" _ [false; true; false] Hgroup Hin)
    as (Hrequired & _).
  exact Hrequired.
Defined.

(** [nargs( 1 )] followed by [maxargs( 3 )] on [--value]. *)
Lemma count_is_set_at_most_once_witness :
  exists ap1,
    configure (OptionConfig.mk in_mOptions 0 false)
      (OptionConfig.nargs 1 ;;; OptionConfig.maxargs 3) Examples.value_and_flag
    = (Raise (std_invalid_argument "Only one of nargs, minargs and maxargs can be used."),
       ap1).
Proof.
  assert (OptionConfig.nargs ∈ count_setters (TValue := Examples.Val)) as Hfirst
    by (apply list_elem_of_In; cbn; tauto).
  assert (OptionConfig.maxargs ∈ count_setters (TValue := Examples.Val)) as Hsecond
    by (apply list_elem_of_In; cbn; tauto).
  destruct (count_is_set_at_most_once OptionConfig.nargs OptionConfig.maxargs 1 3
              (OptionConfig.mk in_mOptions 0 false) Examples.value_and_flag
              Hfirst Hsecond eq_refl)
    as (ap1 & _ & _ & Hrun).
  exists ap1. exact Hrun.
Defined.

(** [setMinArgs( -2 )] is [setMinArgs( 0 )]. *)
Lemma counts_are_consistent_witness :
  Option.setMinArgs (-2) (Option.make (Examples.long_at 0))
  = Option.setMinArgs 0 (Option.make (Examples.long_at 0)).
Proof.
  assert (Option.setMinArgs ∈ count_methods (TValue := Examples.Val)) as Hset
    by (apply list_elem_of_In; cbn; tauto).
  destruct (counts_are_consistent Option.setMinArgs (-2) (Option.make (Examples.long_at 0))
              (Value.make (Examples.long_at 0)) Hset)
    as (_ & _ & _ & Hclamp).
  apply Hclamp. lia.
Defined.

(** [extreme] is not a level. *)
Lemma value_outside_choices_witness :
  Parser.setValue (in_mOptions 0) "extreme" (Parser.make, (Examples.choices_and_vectors, ∅))
  = (Ok tt,
     (with_errors [mkParseError "--level" INVALID_CHOICE] Parser.make,
      (assign (in_mOptions 0)
         (marked_bad (deref (in_mOptions 0) Examples.choices_and_vectors))
         Examples.choices_and_vectors, ∅))).
Proof.
  assert (Option.mChoices (deref (in_mOptions 0) Examples.choices_and_vectors)
          = ["low"; "mid"; "high"]) as Hchoices by (vm_compute; reflexivity).
  assert (Option.getName (deref (in_mOptions 0) Examples.choices_and_vectors) = "--level")
    as Hname by (vm_compute; reflexivity).
  destruct (value_outside_choices (in_mOptions 0) "extreme" Parser.make
              Examples.choices_and_vectors ∅) as (_ & Hrun & _).
  - rewrite Hchoices. discriminate.
  - rewrite Hchoices. absent.
  - rewrite Hname in Hrun. exact Hrun.
Defined.

(** [many] is not a number. *)
Lemma failed_conversion_counts_as_assigned_witness :
  Parser.setValue (in_mOptions 0) "many" (Parser.make, (Examples.value_and_flag, ∅))
  = (Ok tt,
     (with_errors [mkParseError "--value" CONVERSION_ERROR] Parser.make,
      (assign (in_mOptions 0)
         (assigned_once (deref (in_mOptions 0) Examples.value_and_flag))
         Examples.value_and_flag, ∅)))
  /\ Option.wasAssigned (assigned_once (deref (in_mOptions 0) Examples.value_and_flag)) = true.
Proof.
  assert (Option.mChoices (deref (in_mOptions 0) Examples.value_and_flag) = []) as Hchoices
    by (vm_compute; reflexivity).
  assert (Option.mpAssignAction (deref (in_mOptions 0) Examples.value_and_flag) = None)
    as Haction by (vm_compute; reflexivity).
  assert (Value.impl (Option.mpValue (deref (in_mOptions 0) Examples.value_and_flag))
          = Value.ConvertedValue 0 Examples.convert_long (Examples.VLong 0)) as Himpl
    by (vm_compute; reflexivity).
  assert (Examples.convert_long "many" = inl (invalid_argument "stol")) as Hconv
    by (vm_compute; reflexivity).
  assert (Value.mAssignCount (Option.mpValue (deref (in_mOptions 0) Examples.value_and_flag))
          = 0) as Hcount by (vm_compute; reflexivity).
  assert (Option.getName (deref (in_mOptions 0) Examples.value_and_flag) = "--value")
    as Hname by (vm_compute; reflexivity).
  destruct (failed_conversion_counts_as_assigned (in_mOptions 0) "many" Parser.make
              Examples.value_and_flag ∅ (invalid_argument "stol") Hchoices Haction)
    as (Hrun & Hassigned & _).
  - exists 0%nat, Examples.convert_long. split; [| exact Hconv].
    right. exists (Examples.VLong 0). exact Himpl.
  - rewrite Hcount. lia.
  - rewrite Hname in Hrun. split; [exact Hrun | exact Hassigned].
Defined.

(** [--value=5 stray]: the second argument leaves no trace. *)
Lemma argument_after_attached_value_is_dropped_witness :
  Parser.parse ["--value=5"; "stray"] (Parser.make, (Examples.value_and_flag, ∅))
  = Parser.parse ["--value=5"] (Parser.make, (Examples.value_and_flag, ∅)).
Proof.
  assert (Parser.split_argument "--value=5" = ("--value", "5")) as Hsplit
    by (vm_compute; reflexivity).
  assert (Parser.findOption "--value" Examples.value_and_flag = Some 0%nat) as Hfind
    by (vm_compute; reflexivity).
  assert (mOptions Examples.value_and_flag !! 0%nat
          = Some (mOptions Examples.value_and_flag !!! 0%nat)) as Hopt
    by (vm_compute; reflexivity).
  assert (Option.mMaxArgs (mOptions Examples.value_and_flag !!! 0%nat) = 1) as Hmax
    by (vm_compute; reflexivity).
  assert (Option.mpAssignAction (mOptions Examples.value_and_flag !!! 0%nat) = None)
    as Haction by (vm_compute; reflexivity).
  exact (argument_after_attached_value_is_dropped Examples.value_and_flag ∅ "--value=5"
           "--value" "5" "stray" 0%nat _ eq_refl Hsplit ltac:(discriminate) Hfind Hopt Hmax
           Haction ltac:(discriminate)).
Defined.

(** [--value=a=b] is split at the first [=]. *)
Lemma split_argument_round_trip_witness :
  Parser.split_argument "--value=a=b" = ("--value", "a=b").
Proof.
  assert (find_eq "--value" = None) as Hnone by (vm_compute; reflexivity).
  destruct (split_argument_round_trip "--value" "a=b" Hnone) as [Hjoined _].
  exact Hjoined.
Defined.

(** [ann bob] after [--name]. *)
Lemma unbounded_option_collects_arguments_witness :
  exists st',
    for_each ["ann"; "bob"] Parser.parse_arg
      (Parser.set_mpActiveOption (Some 1%nat) Parser.make, (Examples.choices_and_vectors, ∅))
    = (Ok tt,
       (Parser.set_mpActiveOption (Some 1%nat) Parser.make,
        (assign (in_mOptions 1)
           (Nat.iter 2 assigned_once (mOptions Examples.choices_and_vectors !!! 1%nat))
           Examples.choices_and_vectors, st')))
    /\ elements_of (st' !! 1%nat) = [Examples.VString "ann"; Examples.VString "bob"].
Proof.
  assert (mOptions Examples.choices_and_vectors !! 1%nat
          = Some (mOptions Examples.choices_and_vectors !!! 1%nat)) as Hopt
    by (vm_compute; reflexivity).
  assert (Option.mMaxArgs (mOptions Examples.choices_and_vectors !!! 1%nat) < 0) as Hmax
    by (vm_compute; reflexivity).
  assert (Option.mChoices (mOptions Examples.choices_and_vectors !!! 1%nat) = []) as Hchoices
    by (vm_compute; reflexivity).
  assert (Option.mpAssignAction (mOptions Examples.choices_and_vectors !!! 1%nat) = None)
    as Haction by (vm_compute; reflexivity).
  assert (Value.impl (Option.mpValue (mOptions Examples.choices_and_vectors !!! 1%nat))
          = Value.ConvertedVector 1 Examples.convert_string) as Himpl
    by (vm_compute; reflexivity).
  destruct (unbounded_option_collects_arguments ["ann"; "bob"]
              [Examples.VString "ann"; Examples.VString "bob"]
              (Parser.set_mpActiveOption (Some 1%nat) Parser.make)
              Examples.choices_and_vectors ∅ 1%nat _ 1%nat Examples.convert_string
              eq_refl eq_refl Hopt Hmax Hchoices Haction Himpl)
    as (st' & Hrun & Hcell & _).
  - repeat constructor; discriminate.
  - repeat constructor.
  - exists st'. split; [exact Hrun | exact Hcell].
Defined.

(** [-v -v -v]. *)
Lemma repeated_flag_is_counted_witness :
  exists option' st',
    for_each ["-v"; "-v"; "-v"] Parser.parse_arg
      (Parser.make, (Examples.choices_and_vectors, ∅))
    = (Ok tt, (Parser.make, (assign (in_mOptions 2) option' Examples.choices_and_vectors, st')))
    /\ Value.mAssignCount (Option.mpValue option') = 3
    /\ elements_of (st' !! 2%nat)
       = [Examples.VLong 1; Examples.VLong 1; Examples.VLong 1].
Proof.
  assert (Parser.split_argument "-v" = ("-v", "")) as Hsplit by (vm_compute; reflexivity).
  assert (Parser.findOption "-v" Examples.choices_and_vectors = Some 2%nat) as Hfind
    by (vm_compute; reflexivity).
  assert (mOptions Examples.choices_and_vectors !! 2%nat
          = Some (mOptions Examples.choices_and_vectors !!! 2%nat)) as Hopt
    by (vm_compute; reflexivity).
  assert (Option.mMaxArgs (mOptions Examples.choices_and_vectors !!! 2%nat) = 0) as Hmax
    by (vm_compute; reflexivity).
  assert (Option.mChoices (mOptions Examples.choices_and_vectors !!! 2%nat) = []) as Hchoices
    by (vm_compute; reflexivity).
  assert (Option.mpAssignAction (mOptions Examples.choices_and_vectors !!! 2%nat) = None)
    as Haction by (vm_compute; reflexivity).
  assert (Value.impl (Option.mpValue (mOptions Examples.choices_and_vectors !!! 2%nat))
          = Value.ConvertedVector 2 Examples.convert_long) as Himpl
    by (vm_compute; reflexivity).
  assert (Examples.convert_long
            (Option.getFlagValue (mOptions Examples.choices_and_vectors !!! 2%nat))
          = inr (Examples.VLong 1)) as Hconv by (vm_compute; reflexivity).
  assert (Value.mAssignCount
            (Option.mpValue (mOptions Examples.choices_and_vectors !!! 2%nat)) = 0)
    as Hcount by (vm_compute; reflexivity).
  destruct (repeated_flag_is_counted 3 "-v" Parser.make Examples.choices_and_vectors ∅
              2%nat _ 2%nat Examples.convert_long (Examples.VLong 1)
              eq_refl eq_refl ltac:(discriminate) (or_intror (conj eq_refl eq_refl))
              Hsplit Hfind Hopt Hmax Hchoices Haction Himpl Hconv)
    as (option' & st' & Hrun & Hassigned & Hcell & _).
  exists option', st'. split; [exact Hrun |]. split.
  - rewrite Hassigned, Hcount. reflexivity.
  - exact Hcell.
Defined.

(** [a b] for a parser without positionals. *)
Lemma surplus_arguments_are_returned_witness :
  exists p',
    Parser.parse ["a"; "b"] (Parser.make, (Examples.value_and_flag, ∅))
    = (Ok {| ParseResult.ignoredArguments := ["a"; "b"]; ParseResult.errors := [] |},
       (p', (Examples.value_and_flag, ∅))).
Proof.
  assert (mPositional Examples.value_and_flag = []) as Hnone by (vm_compute; reflexivity).
  destruct (surplus_arguments_are_returned ["a"; "b"] Examples.value_and_flag ∅)
    as [_ Hparse].
  - rewrite Hnone. constructor.
  - apply Hparse. repeat constructor; discriminate.
Defined.

(** [-v - x] is parsed as [-v x]. *)
Lemma lone_dash_is_skipped_witness :
  Parser.parse ["-v"; "-"; "x"] (Parser.make, (Examples.choices_and_vectors, ∅))
  = Parser.parse ["-v"; "x"] (Parser.make, (Examples.choices_and_vectors, ∅)).
Proof.
  apply (lone_dash_is_skipped ["-v"] ["x"] Parser.make (Examples.choices_and_vectors, ∅)
           eq_refl).
  absent.
Defined.

(** The required [--on] in the exclusive group [mode]. *)
Lemma required_option_in_exclusive_group_is_refused_witness :
  parse_args ["--on"] (Examples.required_switch, ∅)
  = (Raise (RequiredExclusiveOption "--on" "mode"),
     (with_default_help Examples.required_switch, ∅)).
Proof.
  assert (mOptions Examples.required_switch
          = [] ++ (mOptions Examples.required_switch !!! 0%nat) :: []) as Hopts
    by (vm_compute; reflexivity).
  assert (Option.isRequired (mOptions Examples.required_switch !!! 0%nat) = true) as Hreq
    by (vm_compute; reflexivity).
  assert (group_isExclusive (Option.getGroup (mOptions Examples.required_switch !!! 0%nat))
            Examples.required_switch = true) as Hex by (vm_compute; reflexivity).
  assert (Option.getName (mOptions Examples.required_switch !!! 0%nat) = "--on") as Hname
    by (vm_compute; reflexivity).
  assert (group_getName (Option.getGroup (mOptions Examples.required_switch !!! 0%nat))
            Examples.required_switch = "mode") as Hgroup by (vm_compute; reflexivity).
  destruct (required_option_in_exclusive_group_is_refused Examples.required_switch ∅
              ["--on"] [] [] _ Hopts ltac:(constructor) Hreq Hex) as [Hrun _].
  rewrite Hname, Hgroup in Hrun. exact Hrun.
Defined.

(** No arguments for a required [--count] and a positional [file]. *)
Lemma parse_args_without_arguments_witness :
  exists result,
    parse_args [] (Examples.needs_input, ∅)
    = (Ok result, reset_state (with_default_help Examples.needs_input, ∅))
    /\ ParseResult.ignoredArguments result = [].
Proof.
  assert (declarations_verified Examples.needs_input) as Hok by (repeat constructor).
  destruct (parse_args_without_arguments Examples.needs_input ∅ Hok)
    as (groups & Hrun & _).
  eexists. split; [exact Hrun | reflexivity].
Defined.

(** The summaries for [--value] with two arguments, with at least two, and
    with at most three. *)
Lemma summary_of_the_arguments_witness :
  described_arguments
    (Option.setNArgs 2 (mOptions Examples.value_and_flag !!! 0%nat)) Examples.value_and_flag
  = Some "VALUE VALUE"
  /\ described_arguments
       (Option.setMinArgs 2 (mOptions Examples.value_and_flag !!! 0%nat))
       Examples.value_and_flag
     = Some "VALUE VALUE [VALUE ...]"
  /\ described_arguments
       (Option.setMaxArgs 3 (mOptions Examples.value_and_flag !!! 0%nat))
       Examples.value_and_flag
     = Some "[VALUE {0..3}]".
Proof.
  assert (Option.getMetavar (mOptions Examples.value_and_flag !!! 0%nat) = Ok "VALUE")
    as Hmetavar by (vm_compute; reflexivity).
  destruct (summary_of_the_arguments (mOptions Examples.value_and_flag !!! 0%nat)
              Examples.value_and_flag "VALUE" 1 Hmetavar)
    as (_ & Hexact & _ & Hmin & _ & _ & Hmax).
  split; [exact Hexact |]. split; [exact Hmin | exact Hmax].
Defined.

(** [-v] is the short name of [--value]. *)
Lemma describe_argument_finds_what_the_parser_finds_witness :
  describe_argument "-v" Examples.value_and_flag
  = describeOption (mOptions Examples.value_and_flag !!! 0%nat) Examples.value_and_flag.
Proof.
  assert (Parser.findOption "-v" Examples.value_and_flag = Some 0%nat) as Hfind
    by (vm_compute; reflexivity).
  pose proof (describe_argument_finds_what_the_parser_finds "-v" Examples.value_and_flag
                eq_refl) as Hrun.
  rewrite Hfind in Hrun. exact Hrun.
Defined.

(** The descriptions of [--count] and [file]. *)
Lemma describe_arguments_follows_the_declarations_witness :
  exists ds,
    describe_arguments Examples.needs_input = (Ok ds, Examples.needs_input)
    /\ length ds = 2%nat.
Proof.
  assert (mOptions Examples.needs_input ++ mPositional Examples.needs_input
          = [mOptions Examples.needs_input !!! 0%nat;
             mPositional Examples.needs_input !!! 0%nat]) as Hall
    by (vm_compute; reflexivity).
  destruct (describe_arguments_follows_the_declarations Examples.needs_input)
    as (ds & Hrun & Hds).
  - rewrite Hall. repeat constructor; intros _; eexists; vm_compute; reflexivity.
  - exists ds. split; [exact Hrun |].
    apply Forall2_length in Hds. rewrite <- Hds, Hall. reflexivity.
Defined.

(** [--size] without an argument, with the flag value [big]. *)
Lemma flag_value_failure_leaves_the_parser_witness :
  fst (Parser.parse ["--size"] (Parser.make, (Examples.bad_flag, ∅)))
  = Raise (std_invalid_argument "stol").
Proof.
  assert (Parser.split_argument "--size" = ("--size", "")) as Hsplit
    by (vm_compute; reflexivity).
  assert (Parser.findOption "--size" Examples.bad_flag = Some 0%nat) as Hfind
    by (vm_compute; reflexivity).
  assert (mOptions Examples.bad_flag !! 0%nat = Some (mOptions Examples.bad_flag !!! 0%nat))
    as Hopt by (vm_compute; reflexivity).
  assert (Option.mMinArgs (mOptions Examples.bad_flag !!! 0%nat) <= 0) as Hmin
    by (vm_compute; discriminate).
  assert (Option.mMaxArgs (mOptions Examples.bad_flag !!! 0%nat) <> 0) as Hmax
    by (vm_compute; discriminate).
  assert (Option.mChoices (mOptions Examples.bad_flag !!! 0%nat) = []) as Hchoices
    by (vm_compute; reflexivity).
  assert (Option.mpAssignAction (mOptions Examples.bad_flag !!! 0%nat) = None) as Haction
    by (vm_compute; reflexivity).
  assert (Value.impl (Option.mpValue (mOptions Examples.bad_flag !!! 0%nat))
          = Value.ConvertedValue 0 Examples.convert_long (Examples.VLong 0)) as Himpl
    by (vm_compute; reflexivity).
  assert (Examples.convert_long (Option.getFlagValue (mOptions Examples.bad_flag !!! 0%nat))
          = inl (invalid_argument "stol")) as Hconv by (vm_compute; reflexivity).
  rewrite (flag_value_failure_leaves_the_parser Examples.bad_flag ∅ "--size" 0%nat _
             (invalid_argument "stol") ltac:(discriminate) (or_introl eq_refl)
             Hsplit Hfind Hopt Hmin Hmax Hchoices Haction).
  - reflexivity.
  - exists 0%nat, Examples.convert_long. split; [| exact Hconv].
    right. exists (Examples.VLong 0). exact Himpl.
Defined.
(** [--long] and [-toolong]: the second name is refused, and the option that
    is left has the first one. *)
Lemma rejected_option_name_leaves_option_witness :
  add_argument (Examples.long_at 0) "--long" "-toolong" make
  = (Raise (std_invalid_argument "Short option name has too many characters."),
     set_mOptions
       (mOptions make ++ [Option.setLongName "--long" (Option.make (Examples.long_at 0))])
       make)
  /\ Parser.findOption "--long"
       (set_mOptions
          (mOptions make ++ [Option.setLongName "--long" (Option.make (Examples.long_at 0))])
          (make (TValue := Examples.Val)))
     = Some (length (mOptions (make (TValue := Examples.Val)))).
Proof.
  destruct (rejected_option_name_leaves_option make (Examples.long_at 0)
              "t"%char "oolong" ltac:(discriminate) ltac:(discriminate) eq_refl)
    as (_ & _ & Hlong & _).
  destruct (Hlong "long" ltac:(discriminate) eq_refl) as [Hrun Hfound].
  split; [exact Hrun |]. apply Hfound. reflexivity.
Defined.
End Instances.
